(** * SmartCache (src/SmartCache.ts): a shallow embedding in Rocq

    The embedded class is the current [SmartCache<K, T>] with string,
    symbol and object keys, TTL timers, a shared [FinalizationRegistry]
    and an LRU ledger.  JavaScript [Map]s are association lists (iteration
    in insertion order, [Map.set] on an existing key updates in place);
    the host clock, the garbage collector's view of which targets are
    collected, the pending [setTimeout] timers and the registrations of the
    shared registry are explicit parts of the state. *)

From Stdlib Require Import ZArith List String Bool Lia.
Import ListNotations.
Open Scope Z_scope.

Module SmartCache.

(** ** JavaScript values *)

(** Numbers are integers (NaN, fractions and [-0] play no role in the
    cache); symbols, objects and arrays are compared by identity. *)
Inductive jsval : Type :=
| JUndefined
| JNull
| JBool (b : bool)
| JNum (z : Z)
| JStr (str : string)
| JSym (id : nat)
| JObj (id : nat)
| JArr (id : nat).

(** The [SameValueZero] comparison used by [Map] (and [===] on these values). *)
Definition jsval_eqb (a b : jsval) : bool :=
  match a, b with
  | JUndefined, JUndefined => true
  | JNull, JNull => true
  | JBool x, JBool y => Bool.eqb x y
  | JNum x, JNum y => Z.eqb x y
  | JStr x, JStr y => String.eqb x y
  | JSym x, JSym y => Nat.eqb x y
  | JObj x, JObj y => Nat.eqb x y
  | JArr x, JArr y => Nat.eqb x y
  | _, _ => false
  end.

Definition jsval_eq_dec (a b : jsval) : {a = b} + {a <> b}.
Proof.
  decide equality;
    first [apply Bool.bool_dec | apply Z.eq_dec | apply string_dec | apply Nat.eq_dec].
Defined.

Inductive jstype := TUndefined | TObject | TBoolean | TNumber | TString | TSymbol.

(** [typeof v]. *)
Definition typeof (v : jsval) : jstype :=
  match v with
  | JUndefined => TUndefined
  | JNull => TObject
  | JBool _ => TBoolean
  | JNum _ => TNumber
  | JStr _ => TString
  | JSym _ => TSymbol
  | JObj _ | JArr _ => TObject
  end.

Definition isArray (v : jsval) : bool :=
  match v with JArr _ => true | _ => false end.

Definition is_nullish (v : jsval) : bool :=
  match v with JUndefined | JNull => true | _ => false end.

(** [!!v]. *)
Definition truthy (v : jsval) : bool :=
  match v with
  | JUndefined | JNull => false
  | JBool b => b
  | JNum z => negb (Z.eqb z 0)
  | JStr str => negb (String.eqb str EmptyString)
  | _ => true
  end.

(** A number stored as [number | undefined] is truthy when it is defined
    and non-zero. *)
Definition num_truthy (o : option Z) : bool :=
  match o with Some z => negb (Z.eqb z 0) | None => false end.

(** Targets accepted by [new WeakRef] and [FinalizationRegistry.register]. *)
Definition can_be_held_weakly (v : jsval) : bool :=
  match v with JSym _ | JObj _ | JArr _ => true | _ => false end.

(** The three key categories of [#getEntry]. *)
Inductive keyType := KString | KSymbol | KObject.

Definition classify (k : jsval) : keyType :=
  match typeof k with
  | TString => KString
  | TSymbol => KSymbol
  | _ => KObject
  end.

(** ** Entries and the host runtime *)

(** [StringCacheEntry], [SymbolCacheEntry] and [CacheEntry] in one record:
    [value] is the stored value, or the target of [weakRef] for an object
    entry; [unregisterToken] is [None] for string entries. *)
Record entry := mkEntry {
  value : jsval;
  timeoutId : option nat;
  expiresAt : option Z;
  accessTime : Z;
  unregisterToken : option nat
}.

(** A pending [setTimeout(() => this.delete(key), delay)]. *)
Record timer := mkTimer {
  timerId : nat;
  timerKey : jsval;
  timerDelay : Z;
  timerArmedAt : Z
}.

(** Unregister tokens: [Object(Symbol())] made by the cache, or supplied by
    the caller of [getNotificationOnGC]. *)
Inductive token := CacheToken (n : nat) | UserToken (v : jsval).

(** A registration [registry.register(target, heldValue, token)]; [regShared]
    tells the shared registry from one made for a user cleanup. *)
Record registration := mkReg {
  regTarget : jsval;
  regKey : jsval;
  regToken : option token;
  regShared : bool
}.

(** Host capabilities: [typeof WeakRef] and [typeof FinalizationRegistry]. *)
Record host := mkHost {
  hasWeakRef : bool;
  hasFinalizationRegistry : bool
}.

Record runtime := mkRuntime {
  now : Z;                         (* Date.now() *)
  collected : list jsval;          (* targets the collector has reclaimed *)
  timers : list timer;             (* pending timeouts *)
  registry : list registration;    (* live registrations *)
  fresh : nat;                     (* next timer id / token *)
  env : host
}.

(** The private fields of a [SmartCache] instance.  The LRU ledger
    ([#lruHead], [#lruTail], [#lruMap]) is the sequence of keys of the
    linked list from head to tail; [#lruMap.get(k)] finds a node exactly
    when [k] is in that sequence. *)
Record st := mkSt {
  stringCache : list (jsval * entry);
  cache : list (jsval * entry);
  symbolCache : list (jsval * entry);
  defaultTtl : option Z;
  maxSize : option Z;
  lru : list jsval;
  currentSize : Z;
  rt : runtime
}.

Definition with_stringCache m s :=
  mkSt m (cache s) (symbolCache s) (defaultTtl s) (maxSize s) (lru s) (currentSize s) (rt s).
Definition with_cache m s :=
  mkSt (stringCache s) m (symbolCache s) (defaultTtl s) (maxSize s) (lru s) (currentSize s) (rt s).
Definition with_symbolCache m s :=
  mkSt (stringCache s) (cache s) m (defaultTtl s) (maxSize s) (lru s) (currentSize s) (rt s).
Definition with_lru l s :=
  mkSt (stringCache s) (cache s) (symbolCache s) (defaultTtl s) (maxSize s) l (currentSize s) (rt s).
Definition with_currentSize n s :=
  mkSt (stringCache s) (cache s) (symbolCache s) (defaultTtl s) (maxSize s) (lru s) n (rt s).
Definition with_rt r s :=
  mkSt (stringCache s) (cache s) (symbolCache s) (defaultTtl s) (maxSize s) (lru s) (currentSize s) r.

Definition with_now t r :=
  mkRuntime t (collected r) (timers r) (registry r) (fresh r) (env r).
Definition with_collected c r :=
  mkRuntime (now r) c (timers r) (registry r) (fresh r) (env r).
Definition with_timers ts r :=
  mkRuntime (now r) (collected r) ts (registry r) (fresh r) (env r).
Definition with_registry rs r :=
  mkRuntime (now r) (collected r) (timers r) rs (fresh r) (env r).
Definition with_fresh n r :=
  mkRuntime (now r) (collected r) (timers r) (registry r) n (env r).

(** Errors a call can throw.  A throw carries the state at the throw point:
    the mutations done before it stay. *)
Inductive jserror := ValidationError | TypeError | ReferenceError | ConfigurationError.

Inductive outcome (A : Type) :=
| Ok (s : st) (a : A)
| Throw (e : jserror) (s : st).
Arguments Ok {A} s a.
Arguments Throw {A} e s.

(** ** [Map] as an association list *)

Fixpoint map_get (k : jsval) (m : list (jsval * entry)) : option entry :=
  match m with
  | [] => None
  | (k', e) :: m' => if jsval_eqb k k' then Some e else map_get k m'
  end.

Fixpoint map_set (k : jsval) (e : entry) (m : list (jsval * entry)) : list (jsval * entry) :=
  match m with
  | [] => [(k, e)]
  | (k', e') :: m' => if jsval_eqb k k' then (k', e) :: m' else (k', e') :: map_set k e m'
  end.

Definition map_delete (k : jsval) (m : list (jsval * entry)) : list (jsval * entry) :=
  filter (fun p => negb (jsval_eqb k (fst p))) m.

(** ** Host primitives *)

(** [Date.now() > expiresAt] when an expiry is stored ([#isExpired]). *)
Definition isExpired (s : st) (e : option Z) : bool :=
  match e with Some z => Z.ltb z (now (rt s)) | None => false end.

(** [weakRef.deref()]. *)
Definition deref (s : st) (target : jsval) : jsval :=
  if existsb (jsval_eqb target) (collected (rt s)) then JUndefined else target.

Definition clearTimeout (o : option nat) (s : st) : st :=
  match o with
  | Some id => with_rt (with_timers (filter (fun t => negb (Nat.eqb (timerId t) id)) (timers (rt s))) (rt s)) s
  | None => s
  end.

(** [#createTtlTimeout(key, ttl)]: returns the new timer's id. *)
Definition createTtlTimeout (k : jsval) (ttl : Z) (s : st) : st * nat :=
  let r := rt s in
  let id := fresh r in
  (with_rt (with_fresh (S id) (with_timers (timers r ++ [mkTimer id k ttl (now r)]) r)) s, id).

(** [Object(Symbol())]: a fresh unregister token. *)
Definition freshToken (s : st) : st * nat :=
  let r := rt s in (with_rt (with_fresh (S (fresh r)) r) s, fresh r).

Definition token_eqb (a b : token) : bool :=
  match a, b with
  | CacheToken x, CacheToken y => Nat.eqb x y
  | UserToken x, UserToken y => jsval_eqb x y
  | _, _ => false
  end.

(** [this.#sharedRegistry.unregister(token)]. *)
Definition unregister (tok : nat) (s : st) : st :=
  with_rt (with_registry
    (filter (fun g => negb (regShared g && match regToken g with
                                            | Some t => token_eqb t (CacheToken tok)
                                            | None => false end))
       (registry (rt s))) (rt s)) s.

Definition unregister_opt (o : option nat) (s : st) : st :=
  match o with Some tok => unregister tok s | None => s end.

(** [registry.register(target, held, token)]: the target must be an object
    or a non-registered symbol, the token an object or [undefined]. *)
Definition register (shared : bool) (target key : jsval) (tok : option token) (s : st)
  : outcome unit :=
  if negb (can_be_held_weakly target) then Throw TypeError s
  else Ok (with_rt (with_registry (registry (rt s) ++ [mkReg target key tok shared]) (rt s)) s) tt.


(** ** The LRU ledger *)

Definition lru_has (k : jsval) (s : st) : bool := existsb (jsval_eqb k) (lru s).

Definition lru_remove (k : jsval) (l : list jsval) : list jsval :=
  filter (fun k' => negb (jsval_eqb k k')) l.

(** [#updateLRU]: an indexed node is relinked at the tail ([#moveToTail];
    the [node.next !== this.#lruTail] guard only skips a relink that would
    leave the list as it is), otherwise a new node is linked at the tail
    ([#addToTail]) and indexed. *)
Definition updateLRU (k : jsval) (s : st) : st :=
  if lru_has k s then with_lru (lru_remove k (lru s) ++ [k]) s
  else with_lru (lru s ++ [k]) s.

(** ** delete *)

Definition deleteStringEntry (k : jsval) (e : entry) (s : st) : st :=
  let s := clearTimeout (timeoutId e) s in
  with_stringCache (map_delete k (stringCache s)) s.

Definition deleteSymbolEntry (k : jsval) (e : entry) (s : st) : st :=
  let s := clearTimeout (timeoutId e) s in
  let s := unregister_opt (unregisterToken e) s in
  with_symbolCache (map_delete k (symbolCache s)) s.

Definition deleteEntry (k : jsval) (e : entry) (s : st) : st :=
  let s := clearTimeout (timeoutId e) s in
  let s := unregister_opt (unregisterToken e) s in
  with_cache (map_delete k (cache s)) s.

(** [delete(key)]: returns the new state and whether an entry was removed. *)
Definition delete (k : jsval) (s : st) : st * bool :=
  let s := if lru_has k s then with_lru (lru_remove k (lru s)) s else s in
  let '(s, deleted) :=
    match classify k with
    | KString =>
        match map_get k (stringCache s) with
        | Some e => (deleteStringEntry k e s, true)
        | None => (s, false)
        end
    | KSymbol =>
        match map_get k (symbolCache s) with
        | Some e => (deleteSymbolEntry k e s, true)
        | None => (s, false)
        end
    | KObject =>
        match map_get k (cache s) with
        | Some e => (deleteEntry k e s, true)
        | None => (s, false)
        end
    end in
  (if deleted then with_currentSize (currentSize s - 1) s else s, deleted).

(** [#evictLRU]: deletes the key of the node after the head sentinel. *)
Definition evictLRU (s : st) : st :=
  match lru s with
  | [] => s
  | k :: _ => fst (delete k s)
  end.

(** ** set *)

(** [#getEntry]. *)
Definition getEntry (k : jsval) (s : st) : option entry * keyType :=
  match classify k with
  | KString => (map_get k (stringCache s), KString)
  | KSymbol => (map_get k (symbolCache s), KSymbol)
  | KObject => (map_get k (cache s), KObject)
  end.

(** [#validateInputs]. *)
Definition validateInputs (k v : jsval) : option jserror :=
  if is_nullish k then Some ValidationError
  else if is_nullish v then Some ValidationError
  else None.

(** [new WeakRef(value)]: a [ReferenceError] when the host has no
    [WeakRef], a [TypeError] for a target that cannot be held weakly. *)
Definition newWeakRef (v : jsval) (s : st) : outcome unit :=
  if negb (hasWeakRef (env (rt s))) then Throw ReferenceError s
  else if negb (can_be_held_weakly v) then Throw TypeError s
  else Ok s tt.

(** [ttl ? this.#createTtlTimeout(key, ttl) : undefined]. *)
Definition armTimer (k : jsval) (ttl : option Z) (s : st) : st * option nat :=
  match ttl with
  | Some t => if negb (Z.eqb t 0) then let '(s, id) := createTtlTimeout k t s in (s, Some id)
              else (s, None)
  | None => (s, None)
  end.

(** [ttl ? Date.now() + ttl : undefined]. *)
Definition expiryOf (ttl : option Z) (s : st) : option Z :=
  match ttl with
  | Some t => if negb (Z.eqb t 0) then Some (now (rt s) + t) else None
  | None => None
  end.

Definition is_object_typed (v : jsval) : bool :=
  match typeof v with TObject => true | _ => false end.

Definition set (k v : jsval) (ttlOpt : option Z) (s : st) : outcome unit :=
  match validateInputs k v with
  | Some err => Throw err s
  | None =>
    let '(existing, kt) := getEntry k s in
    let s := match existing with
             | Some _ => updateLRU k (fst (delete k s))
             | None => s
             end in
    let s := if num_truthy (maxSize s)
                && (match maxSize s with Some m => Z.leb m (currentSize s) | None => false end)
             then evictLRU s else s in
    let ttl := match ttlOpt with Some t => Some t | None => defaultTtl s end in
    let expires := expiryOf ttl s in
    let accessT := now (rt s) in
    match kt with
    | KString =>
        let '(s, tid) := armTimer k ttl s in
        let s := with_stringCache (map_set k (mkEntry v tid expires accessT None) (stringCache s)) s in
        Ok (with_currentSize (currentSize s + 1) s) tt
    | KSymbol =>
        let '(s, tid) := armTimer k ttl s in
        let '(s, tok) := freshToken s in
        let s := with_symbolCache
                   (map_set k (mkEntry v tid expires accessT (Some tok)) (symbolCache s)) s in
        let r := if is_object_typed v && negb (jsval_eqb v JNull)
                 then register true v k (Some (CacheToken tok)) s else Ok s tt in
        match r with
        | Throw e s => Throw e s
        | Ok s _ => Ok (with_currentSize (currentSize s + 1) s) tt
        end
    | KObject =>
        if negb (isArray v) && negb (jsval_eqb v JNull) then
          match newWeakRef v s with
          | Throw e s => Throw e s
          | Ok s _ =>
            let '(s, tid) := armTimer k ttl s in
            let '(s, tok) := freshToken s in
            let s := with_cache (map_set k (mkEntry v tid expires accessT (Some tok)) (cache s)) s in
            match register true v k (Some (CacheToken tok)) s with
            | Throw e s => Throw e s
            | Ok s _ => Ok (with_currentSize (currentSize s + 1) s) tt
            end
          end
        else Ok s tt
    end
  end.

(** [getNotificationOnGC({key, value, unregisterToken, cleanup})]: with a
    [cleanup] a fresh registry is used, otherwise the shared one. *)
Definition getNotificationOnGC (k v tok : jsval) (hasCleanup : bool) (s : st) : outcome unit :=
  match validateInputs k v with
  | Some err => Throw err s
  | None =>
    match tok with
    | JUndefined => register (negb hasCleanup) v k None s
    | _ => if can_be_held_weakly tok
           then register (negb hasCleanup) v k (Some (UserToken tok)) s
           else Throw TypeError s
    end
  end.

(** ** Reads *)

(** [get(key)]: [JUndefined] stands for the [undefined] result. *)
Definition get (k : jsval) (s : st) : st * jsval :=
  let '(e0, kt) := getEntry k s in
  match e0 with
  | None => (s, JUndefined)
  | Some e =>
    if num_truthy (expiresAt e) && isExpired s (expiresAt e) then (fst (delete k s), JUndefined)
    else
      let s := updateLRU k s in
      match kt with
      | KString | KSymbol => (s, value e)
      | KObject =>
          let v := deref s (value e) in
          if negb (truthy v) then (fst (delete k s), JUndefined) else (s, v)
      end
  end.

(** [has(key)]: a query only; it never writes the instance. *)
Definition has (k : jsval) (s : st) : bool :=
  match classify k with
  | KString =>
      match map_get k (stringCache s) with
      | Some e => negb (isExpired s (expiresAt e))
      | None => false
      end
  | KSymbol =>
      match map_get k (symbolCache s) with
      | Some e => negb (isExpired s (expiresAt e))
      | None => false
      end
  | KObject =>
      match map_get k (cache s) with
      | None => false
      | Some e =>
          if isExpired s (expiresAt e) then false
          else negb (jsval_eqb (deref s (value e)) JUndefined)
      end
  end.

(** One pass of the [for (const [key, entry] of this.#cache)] loops of
    [size] and [keys]: [alive e] is the test of the loop; alive keys and
    dead keys are collected in iteration order. *)
Fixpoint sweep (alive : entry -> bool) (m : list (jsval * entry))
         (acc : list jsval * list jsval) : list jsval * list jsval :=
  match m with
  | [] => acc
  | (k, e) :: m' =>
      let '(live, dead) := acc in
      sweep alive m' (if alive e then (live ++ [k], dead) else (live, dead ++ [k]))
  end.

(** The same pass counting alive entries, as [size] does. *)
Fixpoint sweep_count (alive : entry -> bool) (m : list (jsval * entry))
         (acc : Z * list jsval) : Z * list jsval :=
  match m with
  | [] => acc
  | (k, e) :: m' =>
      let '(n, dead) := acc in
      sweep_count alive m' (if alive e then (n + 1, dead) else (n, dead ++ [k]))
  end.

(** Object entries: not expired and [entry.weakRef.deref() !== undefined]. *)
Definition alive_object (s : st) (e : entry) : bool :=
  if isExpired s (expiresAt e) then false
  else negb (jsval_eqb (deref s (value e)) JUndefined).

(** Symbol and string entries: not expired. *)
Definition alive_plain (s : st) (e : entry) : bool :=
  negb (isExpired s (expiresAt e)).

(** [deadKeys.forEach(key => this.delete(key))]. *)
Definition deleteAll (ks : list jsval) (s : st) : st :=
  fold_left (fun s k => fst (delete k s)) ks s.

(** [get size()]. *)
Definition size (s : st) : st * Z :=
  let acc := sweep_count (alive_object s) (cache s) (0, []) in
  let acc := sweep_count (alive_plain s) (symbolCache s) acc in
  let '(n, dead) := sweep_count (alive_plain s) (stringCache s) acc in
  (deleteAll dead s, n).

(** [keys()]. *)
Definition keys (s : st) : st * list jsval :=
  let acc := sweep (alive_object s) (cache s) ([], []) in
  let acc := sweep (alive_plain s) (symbolCache s) acc in
  let '(live, dead) := sweep (alive_plain s) (stringCache s) acc in
  (deleteAll dead s, live).

(** [clear()]. *)
Definition clear (s : st) : st :=
  let s := fold_left (fun s p => unregister_opt (unregisterToken (snd p))
                                   (clearTimeout (timeoutId (snd p)) s)) (cache s) s in
  let s := fold_left (fun s p => unregister_opt (unregisterToken (snd p))
                                   (clearTimeout (timeoutId (snd p)) s)) (symbolCache s) s in
  let s := fold_left (fun s p => clearTimeout (timeoutId (snd p)) s) (stringCache s) s in
  mkSt [] [] [] (defaultTtl s) (maxSize s) [] 0 (rt s).

(** [getTtl(key)]: [Some (ttl, expiresAt)] or [null]. *)
Definition getTtl (k : jsval) (s : st) : option (Z * Z) :=
  let e0 := match map_get k (cache s) with
            | Some e => Some e
            | None => match map_get k (symbolCache s) with
                      | Some e => Some e
                      | None => map_get k (stringCache s)
                      end
            end in
  match e0 with
  | Some e =>
      match expiresAt e with
      | Some x => if Z.eqb x 0 then None else Some (Z.max 0 (x - now (rt s)), x)
      | None => None
      end
  | None => None
  end.

(** [updateTtl(key, ttl)]: the entry object found first (object, symbol,
    string map) is updated in place. *)
Definition updateTtl (k : jsval) (ttl : Z) (s : st) : st * bool :=
  let refresh (e : entry) (write : entry -> st -> st) : st * bool :=
    let s := clearTimeout (timeoutId e) s in
    let '(s, id) := createTtlTimeout k ttl s in
    (write (mkEntry (value e) (Some id) (Some (now (rt s) + ttl)) (accessTime e)
              (unregisterToken e)) s, true) in
  match map_get k (cache s) with
  | Some e => refresh e (fun e' s => with_cache (map_set k e' (cache s)) s)
  | None =>
    match map_get k (symbolCache s) with
    | Some e => refresh e (fun e' s => with_symbolCache (map_set k e' (symbolCache s)) s)
    | None =>
      match map_get k (stringCache s) with
      | Some e => refresh e (fun e' s => with_stringCache (map_set k e' (stringCache s)) s)
      | None => (s, false)
      end
    end
  end.

(** [getStats()]: the counter [#currentSize] and the sizes of the three
    maps and of [#lruMap]. *)
Record stats := mkStats {
  statsSize : Z;
  stringItems : nat;
  objectItems : nat;
  symbolItems : nat;
  lruNodes : nat
}.

Definition getStats (s : st) : stats :=
  mkStats (currentSize s) (List.length (stringCache s)) (List.length (cache s))
          (List.length (symbolCache s)) (List.length (lru s)).

(** ** Construction *)

(** The [#sharedRegistry] field initializer and the constructor body both
    test [typeof global.FinalizationRegistry !== 'function']. *)
Definition new_SmartCache (h : host) (t0 : Z) (defTtl maxSz : option Z) : jserror + st :=
  if negb (hasFinalizationRegistry h) then inl ConfigurationError
  else if negb (hasFinalizationRegistry h) then inl ConfigurationError
  else inr (mkSt [] [] [] defTtl maxSz [] 0 (mkRuntime t0 [] [] [] 0 h)).

(** ** Asynchronous events *)

(** A pending timer fires: it leaves the queue and runs [this.delete(key)]. *)
Definition fire (id : nat) (s : st) : st :=
  match find (fun t => Nat.eqb (timerId t) id) (timers (rt s)) with
  | Some t =>
      let s := with_rt (with_timers (filter (fun t => negb (Nat.eqb (timerId t) id))
                                             (timers (rt s))) (rt s)) s in
      fst (delete (timerKey t) s)
  | None => s
  end.

Definition registration_eqb (a b : registration) : bool :=
  jsval_eqb (regTarget a) (regTarget b) && jsval_eqb (regKey a) (regKey b)
  && match regToken a, regToken b with
     | Some x, Some y => token_eqb x y
     | None, None => true
     | _, _ => false
     end
  && Bool.eqb (regShared a) (regShared b).

(** The callback of a registration, allowed to run once its target has
    been collected.  The shared registry runs [#handleFinalization], i.e.
    [this.delete(heldValue.key)].  A user registry runs the user's cleanup:
    that is arbitrary code, and the calls it makes on the instance are the
    later operations of a run (see [reachable]), so this step only drops
    the registration.  The step over-approximates V8: the held value
    [{key, value, type}] of [getNotificationOnGC] keeps its target alive
    while the registry lives, so such a callback may never run; what is
    proved for every reachable state holds for this larger set of runs. *)
Definition finalize (g : registration) (s : st) : st :=
  if existsb (registration_eqb g) (registry (rt s))
     && existsb (jsval_eqb (regTarget g)) (collected (rt s)) then
    let s := with_rt (with_registry (filter (fun g' => negb (registration_eqb g g'))
                                            (registry (rt s))) (rt s)) s in
    if regShared g then fst (delete (regKey g) s) else s
  else s.

(** The collector reclaims a target. *)
Definition collect (v : jsval) (s : st) : st :=
  with_rt (with_collected (collected (rt s) ++ [v]) (rt s)) s.

(** The clock advances. *)
Definition tick (t : Z) (s : st) : st :=
  with_rt (with_now (Z.max (now (rt s)) t) (rt s)) s.

(** ** Reachable states *)

Inductive op :=
| OSet (k v : jsval) (ttl : option Z)
| OGet (k : jsval)
| OHas (k : jsval)
| ODelete (k : jsval)
| OClear
| OKeys
| OSize
| OGetTtl (k : jsval)
| OUpdateTtl (k : jsval) (ttl : Z)
| ONotify (k v tok : jsval) (hasCleanup : bool)
| OFire (id : nat)
| OFinalize (g : registration)
| OCollect (v : jsval)
| OTick (t : Z).

Definition outcome_state {A} (o : outcome A) : st :=
  match o with Ok s _ => s | Throw _ s => s end.

(** The instance after an operation, whether it returned or threw. *)
Definition run_op (o : op) (s : st) : st :=
  match o with
  | OSet k v ttl => outcome_state (set k v ttl s)
  | OGet k => fst (get k s)
  | OHas _ => s
  | ODelete k => fst (delete k s)
  | OClear => clear s
  | OKeys => fst (keys s)
  | OSize => fst (size s)
  | OGetTtl _ => s
  | OUpdateTtl k t => fst (updateTtl k t s)
  | ONotify k v tok c => outcome_state (getNotificationOnGC k v tok c s)
  | OFire id => fire id s
  | OFinalize g => finalize g s
  | OCollect v => collect v s
  | OTick t => tick t s
  end.

Inductive reachable : st -> Prop :=
| reach_new : forall h t0 d m s, new_SmartCache h t0 d m = inr s -> reachable s
| reach_op : forall o s, reachable s -> reachable (run_op o s).

End SmartCache.

(** ** Concrete runs used to evaluate the embedding *)

Module Scenario.
Import SmartCache.

(** A host with [WeakRef] and [FinalizationRegistry]; the clock reads 1000. *)
Definition node_host : host := mkHost true true.

Definition empty_at (h : host) (t0 : Z) (d m : option Z) : st :=
  mkSt [] [] [] d m [] 0 (mkRuntime t0 [] [] [] 0 h).

(** [new SmartCache()] and [new SmartCache({maxSize: 2})]. *)
Definition fresh_plain : st := empty_at node_host 1000 None None.
Definition fresh_max2 : st := empty_at node_host 1000 None (Some 2).

(** [set("A", a); set("B", b); set("C", c)] with [maxSize: 2]. *)
Definition lru_run : st :=
  outcome_state (set (JStr "C") (JObj 3) None
    (outcome_state (set (JStr "B") (JObj 2) None
      (outcome_state (set (JStr "A") (JObj 1) None fresh_max2))))).

(** [set("k", obj, {ttl: 100})] at time 1000. *)
Definition ttl_run : st := outcome_state (set (JStr "k") (JObj 1) (Some 100) fresh_plain).

(** [set("k", obj)] at time 1000, then [updateTtl("k", 0)]. *)
Definition update_zero_run : st * bool :=
  updateTtl (JStr "k") 0 (outcome_state (set (JStr "k") (JObj 1) None fresh_plain)).

(** [set(k, obj)] under the object key [k], on a new instance. *)
Definition object_run : st := outcome_state (set (JObj 5) (JObj 2) None fresh_plain).

(** [set("A", a); set("B", b); get("A"); get("B")] with [maxSize: 2]. *)
Definition ledger_run : st :=
  run_op (OGet (JStr "B")) (run_op (OGet (JStr "A"))
    (run_op (OSet (JStr "B") (JObj 2) None) (run_op (OSet (JStr "A") (JObj 1) None) fresh_max2))).

End Scenario.

(** * The earlier [SmartCache] classes of src/unnamed/part_002

    Two older versions of the class, kept in the same source file: one with
    TTL timers and a [FinalizationRegistry] per entry (lines 32-482), and
    a basic one without TTL or unregister tokens (lines 498-733).  Both keep
    object values behind a [WeakRef] in [#cache] and symbol values in
    [#symbolCache]; the map is chosen by the type of the value, not of the
    key. *)

(** [Map<K, E>] as an association list, for any entry type. *)
Module JsMap.
Import SmartCache.

Fixpoint map_get {E : Type} (k : jsval) (m : list (jsval * E)) : option E :=
  match m with
  | [] => None
  | (k', e) :: m' => if jsval_eqb k k' then Some e else map_get k m'
  end.

Fixpoint map_set {E : Type} (k : jsval) (e : E) (m : list (jsval * E)) : list (jsval * E) :=
  match m with
  | [] => [(k, e)]
  | (k', e') :: m' => if jsval_eqb k k' then (k', e) :: m' else (k', e') :: map_set k e m'
  end.

Definition map_delete {E : Type} (k : jsval) (m : list (jsval * E)) : list (jsval * E) :=
  filter (fun p => negb (jsval_eqb k (fst p))) m.

End JsMap.

(** ** The class with TTL timers (part_002, lines 32-482) *)

Module SmartCacheTtl.
Import SmartCache JsMap.

(** [CacheEntry] and [SymbolCacheEntry]: [target] is the target of
    [weakRef] for an object entry and the stored [value] for a symbol
    entry; [registryId] is [entry.registry]; [unregisterToken] is the
    [Object(Symbol())] made by [set]. *)
Record entry := mkEntry {
  target : jsval;
  registryId : nat;
  timeoutId : option nat;
  expiresAt : option Z;
  unregisterToken : nat
}.

(** A registration [registry.register(value, {key, value}, token)] in the
    registry [regRegistry]; the held value's [value] is the target itself.
    [regCleanup] records that the registry was made with a user cleanup. *)
Record registration := mkReg {
  regRegistry : nat;
  regTarget : jsval;
  regKey : jsval;
  regToken : option token;
  regCleanup : bool
}.

Record runtime := mkRuntime {
  now : Z;                         (* Date.now() *)
  collected : list jsval;          (* targets the collector has reclaimed *)
  timers : list timer;             (* pending timeouts *)
  registry : list registration;    (* live registrations, over all registries *)
  fresh : nat;                     (* next timer id, token or registry *)
  env : host
}.

Record st := mkSt {
  cache : list (jsval * entry);
  symbolCache : list (jsval * entry);
  defaultTtl : option Z;
  rt : runtime
}.

Definition with_cache m s := mkSt m (symbolCache s) (defaultTtl s) (rt s).
Definition with_symbolCache m s := mkSt (cache s) m (defaultTtl s) (rt s).
Definition with_rt r s := mkSt (cache s) (symbolCache s) (defaultTtl s) r.

Definition with_now t r :=
  mkRuntime t (collected r) (timers r) (registry r) (fresh r) (env r).
Definition with_collected c r :=
  mkRuntime (now r) c (timers r) (registry r) (fresh r) (env r).
Definition with_timers ts r :=
  mkRuntime (now r) (collected r) ts (registry r) (fresh r) (env r).
Definition with_registry rs r :=
  mkRuntime (now r) (collected r) (timers r) rs (fresh r) (env r).
Definition with_fresh n r :=
  mkRuntime (now r) (collected r) (timers r) (registry r) n (env r).

Inductive outcome (A : Type) :=
| Ok (s : st) (a : A)
| Throw (e : jserror) (s : st).
Arguments Ok {A} s a.
Arguments Throw {A} e s.

Definition outcome_state {A} (o : outcome A) : st :=
  match o with Ok s _ => s | Throw _ s => s end.

(** ** Host primitives *)

(** [#isExpired]: [expiresAt !== undefined && Date.now() > expiresAt]. *)
Definition isExpired (s : st) (e : option Z) : bool :=
  match e with Some z => Z.ltb z (now (rt s)) | None => false end.

(** [weakRef.deref()]. *)
Definition deref (s : st) (t : jsval) : jsval :=
  if existsb (jsval_eqb t) (collected (rt s)) then JUndefined else t.

Definition clearTimeout (o : option nat) (s : st) : st :=
  match o with
  | Some id => with_rt (with_timers (filter (fun t => negb (Nat.eqb (timerId t) id)) (timers (rt s))) (rt s)) s
  | None => s
  end.

(** [#createTtlTimeout(key, ttl)]: returns the new timer's id. *)
Definition createTtlTimeout (k : jsval) (ttl : Z) (s : st) : st * nat :=
  let r := rt s in
  let id := fresh r in
  (with_rt (with_fresh (S id) (with_timers (timers r ++ [mkTimer id k ttl (now r)]) r)) s, id).

(** [Object(Symbol())]: a fresh unregister token. *)
Definition freshToken (s : st) : st * nat :=
  let r := rt s in (with_rt (with_fresh (S (fresh r)) r) s, fresh r).

(** [#createFinalizationRegistry(cleanup)]: [new FinalizationRegistry(...)],
    a [ReferenceError] on a host without it. *)
Definition createFinalizationRegistry (s : st) : outcome nat :=
  if negb (hasFinalizationRegistry (env (rt s))) then Throw ReferenceError s
  else let r := rt s in Ok (with_rt (with_fresh (S (fresh r)) r) s) (fresh r).

Definition is_token (o : option token) (tok : nat) : bool :=
  match o with Some (CacheToken n) => Nat.eqb n tok | _ => false end.

(** [#unregisterRegistry(registry, token)]: [registry.unregister(token)];
    a token made by [Object(Symbol())] is always accepted. *)
Definition unregisterRegistry (reg tok : nat) (s : st) : st :=
  with_rt (with_registry
    (filter (fun g => negb (Nat.eqb (regRegistry g) reg && is_token (regToken g) tok))
       (registry (rt s))) (rt s)) s.

(** [registry.register(target, {key, value}, token)]. *)
Definition register (reg : nat) (cleanup : bool) (t k : jsval) (tok : option token) (s : st)
  : outcome unit :=
  if negb (can_be_held_weakly t) then Throw TypeError s
  else Ok (with_rt (with_registry (registry (rt s) ++ [mkReg reg t k tok cleanup]) (rt s)) s) tt.

(** [new WeakRef(value)]. *)
Definition newWeakRef (v : jsval) (s : st) : outcome unit :=
  if negb (hasWeakRef (env (rt s))) then Throw ReferenceError s
  else if negb (can_be_held_weakly v) then Throw TypeError s
  else Ok s tt.

(** ** Private helpers *)

Definition validateInputs (k v : jsval) : option jserror :=
  if is_nullish k then Some ValidationError
  else if is_nullish v then Some ValidationError
  else match typeof v with
       | TObject | TSymbol => None
       | _ => Some ValidationError
       end.

(** [#deleteEntry]: the token is an object, so [if (entry.unregisterToken)]
    always holds. *)
Definition deleteEntry (k : jsval) (e : entry) (s : st) : st :=
  let s := clearTimeout (timeoutId e) s in
  let s := unregisterRegistry (registryId e) (unregisterToken e) s in
  with_cache (map_delete k (cache s)) s.

Definition deleteSymbolEntry (k : jsval) (e : entry) (s : st) : st :=
  let s := clearTimeout (timeoutId e) s in
  let s := unregisterRegistry (registryId e) (unregisterToken e) s in
  with_symbolCache (map_delete k (symbolCache s)) s.

Definition cleanupExistingEntry (k : jsval) (s : st) : st :=
  let oe := map_get k (cache s) in
  let se := map_get k (symbolCache s) in
  let s := match oe with Some e => deleteEntry k e s | None => s end in
  match se with Some e => deleteSymbolEntry k e s | None => s end.

(** [ttl ? this.#createTtlTimeout(key, ttl) : undefined]. *)
Definition armTimer (k : jsval) (ttl : option Z) (s : st) : st * option nat :=
  match ttl with
  | Some t => if negb (Z.eqb t 0) then let '(s, id) := createTtlTimeout k t s in (s, Some id)
              else (s, None)
  | None => (s, None)
  end.

(** [ttl ? Date.now() + ttl : undefined]. *)
Definition expiryOf (ttl : option Z) (s : st) : option Z :=
  match ttl with
  | Some t => if negb (Z.eqb t 0) then Some (now (rt s) + t) else None
  | None => None
  end.

(** ** Public methods *)

(** [set(key, value, {ttl})]: [ttlOpt] is [options?.ttl]. *)
Definition set (k v : jsval) (ttlOpt : option Z) (s : st) : outcome unit :=
  match validateInputs k v with
  | Some err => Throw err s
  | None =>
    let s := cleanupExistingEntry k s in
    let ttl := match ttlOpt with Some t => Some t | None => defaultTtl s end in
    let expires := expiryOf ttl s in
    let '(s, tok) := freshToken s in
    match typeof v with
    | TSymbol =>
        match createFinalizationRegistry s with
        | Throw e s => Throw e s
        | Ok s reg =>
            let '(s, tid) := armTimer k ttl s in
            let s := with_symbolCache (map_set k (mkEntry v reg tid expires tok) (symbolCache s)) s in
            register reg false v k (Some (CacheToken tok)) s
        end
    | _ =>
        match createFinalizationRegistry s with
        | Throw e s => Throw e s
        | Ok s reg =>
            match newWeakRef v s with
            | Throw e s => Throw e s
            | Ok s _ =>
                let '(s, tid) := armTimer k ttl s in
                let s := with_cache (map_set k (mkEntry v reg tid expires tok) (cache s)) s in
                register reg false v k (Some (CacheToken tok)) s
            end
        end
    end
  end.

(** [getNotificationOnGC({key, value, unregisterToken, cleanup})]. *)
Definition getNotificationOnGC (k v tok : jsval) (hasCleanup : bool) (s : st) : outcome unit :=
  match validateInputs k v with
  | Some err => Throw err s
  | None =>
    match createFinalizationRegistry s with
    | Throw e s => Throw e s
    | Ok s reg =>
        match tok with
        | JUndefined => register reg hasCleanup v k None s
        | _ => if can_be_held_weakly tok then register reg hasCleanup v k (Some (UserToken tok)) s
               else Throw TypeError s
        end
    end
  end.

(** [get(key)]: [JNull] is the [null] result.  An expired object entry is
    deleted, and its target is still returned when it is alive. *)
Definition get (k : jsval) (s : st) : st * jsval :=
  match map_get k (cache s) with
  | Some e =>
      let s := if isExpired s (expiresAt e) then deleteEntry k e s else s in
      let d := deref s (target e) in
      if jsval_eqb d JUndefined then (deleteEntry k e s, JNull) else (s, d)
  | None =>
      match map_get k (symbolCache s) with
      | Some e => if isExpired s (expiresAt e) then (deleteSymbolEntry k e s, JNull)
                  else (s, target e)
      | None => (s, JNull)
      end
  end.

Definition delete (k : jsval) (s : st) : st * bool :=
  let '(s, deleted) := match map_get k (cache s) with
                       | Some e => (deleteEntry k e s, true)
                       | None => (s, false)
                       end in
  match map_get k (symbolCache s) with
  | Some e => (deleteSymbolEntry k e s, true)
  | None => (s, deleted)
  end.

(** [has(key)]: purges an expired or dead entry. *)
Definition has (k : jsval) (s : st) : st * bool :=
  match map_get k (cache s) with
  | Some e =>
      if isExpired s (expiresAt e) then (deleteEntry k e s, false)
      else if negb (jsval_eqb (deref s (target e)) JUndefined) then (s, true)
      else (deleteEntry k e s, false)
  | None =>
      match map_get k (symbolCache s) with
      | Some e => if isExpired s (expiresAt e) then (deleteSymbolEntry k e s, false) else (s, true)
      | None => (s, false)
      end
  end.

(** The [for (const [key, entry] of map)] loops of [keys]: the keys judged
    alive, and the [deadKeys], in map order. *)
Fixpoint sweep (alive : entry -> bool) (m : list (jsval * entry)) : list jsval * list jsval :=
  match m with
  | [] => ([], [])
  | (k, e) :: m' =>
      let '(l, d) := sweep alive m' in
      if alive e then (k :: l, d) else (l, k :: d)
  end.

(** The same loops in [size]: [aliveCount] and the [deadKeys]. *)
Fixpoint sweep_count (alive : entry -> bool) (m : list (jsval * entry)) : nat * list jsval :=
  match m with
  | [] => (O, [])
  | (k, e) :: m' =>
      let '(n, d) := sweep_count alive m' in
      if alive e then (S n, d) else (n, k :: d)
  end.

Definition alive_object (s : st) (e : entry) : bool :=
  negb (isExpired s (expiresAt e)) && negb (jsval_eqb (deref s (target e)) JUndefined).

Definition alive_symbol (s : st) (e : entry) : bool :=
  negb (isExpired s (expiresAt e)).

(** [deadKeys.forEach(key => this.delete(key))]. *)
Definition deleteAll (ks : list jsval) (s : st) : st :=
  fold_left (fun s k => fst (delete k s)) ks s.

Definition size (s : st) : st * Z :=
  let '(n1, d1) := sweep_count (alive_object s) (cache s) in
  let '(n2, d2) := sweep_count (alive_symbol s) (symbolCache s) in
  (deleteAll (d1 ++ d2) s, Z.of_nat (n1 + n2)).

Definition keys (s : st) : st * list jsval :=
  let '(l1, d1) := sweep (alive_object s) (cache s) in
  let '(l2, d2) := sweep (alive_symbol s) (symbolCache s) in
  (deleteAll (d1 ++ d2) s, l1 ++ l2).

(** One iteration of the loops of [clear]. *)
Definition dropEntry (s : st) (p : jsval * entry) : st :=
  let e := snd p in
  unregisterRegistry (registryId e) (unregisterToken e) (clearTimeout (timeoutId e) s).

Definition clear (s : st) : st :=
  let s := fold_left dropEntry (cache s) s in
  let s := fold_left dropEntry (symbolCache s) s in
  with_symbolCache [] (with_cache [] s).

(** [getTtl(key)]: [entry.expiresAt] is tested for truthiness. *)
Definition getTtl (k : jsval) (s : st) : option (Z * Z) :=
  let entry := match map_get k (cache s) with
               | Some e => Some e
               | None => map_get k (symbolCache s)
               end in
  match entry with
  | Some e =>
      match expiresAt e with
      | Some x => if Z.eqb x 0 then None else Some (Z.max 0 (x - now (rt s)), x)
      | None => None
      end
  | None => None
  end.

(** [updateTtl(key, ttl)]: the entry is updated in place in its map. *)
Definition updateTtl (k : jsval) (ttl : Z) (s : st) : st * bool :=
  let renew (e : entry) (s : st) : st * entry :=
    let s := clearTimeout (timeoutId e) s in
    let '(s, id) := createTtlTimeout k ttl s in
    (s, mkEntry (target e) (registryId e) (Some id) (Some (now (rt s) + ttl)) (unregisterToken e)) in
  match map_get k (cache s), map_get k (symbolCache s) with
  | None, None => (s, false)
  | Some e, _ => let '(s, e') := renew e s in (with_cache (map_set k e' (cache s)) s, true)
  | None, Some e => let '(s, e') := renew e s in (with_symbolCache (map_set k e' (symbolCache s)) s, true)
  end.

Definition new_SmartCache (h : host) (t0 : Z) (defTtl : option Z) : jserror + st :=
  if negb (hasFinalizationRegistry h) then inl ConfigurationError
  else inr (mkSt [] [] defTtl (mkRuntime t0 [] [] [] 0 h)).

(** ** Asynchronous events *)

(** A pending timer fires and runs the callback of [#createTtlTimeout]. *)
Definition fire (id : nat) (s : st) : st :=
  match find (fun t => Nat.eqb (timerId t) id) (timers (rt s)) with
  | Some t =>
      let s := with_rt (with_timers (filter (fun t => negb (Nat.eqb (timerId t) id))
                                             (timers (rt s))) (rt s)) s in
      let k := timerKey t in
      match map_get k (cache s) with
      | Some e => deleteEntry k e (unregisterRegistry (registryId e) (unregisterToken e) s)
      | None =>
          match map_get k (symbolCache s) with
          | Some e => deleteSymbolEntry k e (unregisterRegistry (registryId e) (unregisterToken e) s)
          | None => s
          end
      end
  | None => s
  end.

Definition registration_eqb (a b : registration) : bool :=
  Nat.eqb (regRegistry a) (regRegistry b)
  && jsval_eqb (regTarget a) (regTarget b) && jsval_eqb (regKey a) (regKey b)
  && match regToken a, regToken b with
     | Some x, Some y => token_eqb x y
     | None, None => true
     | _, _ => false
     end
  && Bool.eqb (regCleanup a) (regCleanup b).

(** The callback of [#createFinalizationRegistry], allowed to run once
    the registration's target has been collected.  The step
    over-approximates V8: every held value [{key, value}] contains its
    target and the registry holds it strongly, so on V8 the callback does
    not run while the registry lives, nor after the registry is dropped;
    what is proved for every reachable state holds for this larger set of
    runs.  The user cleanup it then calls is arbitrary code; its calls on
    the instance are the later operations of a run. *)
Definition finalize (g : registration) (s : st) : st :=
  if existsb (registration_eqb g) (registry (rt s))
     && existsb (jsval_eqb (regTarget g)) (collected (rt s)) then
    let s := with_rt (with_registry (filter (fun g' => negb (registration_eqb g g'))
                                            (registry (rt s))) (rt s)) s in
    let k := regKey g in
    match typeof (regTarget g) with
    | TSymbol =>
        match map_get k (symbolCache s) with
        | Some e => deleteSymbolEntry k e s
        | None => s
        end
    | _ =>
        match map_get k (cache s) with
        | Some e => if jsval_eqb (deref s (target e)) JUndefined then deleteEntry k e s else s
        | None => s
        end
    end
  else s.

Definition collect (v : jsval) (s : st) : st :=
  with_rt (with_collected (collected (rt s) ++ [v]) (rt s)) s.

Definition tick (t : Z) (s : st) : st :=
  with_rt (with_now (Z.max (now (rt s)) t) (rt s)) s.

(** ** Reachable states *)

Inductive op :=
| OSet (k v : jsval) (ttl : option Z)
| OGet (k : jsval)
| OHas (k : jsval)
| ODelete (k : jsval)
| OClear
| OKeys
| OSize
| OGetTtl (k : jsval)
| OUpdateTtl (k : jsval) (ttl : Z)
| ONotify (k v tok : jsval) (hasCleanup : bool)
| OFire (id : nat)
| OFinalize (g : registration)
| OCollect (v : jsval)
| OTick (t : Z).

Definition run_op (o : op) (s : st) : st :=
  match o with
  | OSet k v ttl => outcome_state (set k v ttl s)
  | OGet k => fst (get k s)
  | OHas k => fst (has k s)
  | ODelete k => fst (delete k s)
  | OClear => clear s
  | OKeys => fst (keys s)
  | OSize => fst (size s)
  | OGetTtl _ => s
  | OUpdateTtl k t => fst (updateTtl k t s)
  | ONotify k v tok c => outcome_state (getNotificationOnGC k v tok c s)
  | OFire id => fire id s
  | OFinalize g => finalize g s
  | OCollect v => collect v s
  | OTick t => tick t s
  end.

Inductive reachable : st -> Prop :=
| reach_new : forall h t0 d s, new_SmartCache h t0 d = inr s -> reachable s
| reach_op : forall o s, reachable s -> reachable (run_op o s).

End SmartCacheTtl.

(** ** The basic class (part_002, lines 498-733) *)

Module SmartCacheBasic.
Import SmartCache JsMap.

(** [CacheEntry] and the symbol entry: [target] is the target of
    [weakRef], or the stored symbol; [registryId] is [entry.registry]. *)
Record entry := mkEntry {
  target : jsval;
  registryId : nat
}.

Record registration := mkReg {
  regRegistry : nat;
  regTarget : jsval;
  regKey : jsval;
  regToken : option token;
  regCleanup : bool
}.

(** The class has no constructor: the host's primitives are looked up on
    use. *)
Record runtime := mkRuntime {
  collected : list jsval;
  registry : list registration;
  fresh : nat;
  env : host
}.

Record st := mkSt {
  cache : list (jsval * entry);
  symbolCache : list (jsval * entry);
  rt : runtime
}.

Definition with_cache m s := mkSt m (symbolCache s) (rt s).
Definition with_symbolCache m s := mkSt (cache s) m (rt s).
Definition with_rt r s := mkSt (cache s) (symbolCache s) r.

Definition with_collected c r := mkRuntime c (registry r) (fresh r) (env r).
Definition with_registry rs r := mkRuntime (collected r) rs (fresh r) (env r).
Definition with_fresh n r := mkRuntime (collected r) (registry r) n (env r).

Inductive outcome (A : Type) :=
| Ok (s : st) (a : A)
| Throw (e : jserror) (s : st).
Arguments Ok {A} s a.
Arguments Throw {A} e s.

Definition outcome_state {A} (o : outcome A) : st :=
  match o with Ok s _ => s | Throw _ s => s end.

Definition deref (s : st) (t : jsval) : jsval :=
  if existsb (jsval_eqb t) (collected (rt s)) then JUndefined else t.

Definition createFinalizationRegistry (s : st) : outcome nat :=
  if negb (hasFinalizationRegistry (env (rt s))) then Throw ReferenceError s
  else let r := rt s in Ok (with_rt (with_fresh (S (fresh r)) r) s) (fresh r).

Definition register (reg : nat) (cleanup : bool) (t k : jsval) (tok : option token) (s : st)
  : outcome unit :=
  if negb (can_be_held_weakly t) then Throw TypeError s
  else Ok (with_rt (with_registry (registry (rt s) ++ [mkReg reg t k tok cleanup]) (rt s)) s) tt.

Definition newWeakRef (v : jsval) (s : st) : outcome unit :=
  if negb (hasWeakRef (env (rt s))) then Throw ReferenceError s
  else if negb (can_be_held_weakly v) then Throw TypeError s
  else Ok s tt.

Definition validateInputs (k v : jsval) : option jserror :=
  if is_nullish k then Some ValidationError
  else if is_nullish v then Some ValidationError
  else match typeof v with
       | TObject | TSymbol => None
       | _ => Some ValidationError
       end.

Definition cleanupExistingEntry (k : jsval) (s : st) : st :=
  with_symbolCache (map_delete k (symbolCache s)) (with_cache (map_delete k (cache s)) s).

(** [set(key, value)]: the registration carries no unregister token. *)
Definition set (k v : jsval) (s : st) : outcome unit :=
  match validateInputs k v with
  | Some err => Throw err s
  | None =>
    let s := cleanupExistingEntry k s in
    match typeof v with
    | TSymbol =>
        match createFinalizationRegistry s with
        | Throw e s => Throw e s
        | Ok s reg =>
            let s := with_symbolCache (map_set k (mkEntry v reg) (symbolCache s)) s in
            register reg false v k None s
        end
    | _ =>
        match createFinalizationRegistry s with
        | Throw e s => Throw e s
        | Ok s reg =>
            match newWeakRef v s with
            | Throw e s => Throw e s
            | Ok s _ =>
                let s := with_cache (map_set k (mkEntry v reg) (cache s)) s in
                register reg false v k None s
            end
        end
    end
  end.

Definition getNotificationOnGC (k v tok : jsval) (hasCleanup : bool) (s : st) : outcome unit :=
  match validateInputs k v with
  | Some err => Throw err s
  | None =>
    match createFinalizationRegistry s with
    | Throw e s => Throw e s
    | Ok s reg =>
        match tok with
        | JUndefined => register reg hasCleanup v k None s
        | _ => if can_be_held_weakly tok then register reg hasCleanup v k (Some (UserToken tok)) s
               else Throw TypeError s
        end
    end
  end.

Definition get (k : jsval) (s : st) : st * jsval :=
  match map_get k (cache s) with
  | Some e =>
      let d := deref s (target e) in
      if jsval_eqb d JUndefined then (with_cache (map_delete k (cache s)) s, JNull) else (s, d)
  | None =>
      match map_get k (symbolCache s) with
      | Some e => (s, target e)
      | None => (s, JNull)
      end
  end.

Definition delete (k : jsval) (s : st) : st * bool :=
  let '(s, deleted) := match map_get k (cache s) with
                       | Some _ => (with_cache (map_delete k (cache s)) s, true)
                       | None => (s, false)
                       end in
  match map_get k (symbolCache s) with
  | Some _ => (with_symbolCache (map_delete k (symbolCache s)) s, true)
  | None => (s, deleted)
  end.

Definition has (k : jsval) (s : st) : st * bool :=
  match map_get k (cache s) with
  | Some e =>
      if negb (jsval_eqb (deref s (target e)) JUndefined) then (s, true)
      else (with_cache (map_delete k (cache s)) s, false)
  | None =>
      match map_get k (symbolCache s) with
      | Some _ => (s, true)
      | None => (s, false)
      end
  end.

Definition alive (s : st) (e : entry) : bool :=
  negb (jsval_eqb (deref s (target e)) JUndefined).

(** The loop of [keys] over [#cache]: alive keys and [deadKeys]. *)
Fixpoint sweep (s : st) (m : list (jsval * entry)) : list jsval * list jsval :=
  match m with
  | [] => ([], [])
  | (k, e) :: m' =>
      let '(l, d) := sweep s m' in
      if alive s e then (k :: l, d) else (l, k :: d)
  end.

(** The loop of [size] over [#cache]: [aliveCount] and [deadKeys]. *)
Fixpoint sweep_count (s : st) (m : list (jsval * entry)) : nat * list jsval :=
  match m with
  | [] => (O, [])
  | (k, e) :: m' =>
      let '(n, d) := sweep_count s m' in
      if alive s e then (S n, d) else (n, k :: d)
  end.

(** [deadKeys.forEach(key => this.#cache.delete(key))]. *)
Definition deleteAll (ks : list jsval) (s : st) : st :=
  fold_left (fun s k => with_cache (map_delete k (cache s)) s) ks s.

(** [size]: the alive object entries plus [this.#symbolCache.size]. *)
Definition size (s : st) : st * Z :=
  let '(n, d) := sweep_count s (cache s) in
  let s' := deleteAll d s in
  (s', Z.of_nat (n + List.length (symbolCache s'))).

Definition keys (s : st) : st * list jsval :=
  let '(l, d) := sweep s (cache s) in
  let s' := deleteAll d s in
  (s', l ++ map fst (symbolCache s')).

Definition clear (s : st) : st := with_symbolCache [] (with_cache [] s).

Definition registration_eqb (a b : registration) : bool :=
  Nat.eqb (regRegistry a) (regRegistry b)
  && jsval_eqb (regTarget a) (regTarget b) && jsval_eqb (regKey a) (regKey b)
  && match regToken a, regToken b with
     | Some x, Some y => token_eqb x y
     | None, None => true
     | _, _ => false
     end
  && Bool.eqb (regCleanup a) (regCleanup b).

(** The registry callback, allowed to run once the registration's target
    has been collected: a symbol value's key is removed from [#symbolCache]
    unconditionally; an object key only when its entry's target is gone.
    As in the TTL class this over-approximates V8, where the held value
    [{key, value}] keeps the target alive while its registry lives. *)
Definition finalize (g : registration) (s : st) : st :=
  if existsb (registration_eqb g) (registry (rt s))
     && existsb (jsval_eqb (regTarget g)) (collected (rt s)) then
    let s := with_rt (with_registry (filter (fun g' => negb (registration_eqb g g'))
                                            (registry (rt s))) (rt s)) s in
    let k := regKey g in
    match typeof (regTarget g) with
    | TSymbol => with_symbolCache (map_delete k (symbolCache s)) s
    | _ =>
        match map_get k (cache s) with
        | Some e => if jsval_eqb (deref s (target e)) JUndefined
                    then with_cache (map_delete k (cache s)) s else s
        | None => s
        end
    end
  else s.

Definition collect (v : jsval) (s : st) : st :=
  with_rt (with_collected (collected (rt s) ++ [v]) (rt s)) s.

End SmartCacheBasic.

Import SmartCache.
Import Scenario.

(** * Facts about the embedding *)

Ltac unfold_setters :=
  unfold with_stringCache, with_cache, with_symbolCache, with_lru, with_currentSize,
    with_rt, with_now, with_collected, with_timers, with_registry, with_fresh in *.

Lemma jsval_eqb_eq : forall a b, jsval_eqb a b = true <-> a = b.
Proof.
  intros x y; destruct x, y; cbn [jsval_eqb]; try (split; congruence);
    [ rewrite Bool.eqb_true_iff | rewrite Z.eqb_eq | rewrite String.eqb_eq
    | rewrite Nat.eqb_eq | rewrite Nat.eqb_eq | rewrite Nat.eqb_eq ];
    split; congruence.
Qed.

Lemma jsval_eqb_refl : forall a, jsval_eqb a a = true.
Proof. intro a. apply jsval_eqb_eq. reflexivity. Qed.

Lemma jsval_eqb_neq : forall a b, jsval_eqb a b = false <-> a <> b.
Proof.
  intros a b. split.
  - intros H E. apply jsval_eqb_eq in E. congruence.
  - intro H. destruct (jsval_eqb a b) eqn:E; [apply jsval_eqb_eq in E; congruence | reflexivity].
Qed.

(** ** Association lists *)

Lemma map_get_Some_In : forall k m e, map_get k m = Some e -> In (k, e) m.
Proof.
  induction m as [|[k' e'] m IH]; simpl; intros e H; [discriminate|].
  destruct (jsval_eqb k k') eqn:E.
  - apply jsval_eqb_eq in E. subst. left. congruence.
  - right. auto.
Qed.

Lemma map_get_None_iff : forall k m, map_get k m = None <-> ~ In k (map fst m).
Proof.
  induction m as [|[k' e'] m IH]; simpl; [tauto|].
  destruct (jsval_eqb k k') eqn:E.
  - apply jsval_eqb_eq in E. subst. split; [discriminate | intro H; exfalso; auto].
  - apply jsval_eqb_neq in E. rewrite IH. split; intros H1 H2; [destruct H2; [congruence|auto] | auto].
Qed.

Lemma map_get_In_key : forall k m, In k (map fst m) -> exists e, map_get k m = Some e.
Proof.
  intros k m H. destruct (map_get k m) eqn:E; [eauto|].
  apply map_get_None_iff in E. contradiction.
Qed.

Lemma map_get_set_same : forall k e m, map_get k (map_set k e m) = Some e.
Proof.
  induction m as [|[k' e'] m IH]; simpl.
  - rewrite jsval_eqb_refl. reflexivity.
  - destruct (jsval_eqb k k') eqn:E; simpl; rewrite E; auto.
Qed.

Lemma map_get_delete_same : forall k m, map_get k (map_delete k m) = None.
Proof.
  induction m as [|[k' e'] m IH]; simpl; [reflexivity|].
  destruct (jsval_eqb k k') eqn:E; simpl; [exact IH|]. rewrite E. exact IH.
Qed.

Lemma keys_map_set_in : forall k e m,
  In k (map fst m) -> map fst (map_set k e m) = map fst m.
Proof.
  induction m as [|[k' e'] m IH]; simpl; intro H; [contradiction|].
  destruct (jsval_eqb k k') eqn:E; simpl; [reflexivity|].
  apply jsval_eqb_neq in E. f_equal. apply IH. destruct H; [congruence|assumption].
Qed.

Lemma keys_map_set_notin : forall k e m,
  ~ In k (map fst m) -> map fst (map_set k e m) = map fst m ++ [k].
Proof.
  induction m as [|[k' e'] m IH]; simpl; intro H; [reflexivity|].
  destruct (jsval_eqb k k') eqn:E.
  - apply jsval_eqb_eq in E. exfalso. auto.
  - simpl. f_equal. apply IH. auto.
Qed.

Lemma map_delete_incl : forall k m, incl (map_delete k m) m.
Proof. intros k m x Hx. unfold map_delete in Hx. apply filter_In in Hx. tauto. Qed.

Lemma NoDup_map_filter : forall (A B : Type) (f : A -> B) (p : A -> bool) l,
  NoDup (map f l) -> NoDup (map f (filter p l)).
Proof.
  induction l as [|a l IH]; simpl; intro H; [constructor|].
  inversion H as [|? ? Hnot Hnd]; subst.
  destruct (p a); simpl; [|auto].
  constructor; [|auto].
  intro Hin. apply Hnot. apply in_map_iff in Hin as [x [Hx Hin]].
  apply filter_In in Hin. apply in_map_iff. exists x. tauto.
Qed.

(** ** Well-formed instances: each [Map] has distinct keys, all of the
    category [#getEntry] sends to it. *)

Definition wf_map (c : keyType) (m : list (jsval * entry)) : Prop :=
  NoDup (map fst m) /\ Forall (fun k => classify k = c) (map fst m).

Definition wf (s : st) : Prop :=
  wf_map KString (stringCache s) /\ wf_map KSymbol (symbolCache s) /\ wf_map KObject (cache s).

Lemma wf_map_set : forall c k e m, wf_map c m -> classify k = c -> wf_map c (map_set k e m).
Proof.
  intros c k e m [Hnd Hf] Hc. unfold wf_map.
  destruct (in_dec jsval_eq_dec k (map fst m)) as [Hin|Hin].
  - rewrite keys_map_set_in by exact Hin. split; assumption.
  - rewrite keys_map_set_notin by exact Hin. split.
    + apply NoDup_app; [assumption | repeat constructor; simpl; tauto |].
      intros x Hx Hy. destruct Hy as [<-|[]]. contradiction.
    + apply Forall_app. split; [assumption | repeat constructor; assumption].
Qed.

Lemma wf_map_delete : forall c k m, wf_map c m -> wf_map c (map_delete k m).
Proof.
  intros c k m [Hnd Hf]. split.
  - apply NoDup_map_filter. exact Hnd.
  - rewrite Forall_forall in *. intros x Hx. apply Hf.
    apply in_map_iff in Hx as [p [<- Hp]]. apply in_map. apply (map_delete_incl k m). exact Hp.
Qed.

Lemma wf_map_nil : forall c, wf_map c [].
Proof. intro c. split; constructor. Qed.

Lemma wf_map_class : forall c m k e, wf_map c m -> In (k, e) m -> classify k = c.
Proof.
  intros c m k e [_ Hf] Hin. rewrite Forall_forall in Hf. apply Hf.
  apply (in_map fst) in Hin. exact Hin.
Qed.

(** ** Operations that leave the three maps alone *)

Definition same_maps (s s' : st) : Prop :=
  stringCache s' = stringCache s /\ cache s' = cache s /\ symbolCache s' = symbolCache s.

Lemma same_maps_refl : forall s, same_maps s s.
Proof. intro s. repeat split. Qed.

Lemma same_maps_trans : forall s1 s2 s3, same_maps s1 s2 -> same_maps s2 s3 -> same_maps s1 s3.
Proof. unfold same_maps. intros s1 s2 s3 (A & B & C) (D & E & F). repeat split; congruence. Qed.

Lemma wf_same_maps : forall s s', same_maps s s' -> wf s -> wf s'.
Proof. unfold same_maps, wf. intros s s' (A & B & C). rewrite A, B, C. tauto. Qed.

Lemma clearTimeout_maps : forall o s, same_maps s (clearTimeout o s).
Proof. intros [id|] s; unfold clearTimeout; unfold_setters; repeat split. Qed.

Lemma unregister_opt_maps : forall o s, same_maps s (unregister_opt o s).
Proof. intros [t|] s; unfold unregister_opt, unregister; unfold_setters; repeat split. Qed.

Lemma updateLRU_maps : forall k s, same_maps s (updateLRU k s).
Proof. intros k s. unfold updateLRU. destruct (lru_has k s); unfold_setters; repeat split. Qed.

Lemma armTimer_maps : forall k ttl s, same_maps s (fst (armTimer k ttl s)).
Proof.
  intros k [t|] s; unfold armTimer; [destruct (negb (t =? 0))|]; unfold createTtlTimeout;
    unfold_setters; repeat split.
Qed.

Lemma freshToken_maps : forall s, same_maps s (fst (freshToken s)).
Proof. intro s. unfold freshToken. unfold_setters. repeat split. Qed.

Lemma register_maps : forall b t k tok s,
  same_maps s (outcome_state (register b t k tok s)).
Proof.
  intros. unfold register. destruct (negb (can_be_held_weakly t)); unfold_setters; repeat split.
Qed.

(** [delete] removes the key from at most the maps, and keeps the clock
    and the collector's view. *)
Lemma delete_shape : forall k s,
  let s' := fst (delete k s) in
  (stringCache s' = stringCache s \/ stringCache s' = map_delete k (stringCache s)) /\
  (cache s' = cache s \/ cache s' = map_delete k (cache s)) /\
  (symbolCache s' = symbolCache s \/ symbolCache s' = map_delete k (symbolCache s)) /\
  now (rt s') = now (rt s) /\ collected (rt s') = collected (rt s).
Proof.
  intros k s. unfold delete.
  destruct (lru_has k s); destruct (classify k); unfold_setters; simpl;
    match goal with |- context [map_get ?a ?b] => destruct (map_get a b) end; simpl;
    unfold deleteStringEntry, deleteSymbolEntry, deleteEntry, clearTimeout,
      unregister_opt, unregister; unfold_setters; simpl;
    repeat match goal with
           | |- context [timeoutId ?e] => destruct (timeoutId e)
           | |- context [unregisterToken ?e] => destruct (unregisterToken e)
           end; simpl;
    repeat split; first [left; reflexivity | right; reflexivity | reflexivity].
Qed.

Lemma wf_delete : forall k s, wf s -> wf (fst (delete k s)).
Proof.
  intros k s (H1 & H2 & H3). destruct (delete_shape k s) as (A & B & C & _).
  unfold wf. split; [|split].
  - destruct A as [A|A]; rewrite A; [exact H1 | apply wf_map_delete; exact H1].
  - destruct C as [C|C]; rewrite C; [exact H2 | apply wf_map_delete; exact H2].
  - destruct B as [B|B]; rewrite B; [exact H3 | apply wf_map_delete; exact H3].
Qed.
Lemma evictLRU_wf : forall s, wf s -> wf (evictLRU s).
Proof. intros s H. unfold evictLRU. destruct (lru s); [exact H | apply wf_delete; exact H]. Qed.

Lemma getEntry_kt : forall k s, snd (getEntry k s) = classify k.
Proof. intros k s. unfold getEntry. destruct (classify k); reflexivity. Qed.

Lemma bump_maps : forall (o : outcome unit),
  same_maps (outcome_state o)
    (outcome_state (match o with
                    | Throw e s0 => Throw e s0
                    | Ok s0 _ => Ok (with_currentSize (currentSize s0 + 1) s0) tt
                    end)).
Proof. intros [s0 []|e s0]; repeat split. Qed.

Lemma wf_set : forall k v ttl s, wf s -> wf (outcome_state (set k v ttl s)).
Proof.
  intros k v ttl s Hwf. unfold set.
  destruct (validateInputs k v); [exact Hwf|].
  destruct (getEntry k s) as [ex kt] eqn:G.
  assert (Hkt : kt = classify k) by (rewrite <- (getEntry_kt k s), G; reflexivity).
  set (s1 := match ex with Some _ => updateLRU k (fst (delete k s)) | None => s end).
  assert (H1 : wf s1).
  { subst s1. destruct ex; [|exact Hwf].
    apply (wf_same_maps _ _ (updateLRU_maps _ _)). apply wf_delete. exact Hwf. }
  set (s2 := if num_truthy (maxSize s1) && _ then evictLRU s1 else s1).
  assert (H2 : wf s2).
  { subst s2. destruct (_ && _); [apply evictLRU_wf|]; exact H1. }
  clearbody s1 s2.
  set (T := match ttl with Some t => Some t | None => defaultTtl s2 end). clearbody T.
  destruct (armTimer k T s2) as [s3 tid] eqn:A.
  assert (H3 : wf s3).
  { apply (wf_same_maps s2); [|exact H2]. pose proof (armTimer_maps k T s2) as M.
    rewrite A in M. exact M. }
  destruct (freshToken s3) as [s4 tok] eqn:F.
  assert (H4 : wf s4).
  { apply (wf_same_maps s3); [|exact H3]. pose proof (freshToken_maps s3) as M.
    rewrite F in M. exact M. }
  destruct kt.
  - cbn [outcome_state]. destruct H3 as (a & b & c). unfold wf; unfold_setters; cbn.
    split; [apply wf_map_set; auto | auto].
  - match goal with
    | |- context [with_symbolCache ?m s4] => set (s5 := with_symbolCache m s4)
    end.
    assert (H5 : wf s5).
    { destruct H4 as (a & b & c). unfold wf, s5; unfold_setters; cbn.
      split; [auto | split; [apply wf_map_set; auto | auto]]. }
    clearbody s5.
    match goal with
    | |- context [match ?x with Ok _ _ => _ | Throw _ _ => _ end] => set (o := x)
    end.
    assert (Ho : same_maps s5 (outcome_state o)).
    { subst o. destruct (_ && _); [apply register_maps | apply same_maps_refl]. }
    clearbody o.
    apply (wf_same_maps (outcome_state o)); [apply bump_maps|].
    apply (wf_same_maps s5); assumption.
  - destruct (negb (isArray v) && negb (jsval_eqb v JNull)); [|exact H2].
    unfold newWeakRef.
    destruct (negb (hasWeakRef (env (rt s2)))); [exact H2|].
    destruct (negb (can_be_held_weakly v)); [exact H2|].
    cbn iota. rewrite A, F.
    match goal with
    | |- context [with_cache ?m s4] => set (s5 := with_cache m s4)
    end.
    assert (H5 : wf s5).
    { destruct H4 as (a & b & c). unfold wf, s5; unfold_setters; cbn.
      split; [auto | split; [auto | apply wf_map_set; auto]]. }
    clearbody s5.
    apply (wf_same_maps (outcome_state (register true v k (Some (CacheToken tok)) s5)));
      [apply bump_maps|].
    apply (wf_same_maps s5); [apply register_maps | exact H5].
Qed.

Lemma wf_get : forall k s, wf s -> wf (fst (get k s)).
Proof.
  intros k s H. unfold get. destruct (getEntry k s) as [[e|] kt]; [|exact H].
  destruct (_ && _); [apply wf_delete; exact H|].
  assert (H' : wf (updateLRU k s)) by (apply (wf_same_maps s); [apply updateLRU_maps | exact H]).
  destruct kt; try exact H'.
  destruct (negb (truthy (deref (updateLRU k s) (value e)))); [apply wf_delete|]; exact H'.
Qed.

Lemma wf_deleteAll : forall ks s, wf s -> wf (deleteAll ks s).
Proof.
  induction ks as [|k ks IH]; intros s H; [exact H|].
  simpl. apply IH. apply wf_delete. exact H.
Qed.

Lemma wf_size : forall s, wf s -> wf (fst (size s)).
Proof.
  intros s H. unfold size.
  destruct (sweep_count _ (stringCache s) _) as [n dead]. apply wf_deleteAll. exact H.
Qed.

Lemma wf_keys : forall s, wf s -> wf (fst (keys s)).
Proof.
  intros s H. unfold keys.
  destruct (sweep _ (stringCache s) _) as [l dead]. apply wf_deleteAll. exact H.
Qed.

Lemma wf_clear : forall s, wf (clear s).
Proof. intro s. unfold clear, wf. cbn. repeat split; constructor. Qed.

Lemma wf_updateTtl : forall k t s, wf s -> wf (fst (updateTtl k t s)).
Proof.
  intros k t s (H1 & H2 & H3). unfold updateTtl.
  destruct (map_get k (cache s)) as [e|] eqn:E1.
  { assert (Hc : classify k = KObject)
      by (apply (wf_map_class _ (cache s) k e H3), map_get_Some_In; exact E1).
    unfold clearTimeout, createTtlTimeout. destruct (timeoutId e); unfold wf; unfold_setters; cbn;
      (split; [exact H1 | split; [exact H2 | apply wf_map_set; assumption]]). }
  destruct (map_get k (symbolCache s)) as [e|] eqn:E2.
  { assert (Hc : classify k = KSymbol)
      by (apply (wf_map_class _ (symbolCache s) k e H2), map_get_Some_In; exact E2).
    unfold clearTimeout, createTtlTimeout. destruct (timeoutId e); unfold wf; unfold_setters; cbn;
      (split; [exact H1 | split; [apply wf_map_set; assumption | exact H3]]). }
  destruct (map_get k (stringCache s)) as [e|] eqn:E3.
  { assert (Hc : classify k = KString)
      by (apply (wf_map_class _ (stringCache s) k e H1), map_get_Some_In; exact E3).
    unfold clearTimeout, createTtlTimeout. destruct (timeoutId e); unfold wf; unfold_setters; cbn;
      (split; [apply wf_map_set; assumption | split; [exact H2 | exact H3]]). }
  split; [|split]; assumption.
Qed.

Lemma wf_notify : forall k v tok c s, wf s -> wf (outcome_state (getNotificationOnGC k v tok c s)).
Proof.
  intros k v tok c s H. unfold getNotificationOnGC.
  destruct (validateInputs k v); [exact H|].
  destruct tok;
    try (apply (wf_same_maps s); [apply register_maps | exact H]);
    (destruct (can_be_held_weakly _); [apply (wf_same_maps s); [apply register_maps | exact H] | exact H]).
Qed.

Lemma wf_run_op : forall o s, wf s -> wf (run_op o s).
Proof.
  intros o s H. destruct o; cbn [run_op].
  - apply wf_set; exact H.
  - apply wf_get; exact H.
  - exact H.
  - apply wf_delete; exact H.
  - apply wf_clear.
  - apply wf_keys; exact H.
  - apply wf_size; exact H.
  - exact H.
  - apply wf_updateTtl; exact H.
  - apply wf_notify; exact H.
  - unfold fire. destruct (find _ _) as [t|]; [|exact H].
    apply wf_delete. unfold wf in *; unfold_setters; cbn. exact H.
  - unfold finalize. destruct (_ && _); [|exact H].
    assert (H' : wf (with_rt (with_registry (filter (fun g' => negb (registration_eqb g g'))
                                                  (registry (rt s))) (rt s)) s))
      by (unfold wf in *; unfold_setters; cbn; exact H).
    destruct (regShared g); [apply wf_delete|]; exact H'.
  - unfold collect, wf in *; unfold_setters; cbn. exact H.
  - unfold tick, wf in *; unfold_setters; cbn. exact H.
Qed.

Lemma reachable_wf : forall s, reachable s -> wf s.
Proof.
  induction 1 as [h t0 d m s Hn | o s _ IH].
  - unfold new_SmartCache in Hn.
    destruct (negb (hasFinalizationRegistry h)); [discriminate|].
    injection Hn as <-. unfold wf. cbn. repeat split; constructor.
  - apply wf_run_op. exact IH.
Qed.

(** ** The sweeps of [size] and [keys] *)

Lemma sweep_spec : forall f m l d,
  sweep f m (l, d) =
  (l ++ map fst (filter (fun p => f (snd p)) m),
   d ++ map fst (filter (fun p => negb (f (snd p))) m)).
Proof.
  intro f. induction m as [|[k e] m IH]; intros l d; simpl.
  - rewrite !app_nil_r. reflexivity.
  - destruct (f e); simpl; rewrite IH, <- !app_assoc; reflexivity.
Qed.

Lemma sweep_count_spec : forall f m n d,
  sweep_count f m (n, d) =
  (n + Z.of_nat (List.length (filter (fun p => f (snd p)) m)),
   d ++ map fst (filter (fun p => negb (f (snd p))) m)).
Proof.
  intro f. induction m as [|[k e] m IH]; intros n d; simpl.
  - rewrite app_nil_r. f_equal. lia.
  - destruct (f e); simpl; rewrite IH, <- ?app_assoc; f_equal; lia.
Qed.

Definition same_view (s s' : st) : Prop :=
  now (rt s') = now (rt s) /\ collected (rt s') = collected (rt s).

Lemma alive_object_view : forall s s' e, same_view s s' -> alive_object s' e = alive_object s e.
Proof.
  intros s s' e [Hn Hc]. unfold alive_object, isExpired, deref. rewrite Hn, Hc. reflexivity.
Qed.

Lemma alive_plain_view : forall s s' e, same_view s s' -> alive_plain s' e = alive_plain s e.
Proof. intros s s' e [Hn Hc]. unfold alive_plain, isExpired. rewrite Hn. reflexivity. Qed.

Lemma filter_delete_dead : forall (f : entry -> bool) k m,
  (forall e, In (k, e) m -> f e = false) ->
  filter (fun p => f (snd p)) (map_delete k m) = filter (fun p => f (snd p)) m.
Proof.
  intros f k. induction m as [|[k' e'] m IH]; intro H; [reflexivity|].
  unfold map_delete in *. simpl.
  destruct (jsval_eqb k k') eqn:E; simpl.
  - apply jsval_eqb_eq in E. subst. rewrite (H e') by (left; reflexivity). simpl.
    apply IH. intros e He. apply H. right. exact He.
  - destruct (f e'); [f_equal|]; apply IH; intros e He; apply H; right; exact He.
Qed.

(** Every entry of [s0] under key [k] is dead. *)
Definition dead_key (s0 : st) (k : jsval) : Prop :=
  (forall e, In (k, e) (cache s0) -> alive_object s0 e = false) /\
  (forall e, In (k, e) (symbolCache s0) -> alive_plain s0 e = false) /\
  (forall e, In (k, e) (stringCache s0) -> alive_plain s0 e = false).

(** [s] has lost only dead entries of [s0]. *)
Definition swept_from (s0 s : st) : Prop :=
  incl (cache s) (cache s0) /\ incl (symbolCache s) (symbolCache s0) /\
  incl (stringCache s) (stringCache s0) /\ same_view s0 s /\
  filter (fun p => alive_object s0 (snd p)) (cache s)
    = filter (fun p => alive_object s0 (snd p)) (cache s0) /\
  filter (fun p => alive_plain s0 (snd p)) (symbolCache s)
    = filter (fun p => alive_plain s0 (snd p)) (symbolCache s0) /\
  filter (fun p => alive_plain s0 (snd p)) (stringCache s)
    = filter (fun p => alive_plain s0 (snd p)) (stringCache s0).

Lemma swept_from_refl : forall s, swept_from s s.
Proof. intro s. unfold swept_from, same_view. repeat split; apply incl_refl. Qed.

Lemma swept_from_delete : forall s0 s k,
  swept_from s0 s -> dead_key s0 k -> swept_from s0 (fst (delete k s)).
Proof.
  intros s0 s k (I1 & I2 & I3 & [Vn Vc] & F1 & F2 & F3) (D1 & D2 & D3).
  destruct (delete_shape k s) as (A & B & C & Hn & Hc).
  unfold swept_from, same_view. rewrite Hn, Hc.
  split; [|split; [|split; [|split; [split; assumption|split; [|split]]]]].
  - destruct B as [B|B]; rewrite B; [exact I1|].
    intros x Hx. apply I1. apply (map_delete_incl k). exact Hx.
  - destruct C as [C|C]; rewrite C; [exact I2|].
    intros x Hx. apply I2. apply (map_delete_incl k). exact Hx.
  - destruct A as [A|A]; rewrite A; [exact I3|].
    intros x Hx. apply I3. apply (map_delete_incl k). exact Hx.
  - destruct B as [B|B]; rewrite B; [exact F1|].
    rewrite filter_delete_dead; [exact F1|]. intros e He. apply D1, I1. exact He.
  - destruct C as [C|C]; rewrite C; [exact F2|].
    rewrite filter_delete_dead; [exact F2|]. intros e He. apply D2, I2. exact He.
  - destruct A as [A|A]; rewrite A; [exact F3|].
    rewrite filter_delete_dead; [exact F3|]. intros e He. apply D3, I3. exact He.
Qed.

Lemma swept_from_deleteAll : forall s0 ks s,
  swept_from s0 s -> Forall (dead_key s0) ks -> swept_from s0 (deleteAll ks s).
Proof.
  intros s0. induction ks as [|k ks IH]; intros s Hs Hd; [exact Hs|].
  inversion Hd as [|? ? Hk Hks]; subst. simpl.
  apply IH; [apply swept_from_delete|]; assumption.
Qed.

Lemma NoDup_fst_unique : forall (m : list (jsval * entry)) k e e',
  NoDup (map fst m) -> In (k, e) m -> In (k, e') m -> e = e'.
Proof.
  induction m as [|[k0 e0] m IH]; simpl; intros k e e' Hnd H1 H2; [contradiction|].
  inversion Hnd as [|? ? Hnot Hnd']; subst.
  destruct H1 as [H1|H1], H2 as [H2|H2].
  - congruence.
  - injection H1 as <- <-. exfalso. apply Hnot. apply (in_map fst) in H2. exact H2.
  - injection H2 as <- <-. exfalso. apply Hnot. apply (in_map fst) in H1. exact H1.
  - eapply IH; eauto.
Qed.

Lemma in_keys_class : forall c m k, wf_map c m -> In k (map fst m) -> classify k = c.
Proof.
  intros c m k [_ Hf] Hk. rewrite Forall_forall in Hf. apply Hf. exact Hk.
Qed.

(** In a well-formed instance the dead keys collected by the sweeps are
    dead everywhere. *)
Lemma dead_keys_dead : forall s, wf s ->
  Forall (dead_key s)
    (map fst (filter (fun p => negb (alive_object s (snd p))) (cache s))
     ++ map fst (filter (fun p => negb (alive_plain s (snd p))) (symbolCache s))
     ++ map fst (filter (fun p => negb (alive_plain s (snd p))) (stringCache s))).
Proof.
  intros s (W1 & W2 & W3). apply Forall_forall. intros k Hk.
  rewrite !in_app_iff in Hk.
  destruct Hk as [Hk|[Hk|Hk]]; apply in_map_iff in Hk as [[k' e] [Hk' Hin]]; simpl in Hk'; subst k';
    apply filter_In in Hin as [Hin Hdead]; simpl in Hdead; apply negb_true_iff in Hdead.
  - pose proof (wf_map_class _ _ _ _ W3 Hin) as Ck.
    split; [|split]; intros e' He'.
    + rewrite (NoDup_fst_unique _ k e' e (proj1 W3) He' Hin). exact Hdead.
    + pose proof (wf_map_class _ _ _ _ W2 He'). congruence.
    + pose proof (wf_map_class _ _ _ _ W1 He'). congruence.
  - pose proof (wf_map_class _ _ _ _ W2 Hin) as Ck.
    split; [|split]; intros e' He'.
    + pose proof (wf_map_class _ _ _ _ W3 He'). congruence.
    + rewrite (NoDup_fst_unique _ k e' e (proj1 W2) He' Hin). exact Hdead.
    + pose proof (wf_map_class _ _ _ _ W1 He'). congruence.
  - pose proof (wf_map_class _ _ _ _ W1 Hin) as Ck.
    split; [|split]; intros e' He'.
    + pose proof (wf_map_class _ _ _ _ W3 He'). congruence.
    + pose proof (wf_map_class _ _ _ _ W2 He'). congruence.
    + rewrite (NoDup_fst_unique _ k e' e (proj1 W1) He' Hin). exact Hdead.
Qed.

(** ** The frame of an operation: clock, collector view and configuration *)

Definition frame (s s' : st) : Prop :=
  now (rt s') = now (rt s) /\ collected (rt s') = collected (rt s) /\
  defaultTtl s' = defaultTtl s /\ maxSize s' = maxSize s /\ env (rt s') = env (rt s).

Lemma frame_refl : forall s, frame s s.
Proof. intro s. repeat split. Qed.

Lemma frame_trans : forall s1 s2 s3, frame s1 s2 -> frame s2 s3 -> frame s1 s3.
Proof.
  unfold frame. intros s1 s2 s3 (A & B & C & D & E) (F & G & H & I & J). repeat split; congruence.
Qed.

Ltac frame_simple :=
  unfold frame, clearTimeout, unregister_opt, unregister, updateLRU, armTimer,
    createTtlTimeout, freshToken, register, lru_has;
  unfold_setters; cbn;
  repeat match goal with
         | |- context [if ?b then _ else _] => destruct b
         | |- context [match ?o with Some _ => _ | None => _ end] => destruct o
         end; cbn; repeat split.

Lemma frame_clearTimeout : forall o s, frame s (clearTimeout o s).
Proof. intros. frame_simple. Qed.

Lemma frame_unregister_opt : forall o s, frame s (unregister_opt o s).
Proof. intros. frame_simple. Qed.

Lemma frame_updateLRU : forall k s, frame s (updateLRU k s).
Proof. intros. frame_simple. Qed.

Lemma frame_armTimer : forall k t s, frame s (fst (armTimer k t s)).
Proof. intros. frame_simple. Qed.

Lemma frame_freshToken : forall s, frame s (fst (freshToken s)).
Proof. intros. frame_simple. Qed.

Lemma frame_register : forall b t k tok s, frame s (outcome_state (register b t k tok s)).
Proof. intros. frame_simple. Qed.

Lemma frame_delete : forall k s, frame s (fst (delete k s)).
Proof.
  intros k s. unfold delete.
  destruct (lru_has k s); destruct (classify k); unfold_setters; simpl;
    match goal with |- context [map_get ?a ?b] => destruct (map_get a b) end; simpl;
    unfold deleteStringEntry, deleteSymbolEntry, deleteEntry; unfold_setters; cbn;
    (apply (frame_trans _ _ _ (frame_clearTimeout _ _)) || idtac);
    frame_simple.
Qed.

Lemma frame_evictLRU : forall s, frame s (evictLRU s).
Proof. intro s. unfold evictLRU. destruct (lru s); [apply frame_refl | apply frame_delete]. Qed.

Lemma expiryOf_frame : forall T s s', frame s s' -> expiryOf T s' = expiryOf T s.
Proof. intros T s s' (Hn & _). unfold expiryOf. rewrite Hn. reflexivity. Qed.

Lemma armTimer_none : forall k T s, num_truthy T = false -> snd (armTimer k T s) = None.
Proof.
  intros k [t|] s H; [|reflexivity]. simpl in H. unfold armTimer. rewrite H. reflexivity.
Qed.

Lemma frame_with_maps : forall s m,
  frame s (with_stringCache m s) /\ frame s (with_cache m s) /\ frame s (with_symbolCache m s).
Proof. intros. unfold frame; unfold_setters; cbn; repeat split. Qed.

Lemma frame_with_currentSize : forall s n, frame s (with_currentSize n s).
Proof. intros. unfold frame; unfold_setters; cbn; repeat split. Qed.

Lemma set_stores : forall k v ttl s s1,
  set k v ttl s = Ok s1 tt ->
  (classify k = KObject -> isArray v = false) ->
  let T := match ttl with Some t => Some t | None => defaultTtl s end in
  frame s s1 /\
  (classify k = KObject -> can_be_held_weakly v = true) /\
  exists e, fst (getEntry k s1) = Some e /\ value e = v /\ expiresAt e = expiryOf T s /\
            (num_truthy T = false -> timeoutId e = None).
Proof.
  intros k v ttl s s1 Hset Harr T. unfold set in Hset.
  destruct (validateInputs k v) eqn:Hval; [discriminate|].
  destruct (getEntry k s) as [ex kt] eqn:G.
  assert (Hkt : kt = classify k) by (rewrite <- (getEntry_kt k s), G; reflexivity).
  set (s2 := match ex with Some _ => updateLRU k (fst (delete k s)) | None => s end) in Hset.
  assert (F2 : frame s s2).
  { subst s2. destruct ex; [|apply frame_refl].
    eapply frame_trans; [apply frame_delete | apply frame_updateLRU]. }
  set (s3 := if num_truthy (maxSize s2) && _ then evictLRU s2 else s2) in Hset.
  assert (F3 : frame s s3).
  { subst s3. destruct (_ && _); [eapply frame_trans; [exact F2 | apply frame_evictLRU] | exact F2]. }
  clearbody s2 s3.
  assert (HT : match ttl with Some t => Some t | None => defaultTtl s3 end = T).
  { subst T. destruct ttl; [reflexivity|]. destruct F3 as (_ & _ & Hd & _). exact Hd. }
  rewrite HT in Hset.
  rewrite (expiryOf_frame T s s3 F3) in Hset.
  destruct (armTimer k T s3) as [s4 tid] eqn:A.
  assert (F4 : frame s s4).
  { eapply frame_trans; [exact F3|]. pose proof (frame_armTimer k T s3) as M. rewrite A in M. exact M. }
  assert (Htid : num_truthy T = false -> tid = None).
  { intro H. pose proof (armTimer_none k T s3 H) as M. rewrite A in M. exact M. }
  destruct (freshToken s4) as [s5 tok] eqn:Fr.
  assert (F5 : frame s s5).
  { eapply frame_trans; [exact F4|]. pose proof (frame_freshToken s4) as M. rewrite Fr in M. exact M. }
  destruct kt.
  - injection Hset as <-. split; [|split].
    + eapply frame_trans; [|apply frame_with_currentSize].
      eapply frame_trans; [exact F4 | apply frame_with_maps].
    + intro H. rewrite <- Hkt in H. discriminate.
    + eexists. unfold getEntry. rewrite <- Hkt. unfold_setters. cbn.
      rewrite map_get_set_same. split; [reflexivity|]. cbn. split; [reflexivity|].
      split; [reflexivity|]. exact Htid.
  - match type of Hset with
    | context [with_symbolCache (map_set k ?e (symbolCache s5)) s5] =>
        set (e0 := e) in Hset; set (s6 := with_symbolCache (map_set k e0 (symbolCache s5)) s5) in Hset
    end.
    assert (F6 : frame s s6) by (eapply frame_trans; [exact F5 | apply frame_with_maps]).
    destruct (if is_object_typed v && negb (jsval_eqb v JNull) then _ else _)
      as [s7 []|err s7] eqn:R; [|discriminate].
    assert (M7 : same_maps s6 s7 /\ frame s6 s7).
    { destruct (is_object_typed v && negb (jsval_eqb v JNull)).
      - split; [pose proof (register_maps true v k (Some (CacheToken tok)) s6) as M
               | pose proof (frame_register true v k (Some (CacheToken tok)) s6) as M];
          rewrite R in M; exact M.
      - injection R as <-. split; [apply same_maps_refl | apply frame_refl]. }
    injection Hset as <-. destruct M7 as [(_ & _ & M7) F7]. split; [|split].
    + eapply frame_trans; [|apply frame_with_currentSize]. eapply frame_trans; eassumption.
    + intro H. rewrite <- Hkt in H. discriminate.
    + exists e0. unfold getEntry. rewrite <- Hkt. unfold_setters. cbn. rewrite M7.
      subst s6. unfold_setters. cbn. rewrite map_get_set_same.
      split; [reflexivity|]. subst e0. cbn. split; [reflexivity|]. split; [reflexivity|]. exact Htid.
  - assert (Hv : negb (isArray v) && negb (jsval_eqb v JNull) = true).
    { rewrite (Harr (eq_sym Hkt)). unfold validateInputs in Hval.
      destruct (is_nullish k); [discriminate|]. destruct v; try discriminate; reflexivity. }
    rewrite Hv in Hset. unfold newWeakRef in Hset.
    destruct (negb (hasWeakRef (env (rt s3)))); [discriminate|].
    destruct (negb (can_be_held_weakly v)) eqn:W; [discriminate|].
    cbn beta iota zeta in Hset. rewrite A, Fr in Hset.
    match type of Hset with
    | context [with_cache (map_set k ?e (cache s5)) s5] =>
        set (e0 := e) in Hset; set (s6 := with_cache (map_set k e0 (cache s5)) s5) in Hset
    end.
    assert (F6 : frame s s6) by (eapply frame_trans; [exact F5 | apply frame_with_maps]).
    destruct (register true v k (Some (CacheToken tok)) s6) as [s7 []|err s7] eqn:R; [|discriminate].
    pose proof (register_maps true v k (Some (CacheToken tok)) s6) as M7.
    pose proof (frame_register true v k (Some (CacheToken tok)) s6) as F7.
    rewrite R in M7, F7. cbn in M7, F7.
    injection Hset as <-. destruct M7 as (_ & M7 & _). split; [|split].
    + eapply frame_trans; [|apply frame_with_currentSize]. eapply frame_trans; eassumption.
    + intros _. apply negb_false_iff. exact W.
    + exists e0. unfold getEntry. rewrite <- Hkt. unfold_setters. cbn. rewrite M7.
      subst s6. unfold_setters. cbn. rewrite map_get_set_same.
      split; [reflexivity|]. subst e0. cbn. split; [reflexivity|]. split; [reflexivity|]. exact Htid.
Qed.

(** ** Reads on a known entry *)

Lemma getEntry_eq : forall k s, getEntry k s = (fst (getEntry k s), classify k).
Proof. intros k s. unfold getEntry. destruct (classify k); reflexivity. Qed.

Lemma getEntry_tick : forall k t s, getEntry k (tick t s) = getEntry k s.
Proof. intros. reflexivity. Qed.

Lemma now_tick : forall t s, now (rt (tick t s)) = Z.max (now (rt s)) t.
Proof. intros. reflexivity. Qed.


Lemma deref_frame : forall s s' x, frame s s' -> deref s' x = deref s x.
Proof. intros s s' x (_ & Hc & _). unfold deref. rewrite Hc. reflexivity. Qed.

Lemma get_absent : forall k s, fst (getEntry k s) = None -> snd (get k s) = JUndefined.
Proof. intros k s H. unfold get. rewrite getEntry_eq, H. reflexivity. Qed.

Lemma has_absent : forall k s, fst (getEntry k s) = None -> has k s = false.
Proof.
  intros k s H. unfold has. unfold getEntry in H.
  destruct (classify k); simpl in H; rewrite H; reflexivity.
Qed.

Lemma get_expired : forall k s e,
  fst (getEntry k s) = Some e -> num_truthy (expiresAt e) = true ->
  isExpired s (expiresAt e) = true -> snd (get k s) = JUndefined.
Proof. intros k s e H H1 H2. unfold get. rewrite getEntry_eq, H, H1, H2. reflexivity. Qed.

Lemma get_live : forall k s e,
  fst (getEntry k s) = Some e -> isExpired s (expiresAt e) = false ->
  snd (get k s) = match classify k with
                  | KObject => if truthy (deref s (value e)) then deref s (value e) else JUndefined
                  | _ => value e
                  end.
Proof.
  intros k s e H H1. unfold get. rewrite getEntry_eq, H, H1, andb_false_r.
  destruct (classify k); try reflexivity.
  rewrite (deref_frame s (updateLRU k s) _ (frame_updateLRU k s)).
  destruct (truthy (deref s (value e))); reflexivity.
Qed.

Lemma has_entry : forall k s e,
  fst (getEntry k s) = Some e ->
  has k s = if isExpired s (expiresAt e) then false
            else match classify k with
                 | KObject => negb (jsval_eqb (deref s (value e)) JUndefined)
                 | _ => true
                 end.
Proof.
  intros k s e H. unfold has. unfold getEntry in H.
  destruct (classify k); simpl in H; rewrite H; destruct (isExpired s (expiresAt e)); reflexivity.
Qed.

Lemma getEntry_delete : forall k s, fst (getEntry k (fst (delete k s))) = None.
Proof.
  intros k s. unfold delete.
  destruct (lru_has k s); destruct (classify k) eqn:C; unfold_setters; cbn;
    match goal with |- context [map_get ?a ?b] => destruct (map_get a b) eqn:E end; cbn;
    unfold getEntry; rewrite C; cbn; try exact E;
    unfold clearTimeout, unregister_opt, unregister; unfold_setters;
    destruct (timeoutId e); try destruct (unregisterToken e); cbn;
    apply map_get_delete_same.
Qed.

Lemma fire_deletes : forall id tm s,
  find (fun x => Nat.eqb (timerId x) id) (timers (rt s)) = Some tm ->
  fst (getEntry (timerKey tm) (fire id s)) = None.
Proof. intros id tm s H. unfold fire. rewrite H. apply getEntry_delete. Qed.

(** ** [delete] *)

Lemma lru_remove_gone : forall k l, existsb (jsval_eqb k) (lru_remove k l) = false.
Proof.
  intro k. induction l as [|x l IH]; [reflexivity|]. unfold lru_remove in *. simpl.
  destruct (jsval_eqb k x) eqn:E; simpl; [exact IH|]. rewrite E. exact IH.
Qed.

Lemma lru_delete : forall k s,
  lru (fst (delete k s)) = if lru_has k s then lru_remove k (lru s) else lru s.
Proof.
  intros k s. unfold delete.
  destruct (lru_has k s); destruct (classify k); unfold_setters; cbn;
    match goal with |- context [map_get ?a ?b] => destruct (map_get a b) end; cbn;
    try reflexivity;
    unfold deleteStringEntry, deleteSymbolEntry, deleteEntry, clearTimeout, unregister_opt,
      unregister; unfold_setters;
    repeat match goal with
           | |- context [timeoutId ?e] => destruct (timeoutId e)
           | |- context [unregisterToken ?e] => destruct (unregisterToken e)
           end; reflexivity.
Qed.

Lemma lru_has_delete : forall k s, lru_has k (fst (delete k s)) = false.
Proof.
  intros k s. unfold lru_has at 1. rewrite lru_delete.
  destruct (lru_has k s) eqn:L; [apply lru_remove_gone | exact L].
Qed.

Lemma delete_result : forall k s,
  snd (delete k s) = match fst (getEntry k s) with Some _ => true | None => false end.
Proof.
  intros k s. unfold delete, getEntry.
  destruct (lru_has k s); destruct (classify k); unfold_setters; cbn;
    destruct (map_get _ _); reflexivity.
Qed.

Lemma delete_absent : forall k s,
  lru_has k s = false -> fst (getEntry k s) = None -> delete k s = (s, false).
Proof.
  intros k s L H. unfold delete. rewrite L. unfold getEntry in H.
  destruct (classify k); simpl in H; rewrite H; reflexivity.
Qed.


(** ** Errors thrown past validation *)

Lemma register_err : forall b t k tok s e s', register b t k tok s = Throw e s' -> e = TypeError.
Proof. intros b t k tok s e s' H. unfold register in H. destruct (negb _); congruence. Qed.

Lemma newWeakRef_err : forall v s e s', newWeakRef v s = Throw e s' -> e <> ValidationError.
Proof.
  intros v s e s' H. unfold newWeakRef in H.
  destruct (negb (hasWeakRef _)); [injection H as <- _; discriminate|].
  destruct (negb _); [injection H as <- _; discriminate | discriminate].
Qed.

Lemma set_no_validation_error : forall k v ttl s e s',
  validateInputs k v = None -> set k v ttl s = Throw e s' -> e <> ValidationError.
Proof.
  intros k v ttl s e s' Hv H. unfold set in H. rewrite Hv in H.
  destruct (getEntry k s) as [ex kt]. cbv zeta in H. destruct kt.
  - match type of H with context [armTimer ?a ?b ?c] => destruct (armTimer a b c) end.
    discriminate.
  - match type of H with context [armTimer ?a ?b ?c] => destruct (armTimer a b c) end.
    match type of H with context [freshToken ?a] => destruct (freshToken a) end.
    match type of H with
    | context [if ?b then register ?x1 ?x2 ?x3 ?x4 ?x5 else _] =>
        destruct b; [destruct (register x1 x2 x3 x4 x5) eqn:R|]
    end; try discriminate.
    injection H as <- _. rewrite (register_err _ _ _ _ _ _ _ R). discriminate.
  - destruct (negb (isArray v) && negb (jsval_eqb v JNull)); [|discriminate].
    match type of H with context [newWeakRef ?a ?b] => destruct (newWeakRef a b) eqn:N end.
    + match type of H with context [armTimer ?a ?b ?c] => destruct (armTimer a b c) end.
      match type of H with context [freshToken ?a] => destruct (freshToken a) end.
      match type of H with
      | context [register ?x1 ?x2 ?x3 ?x4 ?x5] => destruct (register x1 x2 x3 x4 x5) eqn:R
      end; [discriminate|].
      injection H as <- _. rewrite (register_err _ _ _ _ _ _ _ R). discriminate.
    + injection H as <- _. exact (newWeakRef_err _ _ _ _ N).
Qed.

Lemma notify_no_validation_error : forall k v tok c s e s',
  validateInputs k v = None -> getNotificationOnGC k v tok c s = Throw e s' -> e <> ValidationError.
Proof.
  intros k v tok c s e s' Hv H. unfold getNotificationOnGC in H. rewrite Hv in H.
  assert (G : forall b t k' o s0, register b t k' o s0 = Throw e s' -> e <> ValidationError)
    by (intros b t k' o s0 R; rewrite (register_err _ _ _ _ _ _ _ R); discriminate).
  destruct tok; try (eapply G; exact H);
    destruct (can_be_held_weakly _); try (eapply G; exact H);
    injection H as <- _; discriminate.
Qed.

Lemma validateInputs_nullish : forall k v,
  validateInputs k v = if is_nullish k || is_nullish v then Some ValidationError else None.
Proof. intros k v. unfold validateInputs. destruct (is_nullish k), (is_nullish v); reflexivity. Qed.


(** ** [updateTtl] on a well-formed instance *)

Lemma wf_map_get_class : forall c m k e, wf_map c m -> map_get k m = Some e -> classify k = c.
Proof. intros c m k e W E. eapply wf_map_class; [exact W | apply map_get_Some_In; exact E]. Qed.

Lemma wf_map_get_other : forall c m k, wf_map c m -> classify k <> c -> map_get k m = None.
Proof.
  intros c m k W C. destruct (map_get k m) eqn:E; [|reflexivity].
  exfalso. apply C. eapply wf_map_get_class; eassumption.
Qed.

(** On a well-formed instance the map [updateTtl] finds the key in is the
    map of the key's category. *)
Lemma updateTtl_entry : forall k ttl s e, wf s -> fst (getEntry k s) = Some e ->
  let '(s', b) := updateTtl k ttl s in
  b = true /\ frame s s' /\
  exists id,
    fst (getEntry k s') = Some (mkEntry (value e) (Some id) (Some (now (rt s) + ttl))
                                        (accessTime e) (unregisterToken e)) /\
    In (mkTimer id k ttl (now (rt s))) (timers (rt s')).
Proof.
  intros k ttl s e (W1 & W2 & W3) He.
  unfold getEntry in He |- *. unfold updateTtl.
  destruct (classify k) eqn:C; simpl in He.
  - rewrite (wf_map_get_other _ _ k W3) by (rewrite C; discriminate).
    rewrite (wf_map_get_other _ _ k W2) by (rewrite C; discriminate).
    rewrite He. cbv beta zeta.
    unfold clearTimeout, createTtlTimeout. destruct (timeoutId e); unfold_setters; cbn;
      (split; [reflexivity | split; [unfold frame; cbn; repeat split |]]);
      eexists; (split; [rewrite map_get_set_same; reflexivity | apply in_or_app; right; left; reflexivity]).
  - rewrite (wf_map_get_other _ _ k W3) by (rewrite C; discriminate).
    rewrite He. cbv beta zeta.
    unfold clearTimeout, createTtlTimeout. destruct (timeoutId e); unfold_setters; cbn;
      (split; [reflexivity | split; [unfold frame; cbn; repeat split |]]);
      eexists; (split; [rewrite map_get_set_same; reflexivity | apply in_or_app; right; left; reflexivity]).
  - rewrite He. cbv beta zeta.
    unfold clearTimeout, createTtlTimeout. destruct (timeoutId e); unfold_setters; cbn;
      (split; [reflexivity | split; [unfold frame; cbn; repeat split |]]);
      eexists; (split; [rewrite map_get_set_same; reflexivity | apply in_or_app; right; left; reflexivity]).
Qed.

(** ** Construction on a host without [WeakRef] *)

Lemma set_fresh_object_no_weakref : forall h t0 d m k v ttl,
  hasWeakRef h = false -> classify k = KObject ->
  is_nullish k = false -> is_nullish v = false -> isArray v = false ->
  exists s', set k v ttl (mkSt [] [] [] d m [] 0 (mkRuntime t0 [] [] [] 0 h)) = Throw ReferenceError s'.
Proof.
  intros h t0 d m k v ttl Hw C Nk Nv A.
  unfold set. rewrite validateInputs_nullish, Nk, Nv. cbn [orb].
  unfold getEntry. rewrite C. cbn [map_get cache].
  cbv beta zeta iota.
  match goal with |- context [if ?b then evictLRU ?x else ?y] => replace (if b then evictLRU x else y) with y
    by (destruct b; reflexivity) end.
  rewrite A. replace (negb (jsval_eqb v JNull)) with true
    by (destruct v; try discriminate; reflexivity).
  unfold newWeakRef. cbn [env rt]. rewrite Hw. cbn. eexists. reflexivity.
Qed.


(** ** Quiet steps: calls that touch only timers, tokens and registrations *)

Definition quiet (s s' : st) : Prop :=
  same_maps s s' /\ lru s' = lru s /\ currentSize s' = currentSize s /\ frame s s'.

Lemma quiet_refl : forall s, quiet s s.
Proof. intro s. split; [apply same_maps_refl | split; [reflexivity | split; [reflexivity | apply frame_refl]]]. Qed.

Lemma quiet_trans : forall s1 s2 s3, quiet s1 s2 -> quiet s2 s3 -> quiet s1 s3.
Proof.
  intros s1 s2 s3 (A & B & C & D) (E & F & G & H).
  split; [eapply same_maps_trans; eassumption|].
  split; [congruence|]. split; [congruence|]. eapply frame_trans; eassumption.
Qed.

Ltac quiet_simple :=
  unfold quiet, same_maps, frame, clearTimeout, unregister_opt, unregister, armTimer,
    createTtlTimeout, freshToken, register;
  unfold_setters; cbn;
  repeat match goal with
         | |- context [if ?b then _ else _] => destruct b
         | |- context [match ?o with Some _ => _ | None => _ end] => destruct o
         end; cbn; repeat split.

Lemma quiet_armTimer : forall k t s, quiet s (fst (armTimer k t s)).
Proof. intros. quiet_simple. Qed.

Lemma quiet_freshToken : forall s, quiet s (fst (freshToken s)).
Proof. intros. quiet_simple. Qed.

Lemma quiet_register : forall b t k tok s, quiet s (outcome_state (register b t k tok s)).
Proof. intros. quiet_simple. Qed.

Lemma quiet_clearTimeout : forall o s, quiet s (clearTimeout o s).
Proof. intros. quiet_simple. Qed.

Lemma register_ok : forall b t k tok s,
  can_be_held_weakly t = true -> exists s', register b t k tok s = Ok s' tt.
Proof. intros b t k tok s H. unfold register. rewrite H. eexists. reflexivity. Qed.

(** ** The shape of [set] *)

(** The steps [set] takes before it stores: [delete] of the key or of the
    evicted key, and the ledger update of the key. *)
Inductive pre_steps (k : jsval) (s : st) : st -> Prop :=
| pre_refl : pre_steps k s s
| pre_delete : forall s' k', pre_steps k s s' -> pre_steps k s (fst (delete k' s'))
| pre_lru : forall s', pre_steps k s s' -> pre_steps k s (updateLRU k s').

(** [#stringCache.set], [#symbolCache.set] or [#cache.set] by category. *)
Definition store (c : keyType) (k : jsval) (e : entry) (s : st) : st :=
  match c with
  | KString => with_stringCache (map_set k e (stringCache s)) s
  | KSymbol => with_symbolCache (map_set k e (symbolCache s)) s
  | KObject => with_cache (map_set k e (cache s)) s
  end.

Lemma getEntry_same_maps : forall k s s', same_maps s s' -> getEntry k s' = getEntry k s.
Proof. intros k s s' (A & B & C). unfold getEntry. rewrite A, B, C. reflexivity. Qed.

Lemma map_get_delete_absent : forall k k' m,
  map_get k m = None -> map_get k (map_delete k' m) = None.
Proof.
  intros k k' m H. apply map_get_None_iff. apply map_get_None_iff in H.
  intro Hin. apply H. apply in_map_iff in Hin as [p [<- Hp]].
  apply in_map. apply (map_delete_incl k' m). exact Hp.
Qed.

Lemma getEntry_delete_absent : forall k k' s,
  fst (getEntry k s) = None -> fst (getEntry k (fst (delete k' s))) = None.
Proof.
  intros k k' s H. destruct (delete_shape k' s) as (A & B & C & _).
  unfold getEntry in *. destruct (classify k); simpl in *.
  - destruct A as [A|A]; rewrite A; [exact H | apply map_get_delete_absent; exact H].
  - destruct C as [C|C]; rewrite C; [exact H | apply map_get_delete_absent; exact H].
  - destruct B as [B|B]; rewrite B; [exact H | apply map_get_delete_absent; exact H].
Qed.

Lemma same_maps_store : forall c k e s s', same_maps s s' -> same_maps (store c k e s) (store c k e s').
Proof.
  intros c k e s s' (A & B & C). destruct c; unfold store, same_maps; unfold_setters; cbn;
    rewrite ?A, ?B, ?C; repeat split.
Qed.

(** The instance [set] stores into: after the [delete] and ledger update
    of an existing key, and after the eviction at capacity. *)
Definition set_pre (k : jsval) (s : st) : st :=
  let s := match fst (getEntry k s) with
           | Some _ => updateLRU k (fst (delete k s))
           | None => s
           end in
  if num_truthy (maxSize s)
     && (match maxSize s with Some m => Z.leb m (currentSize s) | None => false end)
  then evictLRU s else s.

Lemma set_shape : forall k v ttl s,
  validateInputs k v = None ->
  let s2 := set_pre k s in
  pre_steps k s s2 /\ fst (getEntry k s2) = None /\
  (classify k = KObject -> isArray v = true -> set k v ttl s = Ok s2 tt) /\
  (outcome_state (set k v ttl s) = s2 \/
   exists e, value e = v /\ (classify k = KObject -> can_be_held_weakly v = true) /\
     let s' := outcome_state (set k v ttl s) in
     same_maps (store (classify k) k e s2) s' /\ currentSize s' = currentSize s2 + 1 /\
     lru s' = lru s2 /\ frame s2 s' /\
     ((classify k = KObject \/ (classify k = KSymbol /\ is_object_typed v = true)) ->
      exists tok, In (mkReg v k (Some (CacheToken tok)) true) (registry (rt s')))).
Proof.
  intros k v ttl s Hv s2'. unfold set. rewrite Hv.
  destruct (getEntry k s) as [ex kt] eqn:G.
  assert (Nv : jsval_eqb v JNull = false).
  { unfold validateInputs in Hv. destruct (is_nullish k); [discriminate|].
    destruct v; try reflexivity; cbn in Hv; discriminate. }
  assert (Hkt : kt = classify k) by (rewrite <- (getEntry_kt k s), G; reflexivity).
  set (s1 := match ex with Some _ => updateLRU k (fst (delete k s)) | None => s end).
  assert (P1 : pre_steps k s s1 /\ fst (getEntry k s1) = None).
  { subst s1. destruct ex.
    - split; [apply pre_lru, pre_delete, pre_refl|].
      rewrite (getEntry_same_maps _ _ _ (updateLRU_maps _ _)). apply getEntry_delete.
    - split; [apply pre_refl|]. rewrite G. reflexivity. }
  set (s2 := if num_truthy (maxSize s1) && _ then evictLRU s1 else s1).
  assert (P2 : pre_steps k s s2 /\ fst (getEntry k s2) = None).
  { subst s2. destruct (_ && _); [|exact P1]. unfold evictLRU. destruct (lru s1); [exact P1|].
    split; [apply pre_delete; exact (proj1 P1) | apply getEntry_delete_absent; exact (proj2 P1)]. }
  assert (E2 : s2' = s2) by (subst s2' s2 s1; unfold set_pre; rewrite G; reflexivity).
  rewrite E2. clearbody s1 s2. clear s2' E2. split; [exact (proj1 P2)|]. split; [exact (proj2 P2)|].
  split.
  { intros C Ha. subst kt. rewrite C, Ha. reflexivity. }
  set (T := match ttl with Some t => Some t | None => defaultTtl s2 end). clearbody T.
  destruct (armTimer k T s2) as [s3 tid] eqn:A.
  assert (Q3 : quiet s2 s3) by (pose proof (quiet_armTimer k T s2) as Q; rewrite A in Q; exact Q).
  destruct (freshToken s3) as [s4 tok] eqn:F.
  assert (Q4 : quiet s2 s4)
    by (pose proof (quiet_freshToken s3) as Q; rewrite F in Q; eapply quiet_trans; eassumption).
  destruct kt.
  - match goal with
    | |- context [map_set k ?e (stringCache s3)] => set (e0 := e)
    end.
    right. exists e0. split; [reflexivity|]. split; [intro HC; rewrite <- Hkt in HC; discriminate|].
    cbn [outcome_state]. rewrite <- Hkt. destruct Q3 as ((M1 & M2 & M3) & L & C & Fr).
    unfold store, same_maps, frame in *; unfold_setters; cbn. rewrite M1, M2, M3, L, C.
    split; [repeat split|]. split; [reflexivity|]. split; [reflexivity|]. split; [exact Fr|].
    intros [HC|[HC _]]; discriminate.
  - match goal with
    | |- context [with_symbolCache (map_set k ?e (symbolCache s4)) s4] =>
        set (e0 := e); set (s5 := with_symbolCache (map_set k e0 (symbolCache s4)) s4)
    end.
    assert (Ho : exists s6, quiet s5 s6 /\
              (if is_object_typed v && negb (jsval_eqb v JNull)
               then register true v k (Some (CacheToken tok)) s5 else Ok s5 tt) = Ok s6 tt).
    { destruct (is_object_typed v && negb (jsval_eqb v JNull)) eqn:O.
      - destruct (register_ok true v k (Some (CacheToken tok)) s5) as [s6 R].
        + destruct v; try discriminate; reflexivity.
        + exists s6. split; [|exact R]. pose proof (quiet_register true v k (Some (CacheToken tok)) s5) as Q.
          rewrite R in Q. exact Q.
      - exists s5. split; [apply quiet_refl | reflexivity]. }
    destruct Ho as [s6 [Q6 R]].
    assert (RG : is_object_typed v = true ->
                 In (mkReg v k (Some (CacheToken tok)) true) (registry (rt s6))).
    { intro O. pose proof R as R'. rewrite O, Nv in R'. cbn [andb negb] in R'.
      unfold register in R'. destruct v; try discriminate; cbn in R'; injection R' as <-;
        subst s5; unfold_setters; cbn; apply in_or_app; right; left; reflexivity. }
    rewrite R. right. exists e0. split; [reflexivity|].
    split; [intro HC; rewrite <- Hkt in HC; discriminate|].
    cbn [outcome_state]. rewrite <- Hkt.
    destruct Q4 as ((M1 & M2 & M3) & L & C & Fr). destruct Q6 as ((N1 & N2 & N3) & L6 & C6 & Fr6).
    subst s5. unfold store, same_maps, frame in *; unfold_setters; cbn in *.
    rewrite N1, N2, N3, L6, C6, M1, M2, M3, L, C.
    split; [repeat split|]. split; [reflexivity|]. split; [reflexivity|].
    destruct Fr as (a & b & c & d & f). destruct Fr6 as (a' & b' & c' & d' & f').
    split; [repeat split; congruence|].
    intros [HC|[_ O]]; [discriminate|]. exists tok. exact (RG O).
  - destruct (negb (isArray v) && negb (jsval_eqb v JNull)) eqn:AV; [|left; reflexivity].
    unfold newWeakRef.
    destruct (negb (hasWeakRef (env (rt s2)))); [left; reflexivity|].
    destruct (negb (can_be_held_weakly v)) eqn:W; [left; reflexivity|].
    cbn iota. rewrite A, F.
    match goal with
    | |- context [with_cache (map_set k ?e (cache s4)) s4] =>
        set (e0 := e); set (s5 := with_cache (map_set k e0 (cache s4)) s4)
    end.
    destruct (register_ok true v k (Some (CacheToken tok)) s5) as [s6 R].
    { apply negb_false_iff. exact W. }
    pose proof (quiet_register true v k (Some (CacheToken tok)) s5) as Q6. rewrite R in Q6.
    assert (RG : In (mkReg v k (Some (CacheToken tok)) true) (registry (rt s6))).
    { pose proof R as R'. unfold register in R'. rewrite W in R'. injection R' as <-.
      subst s5; unfold_setters; cbn; apply in_or_app; right; left; reflexivity. }
    rewrite R. right. exists e0. split; [reflexivity|].
    split; [intros _; apply negb_false_iff; exact W|].
    cbn [outcome_state]. rewrite <- Hkt.
    destruct Q4 as ((M1 & M2 & M3) & L & C & Fr). destruct Q6 as ((N1 & N2 & N3) & L6 & C6 & Fr6).
    subst s5. unfold store, same_maps, frame in *; unfold_setters; cbn in *.
    rewrite N1, N2, N3, L6, C6, M1, M2, M3, L, C.
    split; [repeat split|]. split; [reflexivity|]. split; [reflexivity|].
    destruct Fr as (a & b & c & d & f). destruct Fr6 as (a' & b' & c' & d' & f').
    split; [repeat split; congruence|].
    intros _. exists tok. exact RG.
Qed.


(** ** Counting entries *)

Definition count (s : st) : nat :=
  (List.length (stringCache s) + List.length (cache s) + List.length (symbolCache s))%nat.

(** [#currentSize] counts the entries of the three maps. *)
Definition sized (s : st) : Prop := currentSize s = Z.of_nat (count s).

Lemma map_delete_notin : forall k m, ~ In k (map fst m) -> map_delete k m = m.
Proof.
  intro k. induction m as [|[k' e'] m IH]; intro H; [reflexivity|].
  unfold map_delete in *. cbn [filter fst]. simpl in H.
  destruct (jsval_eqb k k') eqn:E.
  - apply jsval_eqb_eq in E. subst. tauto.
  - cbn [negb]. f_equal. apply IH. tauto.
Qed.

Lemma length_map_delete : forall k m e, NoDup (map fst m) -> map_get k m = Some e ->
  List.length m = S (List.length (map_delete k m)).
Proof.
  intros k m e. induction m as [|[k' e'] m IH]; intros Hnd H; [discriminate|].
  simpl in H. inversion Hnd as [|x l Hx Hnd']; subst. unfold map_delete; cbn [filter fst].
  destruct (jsval_eqb k k') eqn:E.
  - apply jsval_eqb_eq in E. subst. cbn [negb].
    fold (map_delete k' m). rewrite map_delete_notin by exact Hx. reflexivity.
  - cbn [negb List.length]. f_equal. apply IH; assumption.
Qed.

Lemma length_map_set_absent : forall k e m, map_get k m = None ->
  List.length (map_set k e m) = S (List.length m).
Proof.
  intros k e. induction m as [|[k' e'] m IH]; intro H; [reflexivity|].
  simpl in *. destruct (jsval_eqb k k'); [discriminate|]. simpl. f_equal. apply IH. exact H.
Qed.

Lemma length_map_set_present : forall k e e' m, map_get k m = Some e' ->
  List.length (map_set k e m) = List.length m.
Proof.
  intros k e e'. induction m as [|[k' e0] m IH]; intro H; [discriminate|].
  simpl in *. destruct (jsval_eqb k k'); [reflexivity|]. simpl. f_equal. apply IH. exact H.
Qed.

Lemma count_same_maps : forall s s', same_maps s s' -> count s' = count s.
Proof. intros s s' (A & B & C). unfold count. rewrite A, B, C. reflexivity. Qed.

Lemma count_store_absent : forall k e s, fst (getEntry k s) = None ->
  count (store (classify k) k e s) = S (count s).
Proof.
  intros k e s H. unfold getEntry in H. unfold count, store.
  destruct (classify k); simpl in H; unfold_setters; cbn; rewrite length_map_set_absent by exact H; lia.
Qed.

Lemma sized_delete : forall k s, wf s -> sized s -> sized (fst (delete k s)).
Proof.
  intros k s (W1 & W2 & W3) H. unfold sized, count in *. unfold delete.
  destruct (lru_has k s); destruct (classify k); unfold_setters; simpl;
    match goal with |- context [map_get ?a ?b] => destruct (map_get a b) eqn:E end; simpl;
    unfold deleteStringEntry, deleteSymbolEntry, deleteEntry, clearTimeout, unregister_opt,
      unregister; unfold_setters; simpl;
    repeat match goal with
           | |- context [timeoutId ?e] => destruct (timeoutId e)
           | |- context [unregisterToken ?e] => destruct (unregisterToken e)
           end; simpl;
    try pose proof (length_map_delete _ _ _ (proj1 W1) E);
    try pose proof (length_map_delete _ _ _ (proj1 W2) E);
    try pose proof (length_map_delete _ _ _ (proj1 W3) E);
    lia.
Qed.

(** ** Stored values *)

Definition vals_map (m : list (jsval * entry)) : Prop :=
  Forall (fun p => is_nullish (value (snd p)) = false) m.

(** Stored values are never [null] or [undefined], and the targets of the
    object map can be held weakly. *)
Definition vals (s : st) : Prop :=
  vals_map (stringCache s) /\ vals_map (symbolCache s) /\ vals_map (cache s) /\
  Forall (fun p => can_be_held_weakly (value (snd p)) = true) (cache s).

Lemma Forall_map_set : forall (P : jsval * entry -> Prop) k e m,
  (forall k', P (k', e)) -> Forall P m -> Forall P (map_set k e m).
Proof.
  intros P k e. induction m as [|[k' e'] m IH]; intros He H; simpl.
  - constructor; [apply He | constructor].
  - inversion H as [|? ? H1 H2]; subst. destruct (jsval_eqb k k').
    + constructor; [apply He | exact H2].
    + constructor; [exact H1 | apply IH; assumption].
Qed.

Lemma Forall_map_delete : forall (P : jsval * entry -> Prop) k m,
  Forall P m -> Forall P (map_delete k m).
Proof.
  intros P k m H. rewrite Forall_forall in *. intros x Hx. apply H.
  apply (map_delete_incl k). exact Hx.
Qed.

Lemma vals_same_maps : forall s s', same_maps s s' -> vals s -> vals s'.
Proof. intros s s' (A & B & C). unfold vals. rewrite A, B, C. tauto. Qed.

Lemma vals_delete : forall k s, vals s -> vals (fst (delete k s)).
Proof.
  intros k s (V1 & V2 & V3 & V4). destruct (delete_shape k s) as (A & B & C & _).
  unfold vals. split; [|split; [|split]].
  - destruct A as [A|A]; rewrite A; [exact V1 | apply Forall_map_delete; exact V1].
  - destruct C as [C|C]; rewrite C; [exact V2 | apply Forall_map_delete; exact V2].
  - destruct B as [B|B]; rewrite B; [exact V3 | apply Forall_map_delete; exact V3].
  - destruct B as [B|B]; rewrite B; [exact V4 | apply Forall_map_delete; exact V4].
Qed.

(** ** The invariant of reachable instances *)

Definition inv (s : st) : Prop := wf s /\ sized s /\ vals s.

Lemma inv_delete : forall k s, inv s -> inv (fst (delete k s)).
Proof.
  intros k s (W & Z & V). split; [apply wf_delete; exact W|].
  split; [apply sized_delete; assumption | apply vals_delete; exact V].
Qed.

Lemma inv_quiet : forall s s', same_maps s s' -> currentSize s' = currentSize s -> inv s -> inv s'.
Proof.
  intros s s' M C (W & Z & V). split; [exact (wf_same_maps _ _ M W)|].
  split; [|exact (vals_same_maps _ _ M V)].
  unfold sized in *. rewrite C, (count_same_maps _ _ M). exact Z.
Qed.

Lemma inv_updateLRU : forall k s, inv s -> inv (updateLRU k s).
Proof.
  intros k s H. apply (inv_quiet s); [apply updateLRU_maps | | exact H].
  unfold updateLRU. destruct (lru_has k s); reflexivity.
Qed.

Lemma inv_pre_steps : forall k s s2, pre_steps k s s2 -> inv s -> inv s2.
Proof.
  intros k s s2 P H. induction P as [|s' k' P IH|s' P IH].
  - exact H.
  - apply inv_delete. exact IH.
  - apply inv_updateLRU. exact IH.
Qed.

Lemma inv_set : forall k v ttl s, inv s -> inv (outcome_state (set k v ttl s)).
Proof.
  intros k v ttl s H.
  destruct (validateInputs k v) eqn:Hv.
  { unfold set. rewrite Hv. exact H. }
  destruct (set_shape k v ttl s Hv) as (P & Ha & _ & [E | (e & Ve & Ho & M & Cs & _ & _ & _)]).
  { rewrite E. exact (inv_pre_steps _ _ _ P H). }
  pose proof (inv_pre_steps _ _ _ P H) as (W2 & Z2 & V2).
  set (s' := outcome_state (set k v ttl s)) in *. clearbody s'.
  assert (Nv : is_nullish v = false).
  { unfold validateInputs in Hv. destruct (is_nullish k); [discriminate|].
    destruct (is_nullish v); [discriminate | reflexivity]. }
  split; [|split].
  - apply (wf_same_maps _ _ M). destruct W2 as (a & b & c).
    unfold store, wf; destruct (classify k) eqn:C; unfold_setters; cbn;
      (split; [|split]); first [assumption | apply wf_map_set; assumption].
  - unfold sized in *. rewrite Cs, (count_same_maps _ _ M), count_store_absent by exact Ha.
    rewrite Z2. lia.
  - apply (vals_same_maps _ _ M). destruct V2 as (a & b & c & d).
    unfold store, vals; destruct (classify k) eqn:C; unfold_setters; cbn;
      repeat split; try assumption;
      apply Forall_map_set; try assumption; intro; cbn; rewrite ?Ve; auto.
Qed.

Lemma inv_get : forall k s, inv s -> inv (fst (get k s)).
Proof.
  intros k s H. unfold get. destruct (getEntry k s) as [[e|] kt]; [|exact H].
  destruct (_ && _); [apply inv_delete; exact H|].
  pose proof (inv_updateLRU k s H) as H'.
  destruct kt; try exact H'.
  destruct (negb (truthy (deref (updateLRU k s) (value e)))); [apply inv_delete|]; exact H'.
Qed.

Lemma inv_deleteAll : forall ks s, inv s -> inv (deleteAll ks s).
Proof.
  induction ks as [|k ks IH]; intros s H; [exact H|].
  simpl. apply IH. apply inv_delete. exact H.
Qed.

Lemma inv_size : forall s, inv s -> inv (fst (size s)).
Proof.
  intros s H. unfold size.
  destruct (sweep_count _ (stringCache s) _) as [n dead]. apply inv_deleteAll. exact H.
Qed.

Lemma inv_keys : forall s, inv s -> inv (fst (keys s)).
Proof.
  intros s H. unfold keys.
  destruct (sweep _ (stringCache s) _) as [l dead]. apply inv_deleteAll. exact H.
Qed.

Lemma inv_clear : forall s, inv (clear s).
Proof.
  intro s. split; [apply wf_clear|]. unfold clear, sized, vals, vals_map, count. cbn.
  repeat split; constructor.
Qed.

Lemma vals_map_get : forall m k e, vals_map m -> map_get k m = Some e -> is_nullish (value e) = false.
Proof.
  intros m k e H E. unfold vals_map in H. rewrite Forall_forall in H.
  apply (H (k, e)). apply map_get_Some_In. exact E.
Qed.

Lemma inv_updateTtl : forall k t s, inv s -> inv (fst (updateTtl k t s)).
Proof.
  intros k t s H. pose proof H as (W & Z & V1 & V2 & V3 & V4).
  split; [apply wf_updateTtl; exact W|].
  unfold updateTtl.
  destruct (map_get k (cache s)) as [e|] eqn:E1.
  { assert (Hw : can_be_held_weakly (value e) = true).
    { rewrite Forall_forall in V4. apply (V4 (k, e)). apply map_get_Some_In. exact E1. }
    pose proof (vals_map_get _ _ _ V3 E1) as Hn.
    unfold clearTimeout, createTtlTimeout. destruct (timeoutId e); unfold sized, count, vals in *;
      unfold_setters; cbn; rewrite (length_map_set_present _ _ _ _ E1);
      (split; [exact Z|]); repeat split; try assumption; apply Forall_map_set; auto. }
  destruct (map_get k (symbolCache s)) as [e|] eqn:E2.
  { pose proof (vals_map_get _ _ _ V2 E2) as Hn.
    unfold clearTimeout, createTtlTimeout. destruct (timeoutId e); unfold sized, count, vals in *;
      unfold_setters; cbn; rewrite (length_map_set_present _ _ _ _ E2);
      (split; [exact Z|]); repeat split; try assumption; apply Forall_map_set; auto. }
  destruct (map_get k (stringCache s)) as [e|] eqn:E3.
  { pose proof (vals_map_get _ _ _ V1 E3) as Hn.
    unfold clearTimeout, createTtlTimeout. destruct (timeoutId e); unfold sized, count, vals in *;
      unfold_setters; cbn; rewrite (length_map_set_present _ _ _ _ E3);
      (split; [exact Z|]); repeat split; try assumption; apply Forall_map_set; auto. }
  exact (proj2 H).
Qed.

Lemma inv_notify : forall k v tok c s, inv s -> inv (outcome_state (getNotificationOnGC k v tok c s)).
Proof.
  intros k v tok c s H. unfold getNotificationOnGC.
  assert (R : forall b t k' o, inv (outcome_state (register b t k' o s))).
  { intros. apply (inv_quiet s); [apply register_maps | | exact H].
    unfold register. destruct (negb _); reflexivity. }
  destruct (validateInputs k v); [exact H|].
  destruct tok; try apply R; (destruct (can_be_held_weakly _); [apply R | exact H]).
Qed.

Lemma inv_rt : forall r s, inv s -> inv (with_rt r s).
Proof. intros r s H. apply (inv_quiet s); [unfold same_maps; unfold_setters; repeat split | reflexivity | exact H]. Qed.

Lemma inv_run_op : forall o s, inv s -> inv (run_op o s).
Proof.
  intros o s H. destruct o; cbn [run_op].
  - apply inv_set; exact H.
  - apply inv_get; exact H.
  - exact H.
  - apply inv_delete; exact H.
  - apply inv_clear.
  - apply inv_keys; exact H.
  - apply inv_size; exact H.
  - exact H.
  - apply inv_updateTtl; exact H.
  - apply inv_notify; exact H.
  - unfold fire. destruct (find _ _) as [t|]; [|exact H].
    apply inv_delete. apply inv_rt. exact H.
  - unfold finalize. destruct (_ && _); [|exact H].
    destruct (regShared g); [apply inv_delete|]; apply inv_rt; exact H.
  - apply inv_rt; exact H.
  - apply inv_rt; exact H.
Qed.

Lemma reachable_inv : forall s, reachable s -> inv s.
Proof.
  induction 1 as [h t0 d m s Hn | o s _ IH].
  - unfold new_SmartCache in Hn.
    destruct (negb (hasFinalizationRegistry h)); [discriminate|].
    injection Hn as <-. split; [|split].
    + unfold wf. cbn. repeat split; constructor.
    + reflexivity.
    + unfold vals, vals_map. cbn. repeat split; constructor.
  - apply inv_run_op. exact IH.
Qed.


(** ** Reads on reachable instances *)

Lemma reach_fresh_plain : reachable fresh_plain.
Proof. apply (reach_new node_host 1000 None None). reflexivity. Qed.

Lemma reach_fresh_max2 : reachable fresh_max2.
Proof. apply (reach_new node_host 1000 None (Some 2)). reflexivity. Qed.

Lemma inv_entry : forall k s e, inv s -> fst (getEntry k s) = Some e ->
  is_nullish (value e) = false /\ (classify k = KObject -> can_be_held_weakly (value e) = true).
Proof.
  intros k s e (_ & _ & V1 & V2 & V3 & V4) H. unfold getEntry in H.
  destruct (classify k); cbn in H.
  - split; [eapply vals_map_get; [|exact H]; assumption | intro HC; discriminate HC].
  - split; [eapply vals_map_get; [|exact H]; assumption | intro HC; discriminate HC].
  - split; [eapply vals_map_get; [|exact H]; assumption|]. intros _.
    apply map_get_Some_In in H. rewrite Forall_forall in V4. exact (V4 _ H).
Qed.

Lemma holdable_truthy : forall v, can_be_held_weakly v = true -> truthy v = true.
Proof. intros [] H; try discriminate; reflexivity. Qed.

Lemma map_get_In_NoDup : forall k e m, NoDup (map fst m) -> In (k, e) m -> map_get k m = Some e.
Proof.
  intros k e m Hnd Hin.
  destruct (map_get_In_key k m) as [e' He'].
  { apply in_map_iff. exists (k, e). split; [reflexivity | exact Hin]. }
  rewrite He'. f_equal. apply (NoDup_fst_unique m k e' e Hnd); [apply map_get_Some_In; exact He' | exact Hin].
Qed.

Lemma in_live_map : forall c (f : entry -> bool) m k, wf_map c m ->
  In k (map fst (filter (fun p => f (snd p)) m)) <->
  classify k = c /\ exists e, map_get k m = Some e /\ f e = true.
Proof.
  intros c f m k W. rewrite in_map_iff. split.
  - intros [[k' e] [Hk Hin]]. cbn in Hk. subst k'. apply filter_In in Hin as [Hin Hf].
    split; [exact (wf_map_class _ _ _ _ W Hin)|]. exists e. split; [|exact Hf].
    apply map_get_In_NoDup; [exact (proj1 W) | exact Hin].
  - intros [_ [e [G Hf]]]. exists (k, e). split; [reflexivity|]. apply filter_In.
    split; [apply map_get_Some_In; exact G | exact Hf].
Qed.

Lemma keys_live : forall s, snd (keys s) =
  map fst (filter (fun p => alive_object s (snd p)) (cache s)) ++
  map fst (filter (fun p => alive_plain s (snd p)) (symbolCache s)) ++
  map fst (filter (fun p => alive_plain s (snd p)) (stringCache s)).
Proof.
  intro s. unfold keys. cbv zeta. rewrite !sweep_spec. simpl snd.
  rewrite ?app_nil_l, <- ?app_assoc. reflexivity.
Qed.

Lemma size_parts : forall s,
  size s = (deleteAll (map fst (filter (fun p => negb (alive_object s (snd p))) (cache s))
                       ++ map fst (filter (fun p => negb (alive_plain s (snd p))) (symbolCache s))
                       ++ map fst (filter (fun p => negb (alive_plain s (snd p))) (stringCache s))) s,
            Z.of_nat (List.length (filter (fun p => alive_object s (snd p)) (cache s))
                      + List.length (filter (fun p => alive_plain s (snd p)) (symbolCache s))
                      + List.length (filter (fun p => alive_plain s (snd p)) (stringCache s)))).
Proof.
  intro s. unfold size. cbv zeta. rewrite !sweep_count_spec.
  rewrite ?app_nil_l, <- ?app_assoc. f_equal. lia.
Qed.

Lemma deleteAll_keeps_absent : forall ks k s,
  fst (getEntry k s) = None -> fst (getEntry k (deleteAll ks s)) = None.
Proof.
  induction ks as [|k' ks IH]; intros k s H; [exact H|].
  simpl. apply IH. apply getEntry_delete_absent. exact H.
Qed.

Lemma deleteAll_absent : forall ks k s, In k ks -> fst (getEntry k (deleteAll ks s)) = None.
Proof.
  induction ks as [|k' ks IH]; intros k s H; [contradiction|].
  simpl. destruct H as [<-|H].
  - apply deleteAll_keeps_absent. apply getEntry_delete.
  - apply IH. exact H.
Qed.

Lemma filter_all_true : forall (A : Type) (f : A -> bool) l,
  Forall (fun x => f x = true) l -> filter f l = l /\ filter (fun x => negb (f x)) l = [].
Proof.
  intros A f. induction l as [|x l IH]; intro H; [split; reflexivity|].
  inversion H as [|? ? Hx Hl]; subst. simpl. rewrite Hx. simpl.
  destruct (IH Hl) as [E1 E2]. rewrite E1, E2. split; reflexivity.
Qed.

(** After the sweep of [size] every entry left is alive. *)
Lemma size_all_alive : forall s, wf s ->
  let s1 := fst (size s) in
  Forall (fun p => alive_object s1 (snd p) = true) (cache s1) /\
  Forall (fun p => alive_plain s1 (snd p) = true) (symbolCache s1) /\
  Forall (fun p => alive_plain s1 (snd p) = true) (stringCache s1).
Proof.
  intros s Hwf s1.
  assert (E : s1 = deleteAll (map fst (filter (fun p => negb (alive_object s (snd p))) (cache s))
                       ++ map fst (filter (fun p => negb (alive_plain s (snd p))) (symbolCache s))
                       ++ map fst (filter (fun p => negb (alive_plain s (snd p))) (stringCache s))) s)
    by (subst s1; rewrite size_parts; reflexivity).
  clearbody s1.
  assert (Hs : swept_from s s1) by (rewrite E; apply swept_from_deleteAll;
                                    [apply swept_from_refl | apply dead_keys_dead; exact Hwf]).
  assert (W1 : wf s1) by (rewrite E; apply wf_deleteAll; exact Hwf).
  destruct Hs as (I1 & I2 & I3 & V & _).
  destruct W1 as (X1 & X2 & X3).
  split; [|split]; apply Forall_forall; intros [k e] Hin; cbn [snd];
    [rewrite (alive_object_view s s1 e V) | rewrite (alive_plain_view s s1 e V)
    | rewrite (alive_plain_view s s1 e V)];
    match goal with |- ?b = true => destruct b eqn:A; [reflexivity|exfalso] end.
  - assert (Hk : fst (getEntry k s1) = None).
    { rewrite E. apply deleteAll_absent. apply in_or_app. left.
      apply in_map_iff. exists (k, e). split; [reflexivity|]. apply filter_In.
      split; [apply I1; exact Hin | cbn; rewrite A; reflexivity]. }
    unfold getEntry in Hk. rewrite (wf_map_class _ _ _ _ X3 Hin) in Hk. cbn in Hk.
    rewrite (map_get_In_NoDup k e _ (proj1 X3) Hin) in Hk. discriminate.
  - assert (Hk : fst (getEntry k s1) = None).
    { rewrite E. apply deleteAll_absent. apply in_or_app. right. apply in_or_app. left.
      apply in_map_iff. exists (k, e). split; [reflexivity|]. apply filter_In.
      split; [apply I2; exact Hin | cbn; rewrite A; reflexivity]. }
    unfold getEntry in Hk. rewrite (wf_map_class _ _ _ _ X2 Hin) in Hk. cbn in Hk.
    rewrite (map_get_In_NoDup k e _ (proj1 X2) Hin) in Hk. discriminate.
  - assert (Hk : fst (getEntry k s1) = None).
    { rewrite E. apply deleteAll_absent. apply in_or_app. right. apply in_or_app. right.
      apply in_map_iff. exists (k, e). split; [reflexivity|]. apply filter_In.
      split; [apply I3; exact Hin | cbn; rewrite A; reflexivity]. }
    unfold getEntry in Hk. rewrite (wf_map_class _ _ _ _ X1 Hin) in Hk. cbn in Hk.
    rewrite (map_get_In_NoDup k e _ (proj1 X1) Hin) in Hk. discriminate.
Qed.

Lemma size_swept : forall s, wf s -> swept_from s (fst (size s)).
Proof.
  intros s Hwf. rewrite size_parts. apply swept_from_deleteAll;
    [apply swept_from_refl | apply dead_keys_dead; exact Hwf].
Qed.

(** ** Lookups after writes *)

Lemma map_get_set_other : forall k k' e m, k' <> k -> map_get k' (map_set k e m) = map_get k' m.
Proof.
  intros k k' e. induction m as [|[k0 e0] m IH]; intro H; simpl.
  - destruct (jsval_eqb k' k) eqn:E; [apply jsval_eqb_eq in E; congruence | reflexivity].
  - destruct (jsval_eqb k k0) eqn:E; simpl.
    + apply jsval_eqb_eq in E. subst k0.
      destruct (jsval_eqb k' k) eqn:E'; [apply jsval_eqb_eq in E'; congruence | reflexivity].
    + destruct (jsval_eqb k' k0); [reflexivity | apply IH; exact H].
Qed.

Lemma map_get_delete_other : forall k k' m, k' <> k -> map_get k' (map_delete k m) = map_get k' m.
Proof.
  intros k k'. induction m as [|[k0 e0] m IH]; intro H; [reflexivity|].
  unfold map_delete in *. simpl.
  destruct (jsval_eqb k k0) eqn:E; simpl.
  - apply jsval_eqb_eq in E. subst k0.
    destruct (jsval_eqb k' k) eqn:E'; [apply jsval_eqb_eq in E'; congruence | apply IH; exact H].
  - destruct (jsval_eqb k' k0); [reflexivity | apply IH; exact H].
Qed.

Lemma getEntry_delete_other : forall k k' s, k' <> k ->
  fst (getEntry k' (fst (delete k s))) = fst (getEntry k' s).
Proof.
  intros k k' s H. destruct (delete_shape k s) as (A & B & C & _).
  unfold getEntry. destruct (classify k'); simpl.
  - destruct A as [A|A]; rewrite A; [reflexivity | apply map_get_delete_other; exact H].
  - destruct C as [C|C]; rewrite C; [reflexivity | apply map_get_delete_other; exact H].
  - destruct B as [B|B]; rewrite B; [reflexivity | apply map_get_delete_other; exact H].
Qed.

Lemma getEntry_store_other : forall c k k' e s, k' <> k ->
  fst (getEntry k' (store c k e s)) = fst (getEntry k' s).
Proof.
  intros c k k' e s H. unfold getEntry, store.
  destruct c, (classify k'); unfold_setters; cbn; try reflexivity; apply map_get_set_other; exact H.
Qed.

Lemma getTtl_entry : forall k s e, wf s -> fst (getEntry k s) = Some e ->
  getTtl k s = match expiresAt e with
               | Some x => if Z.eqb x 0 then None else Some (Z.max 0 (x - now (rt s)), x)
               | None => None
               end.
Proof.
  intros k s e (W1 & W2 & W3) H. unfold getTtl. unfold getEntry in H.
  destruct (classify k) eqn:C; simpl in H.
  - rewrite (wf_map_get_other _ _ k W3) by (rewrite C; discriminate).
    rewrite (wf_map_get_other _ _ k W2) by (rewrite C; discriminate).
    rewrite H. reflexivity.
  - rewrite (wf_map_get_other _ _ k W3) by (rewrite C; discriminate).
    rewrite H. reflexivity.
  - rewrite H. reflexivity.
Qed.

Lemma getTtl_absent : forall k s, wf s -> fst (getEntry k s) = None -> getTtl k s = None.
Proof.
  intros k s (W1 & W2 & W3) H. unfold getTtl. unfold getEntry in H.
  destruct (classify k) eqn:C; simpl in H.
  - rewrite (wf_map_get_other _ _ k W3) by (rewrite C; discriminate).
    rewrite (wf_map_get_other _ _ k W2) by (rewrite C; discriminate).
    rewrite H. reflexivity.
  - rewrite (wf_map_get_other _ _ k W3) by (rewrite C; discriminate).
    rewrite H, (wf_map_get_other _ _ k W1) by (rewrite C; discriminate). reflexivity.
  - rewrite H, (wf_map_get_other _ _ k W2), (wf_map_get_other _ _ k W1)
      by (rewrite C; discriminate). reflexivity.
Qed.

Lemma updateTtl_absent : forall k t s, wf s -> fst (getEntry k s) = None -> updateTtl k t s = (s, false).
Proof.
  intros k t s (W1 & W2 & W3) H. unfold updateTtl. unfold getEntry in H.
  destruct (classify k) eqn:C; simpl in H.
  - rewrite (wf_map_get_other _ _ k W3) by (rewrite C; discriminate).
    rewrite (wf_map_get_other _ _ k W2) by (rewrite C; discriminate).
    rewrite H. reflexivity.
  - rewrite (wf_map_get_other _ _ k W3) by (rewrite C; discriminate).
    rewrite H, (wf_map_get_other _ _ k W1) by (rewrite C; discriminate). reflexivity.
  - rewrite H, (wf_map_get_other _ _ k W2), (wf_map_get_other _ _ k W1)
      by (rewrite C; discriminate). reflexivity.
Qed.

Lemma lru_remove_absent : forall k l, existsb (jsval_eqb k) l = false -> lru_remove k l = l.
Proof.
  intro k. induction l as [|x l IH]; intro H; [reflexivity|].
  simpl in H. apply orb_false_iff in H as [H1 H2].
  unfold lru_remove in *. simpl. rewrite H1. simpl. f_equal. apply IH. exact H2.
Qed.

Lemma lru_updateLRU : forall k s, lru (updateLRU k s) = lru_remove k (lru s) ++ [k].
Proof.
  intros k s. unfold updateLRU. destruct (lru_has k s) eqn:L; [reflexivity|].
  cbn. rewrite lru_remove_absent by exact L. reflexivity.
Qed.

(** [delete] lowers [#currentSize] by one exactly when it removes an entry. *)
Lemma delete_size : forall k s,
  currentSize (fst (delete k s)) =
  currentSize s - match fst (getEntry k s) with Some _ => 1 | None => 0 end.
Proof.
  intros k s. unfold delete, getEntry.
  destruct (lru_has k s); destruct (classify k); unfold_setters; cbn;
    match goal with |- context [map_get ?a ?b] => destruct (map_get a b) end; cbn;
    try lia;
    unfold deleteStringEntry, deleteSymbolEntry, deleteEntry, clearTimeout, unregister_opt,
      unregister; unfold_setters;
    repeat match goal with
           | |- context [timeoutId ?e] => destruct (timeoutId e)
           | |- context [unregisterToken ?e] => destruct (unregisterToken e)
           end; cbn; lia.
Qed.

Lemma updateLRU_getEntry : forall k k' s, getEntry k' (updateLRU k s) = getEntry k' s.
Proof. intros. apply getEntry_same_maps. apply updateLRU_maps. Qed.

Lemma updateLRU_size : forall k s, currentSize (updateLRU k s) = currentSize s.
Proof. intros k s. unfold updateLRU. destruct (lru_has k s); reflexivity. Qed.

Lemma registration_eqb_refl : forall g, registration_eqb g g = true.
Proof.
  intros [t k tok b]. unfold registration_eqb. cbn.
  rewrite !jsval_eqb_refl. destruct tok as [[n|v]|]; cbn;
    rewrite ?Nat.eqb_refl, ?jsval_eqb_refl; destruct b; reflexivity.
Qed.

Lemma existsb_In : forall (A : Type) (f : A -> bool) x l, In x l -> f x = true -> existsb f l = true.
Proof. intros A f x l H1 H2. apply existsb_exists. exists x. split; assumption. Qed.

Lemma fold_frame : forall (A : Type) (f : st -> A -> st) l s,
  (forall s a, frame s (f s a)) -> frame s (fold_left f l s).
Proof.
  intros A f. induction l as [|a l IH]; intros s H; [apply frame_refl|].
  simpl. eapply frame_trans; [apply H | apply IH; exact H].
Qed.

Lemma frame_clear : forall s, frame s (clear s).
Proof.
  intro s. unfold clear. cbv zeta.
  match goal with |- frame s (mkSt _ _ _ (defaultTtl ?x) (maxSize ?x) _ _ (rt ?x)) =>
    assert (F : frame s x) end.
  { eapply frame_trans; [eapply frame_trans|]; apply fold_frame; intros;
      first [apply frame_clearTimeout
            | eapply frame_trans; [apply frame_clearTimeout | apply frame_unregister_opt]]. }
  destruct F as (a & b & c & d & f). unfold frame; cbn. repeat split; assumption.
Qed.


(** ** The LRU ledger has one node per key *)

Lemma lru_remove_notin : forall k l, ~ In k (lru_remove k l).
Proof.
  intros k l H. unfold lru_remove in H. apply filter_In in H as [_ H].
  rewrite jsval_eqb_refl in H. discriminate.
Qed.

Lemma NoDup_lru_remove : forall k l, NoDup l -> NoDup (lru_remove k l).
Proof. intros k l H. apply NoDup_filter. exact H. Qed.

Lemma NoDup_lru_tail : forall k l, NoDup l -> NoDup (lru_remove k l ++ [k]).
Proof.
  intros k l H. apply NoDup_app; [apply NoDup_lru_remove; exact H | repeat constructor; intros [] |].
  intros x H1 [<-|[]]. exact (lru_remove_notin _ _ H1).
Qed.

Lemma NoDup_lru_delete : forall k s, NoDup (lru s) -> NoDup (lru (fst (delete k s))).
Proof.
  intros k s H. rewrite lru_delete. destruct (lru_has k s); [apply NoDup_lru_remove|]; exact H.
Qed.

Lemma NoDup_lru_updateLRU : forall k s, NoDup (lru s) -> NoDup (lru (updateLRU k s)).
Proof. intros k s H. rewrite lru_updateLRU. apply NoDup_lru_tail. exact H. Qed.

Lemma NoDup_lru_pre_steps : forall k s s2, pre_steps k s s2 -> NoDup (lru s) -> NoDup (lru s2).
Proof.
  intros k s s2 P H. induction P as [|s' k' P IH|s' P IH].
  - exact H.
  - apply NoDup_lru_delete. exact IH.
  - apply NoDup_lru_updateLRU. exact IH.
Qed.

Lemma NoDup_lru_deleteAll : forall ks s, NoDup (lru s) -> NoDup (lru (deleteAll ks s)).
Proof.
  induction ks as [|k ks IH]; intros s H; [exact H|]. simpl. apply IH. apply NoDup_lru_delete. exact H.
Qed.

Lemma lru_updateTtl : forall k t s, lru (fst (updateTtl k t s)) = lru s.
Proof.
  intros k t s. unfold updateTtl.
  repeat match goal with |- context [map_get ?a ?b] => destruct (map_get a b) end; cbv beta zeta;
    unfold clearTimeout, createTtlTimeout;
    repeat match goal with |- context [timeoutId ?e] => destruct (timeoutId e) end;
    reflexivity.
Qed.

Lemma quiet_notify : forall k v tok c s, quiet s (outcome_state (getNotificationOnGC k v tok c s)).
Proof.
  intros k v tok c s. unfold getNotificationOnGC.
  destruct (validateInputs k v); [apply quiet_refl|].
  destruct tok; [apply quiet_register|..]; destruct (can_be_held_weakly _);
    first [apply quiet_register | apply quiet_refl].
Qed.

Lemma NoDup_lru_run_op : forall o s, NoDup (lru s) -> NoDup (lru (run_op o s)).
Proof.
  intros o s H. destruct o; cbn [run_op].
  - destruct (validateInputs k v) eqn:Hv.
    + unfold set. rewrite Hv. exact H.
    + destruct (set_shape k v ttl s Hv) as (P & _ & _ & [E | (e & _ & _ & _ & _ & L & _)]).
      * rewrite E. exact (NoDup_lru_pre_steps _ _ _ P H).
      * rewrite L. exact (NoDup_lru_pre_steps _ _ _ P H).
  - unfold get. destruct (getEntry k s) as [[e|] kt]; [|exact H].
    destruct (_ && _); [apply NoDup_lru_delete; exact H|].
    destruct kt; try (apply NoDup_lru_updateLRU; exact H).
    destruct (negb _); [apply NoDup_lru_delete|]; apply NoDup_lru_updateLRU; exact H.
  - exact H.
  - apply NoDup_lru_delete. exact H.
  - constructor.
  - unfold keys. destruct (sweep _ (stringCache s) _) as [live dead]. apply NoDup_lru_deleteAll. exact H.
  - unfold size. destruct (sweep_count _ (stringCache s) _) as [n dead]. apply NoDup_lru_deleteAll. exact H.
  - exact H.
  - rewrite lru_updateTtl. exact H.
  - destruct (quiet_notify k v tok hasCleanup s) as (_ & L & _). rewrite L. exact H.
  - unfold fire. destruct (find _ _); [apply NoDup_lru_delete|]; exact H.
  - unfold finalize. destruct (_ && _); [|exact H]. destruct (regShared g); [apply NoDup_lru_delete|]; exact H.
  - exact H.
  - exact H.
Qed.


(** * The claims *)

(** ** C3: reads after a TTL deadline *)




(** ** C4: [ttl: 0] *)



(** ** C5: [has] on an expired or collected entry *)

(** C5 (amended).  On an entry that is expired, or whose target has been
    collected under an object key, [has(k)] answers [false], and it does not
    purge: the instance is unchanged and the entry is still in its map. *)
Theorem has_no_purge : forall k s e,
  fst (getEntry k s) = Some e ->
  (isExpired s (expiresAt e) = true \/ (classify k = KObject /\ deref s (value e) = JUndefined)) ->
  has k s = false /\ run_op (OHas k) s = s /\ fst (getEntry k (run_op (OHas k) s)) = Some e.
Proof.
  intros k s e He Hd. rewrite (has_entry k s e He). split; [|split; [reflexivity | exact He]].
  destruct Hd as [Hx | [C Hd]]; [rewrite Hx; reflexivity|].
  destruct (isExpired s (expiresAt e)); [reflexivity|]. rewrite C, Hd. reflexivity.
Qed.

Lemma has_no_purge_witness :
  fst (getEntry (JStr "k") (tick 1101 ttl_run))
    = Some (mkEntry (JObj 1) (Some 0%nat) (Some 1100) 1000 None) /\
  has (JStr "k") (tick 1101 ttl_run) = false.
Proof.
  split; [reflexivity|].
  exact (proj1 (has_no_purge (JStr "k") (tick 1101 ttl_run)
                  (mkEntry (JObj 1) (Some 0%nat) (Some 1100) 1000 None) eq_refl (or_introl eq_refl))).
Defined.

(** C5 (counterexample).  At time 1101 the entry of [ttl_run] has expired:
    [has("k")] is [false] and leaves the entry in the string map, while
    [get("k")] removes it. *)
Lemma has_keeps_expired_entry :
  has (JStr "k") (tick 1101 ttl_run) = false /\
  map_get (JStr "k") (stringCache (run_op (OHas (JStr "k")) (tick 1101 ttl_run))) <> None /\
  map_get (JStr "k") (stringCache (run_op (OGet (JStr "k")) (tick 1101 ttl_run))) = None.
Proof. split; [reflexivity | split; [discriminate | reflexivity]]. Qed.

(** ** C7: idempotent [delete] *)

(** C7.  [delete(k)] never throws (it returns a pair, not an outcome); on an
    absent key it returns [false]; on a present key it returns [true], and
    a second [delete(k)] returns [false] and leaves the instance exactly as
    the first call left it. *)
Theorem delete_idempotent : forall s k,
  (fst (getEntry k s) = None -> snd (delete k s) = false) /\
  (fst (getEntry k s) <> None ->
     snd (delete k s) = true /\ delete k (fst (delete k s)) = (fst (delete k s), false)).
Proof.
  intros s k. rewrite delete_result. split.
  - intro H. rewrite H. reflexivity.
  - intro H. split.
    + destruct (fst (getEntry k s)); [reflexivity | congruence].
    + apply delete_absent; [apply lru_has_delete | apply getEntry_delete].
Qed.

Lemma delete_idempotent_witness :
  fst (getEntry (JStr "k") ttl_run) <> None /\
  snd (delete (JStr "k") ttl_run) = true /\
  delete (JStr "k") (fst (delete (JStr "k") ttl_run)) = (fst (delete (JStr "k") ttl_run), false).
Proof.
  split; [discriminate|].
  exact (proj2 (delete_idempotent ttl_run (JStr "k")) ltac:(discriminate)).
Defined.


(** ** C6: input validation *)

(** C6 (amended).  [set] and [getNotificationOnGC] throw the validation
    error, before any write, exactly when the key or the value is [null] or
    [undefined]; with any other key and value (a string or number value
    included) neither of them throws the validation error. *)
Theorem validation_nullish_only : forall k v ttl tok c s,
  (is_nullish k || is_nullish v = true ->
     set k v ttl s = Throw ValidationError s /\
     getNotificationOnGC k v tok c s = Throw ValidationError s) /\
  (is_nullish k || is_nullish v = false ->
     (forall e s', set k v ttl s = Throw e s' -> e <> ValidationError) /\
     (forall e s', getNotificationOnGC k v tok c s = Throw e s' -> e <> ValidationError)).
Proof.
  intros k v ttl tok c s.
  pose proof (validateInputs_nullish k v) as Hv. split.
  - intro H. rewrite H in Hv. unfold set, getNotificationOnGC. rewrite Hv. split; reflexivity.
  - intro H. rewrite H in Hv. split.
    + intros e s'. apply set_no_validation_error. exact Hv.
    + intros e s'. apply notify_no_validation_error. exact Hv.
Qed.

Lemma validation_nullish_only_witness :
  set (JStr "a") JUndefined None ttl_run = Throw ValidationError ttl_run /\
  getNotificationOnGC (JStr "a") JUndefined JUndefined false ttl_run = Throw ValidationError ttl_run.
Proof.
  exact (proj1 (validation_nullish_only (JStr "a") JUndefined None JUndefined false ttl_run) eq_refl).
Defined.

(** C6 (counterexample).  A number value is not rejected: [set("a", 5)]
    stores it and [get("a")] returns it; [getNotificationOnGC] with the same
    value fails in [register] with a [TypeError], not a validation error. *)
Lemma number_value_accepted :
  (exists s1, set (JStr "a") (JNum 5) None fresh_plain = Ok s1 tt /\
              snd (get (JStr "a") s1) = JNum 5) /\
  getNotificationOnGC (JStr "a") (JNum 5) JUndefined false fresh_plain = Throw TypeError fresh_plain.
Proof. split; [eexists; split; reflexivity | reflexivity]. Qed.

(** ** C8: [size] and [keys] *)

(** C8.  In every reachable instance, reading [size] and then [keys()] with
    nothing in between gives a size equal to the length of the array of
    keys. *)
Theorem size_keys_consistent : forall s, reachable s ->
  let '(s1, n) := size s in n = Z.of_nat (List.length (snd (keys s1))).
Proof.
  intros s Hr. pose proof (reachable_wf s Hr) as Hwf.
  unfold size. cbv zeta. rewrite !sweep_count_spec.
  match goal with |- context [deleteAll ?d s] => set (s1 := deleteAll d s) end.
  assert (Hs : swept_from s s1).
  { apply swept_from_deleteAll; [apply swept_from_refl|].
    rewrite app_nil_l, <- app_assoc. apply dead_keys_dead. exact Hwf. }
  unfold keys. cbv zeta. rewrite !sweep_spec. simpl snd.
  destruct Hs as (_ & _ & _ & V & F1 & F2 & F3).
  rewrite (filter_ext (fun p => alive_object s1 (snd p)) (fun p => alive_object s (snd p)))
    by (intro; apply alive_object_view; exact V).
  rewrite !(filter_ext (fun p => alive_plain s1 (snd p)) (fun p => alive_plain s (snd p)))
    by (intro; apply alive_plain_view; exact V).
  rewrite F1, F2, F3. rewrite !length_app, !length_map. simpl. lia.
Qed.

Lemma size_keys_consistent_witness :
  reachable (run_op (OTick 1101) ttl_run) /\
  let '(s1, n) := size (run_op (OTick 1101) ttl_run) in n = Z.of_nat (List.length (snd (keys s1))).
Proof.
  assert (R : reachable (run_op (OTick 1101) ttl_run)).
  { apply reach_op. apply (reach_op (OSet (JStr "k") (JObj 1) (Some 100)) fresh_plain).
    apply (reach_new node_host 1000 None None). reflexivity. }
  split; [exact R | exact (size_keys_consistent _ R)].
Defined.

(** ** C9: host capabilities *)

(** C9 (amended).  The constructor throws its configuration error exactly
    when the host has no [FinalizationRegistry].  A host without [WeakRef]
    is not detected at construction: the constructor returns an instance,
    and the first [set] of a non-array object or symbol value under an
    object key throws a [ReferenceError] from [new WeakRef]. *)
Theorem constructor_checks_registry_only : forall h t0 d m,
  (new_SmartCache h t0 d m = inl ConfigurationError <-> hasFinalizationRegistry h = false) /\
  (hasFinalizationRegistry h = true -> hasWeakRef h = false ->
     exists s, new_SmartCache h t0 d m = inr s /\
       forall k v ttl, classify k = KObject -> is_nullish k = false ->
         is_nullish v = false -> isArray v = false ->
         exists s', set k v ttl s = Throw ReferenceError s').
Proof.
  intros h t0 d m. unfold new_SmartCache. split.
  - destruct (hasFinalizationRegistry h); cbn; split; congruence.
  - intros Hf Hw. rewrite Hf. cbn. eexists. split; [reflexivity|].
    intros k v ttl C Nk Nv A. apply set_fresh_object_no_weakref; assumption.
Qed.

Lemma constructor_checks_registry_only_witness :
  exists s, new_SmartCache (mkHost false true) 1000 None None = inr s /\
    exists s', set (JObj 7) (JObj 8) None s = Throw ReferenceError s'.
Proof.
  destruct (proj2 (constructor_checks_registry_only (mkHost false true) 1000 None None)
              eq_refl eq_refl) as [s [E H]].
  exists s. split; [exact E|]. apply H; reflexivity.
Defined.

(** C9 (counterexample).  On a host with [FinalizationRegistry] but no
    [WeakRef] the constructor returns an instance. *)
Lemma constructor_accepts_missing_weakref :
  exists s, new_SmartCache (mkHost false true) 1000 None None = inr s.
Proof. eexists. reflexivity. Qed.

(** ** C10: [updateTtl(k, 0)] *)

(** C10 (amended).  On a key with an entry, [updateTtl(k, 0)] returns
    [true], sets the entry's [expiresAt] to the current time and arms a
    timer of delay 0 for the key.  A [get] or [has] at the same instant
    still finds the entry, for an object key while its target is not
    collected (the check is [Date.now() > expiresAt]); at any later time
    [get] and [has] report it missing, and the timer removes it when it
    fires.  ([set] with [ttl: 0] stores no expiry at all, see C4.) *)
Theorem updateTtl_zero_expiry : forall s k e,
  reachable s -> 0 < now (rt s) -> fst (getEntry k s) = Some e ->
  let '(s1, b) := updateTtl k 0 s in
  b = true /\
  (exists id,
     fst (getEntry k s1) = Some (mkEntry (value e) (Some id) (Some (now (rt s)))
                                         (accessTime e) (unregisterToken e)) /\
     In (mkTimer id k 0 (now (rt s))) (timers (rt s1))) /\
  has k s1 = match classify k with
             | KObject => negb (jsval_eqb (deref s (value e)) JUndefined)
             | _ => true
             end /\
  snd (get k s1) = match classify k with
                   | KObject => if truthy (deref s (value e)) then deref s (value e) else JUndefined
                   | _ => value e
                   end /\
  (forall t, now (rt s) < t -> snd (get k (tick t s1)) = JUndefined /\ has k (tick t s1) = false) /\
  (forall id tm, find (fun x => Nat.eqb (timerId x) id) (timers (rt s1)) = Some tm ->
     timerKey tm = k -> snd (get k (fire id s1)) = JUndefined /\ has k (fire id s1) = false).
Proof.
  intros s k e Hr Hpos He.
  pose proof (updateTtl_entry k 0 s e (reachable_wf s Hr) He) as U.
  destruct (updateTtl k 0 s) as [s1 b]. destruct U as (-> & F & id & He1 & Hin).
  rewrite Z.add_0_r in He1.
  set (e1 := mkEntry (value e) (Some id) (Some (now (rt s))) (accessTime e) (unregisterToken e)) in He1.
  split; [reflexivity|]. split; [exists id; split; assumption|].
  pose proof F as (Fn & Fc & _).
  assert (Hl : isExpired s1 (expiresAt e1) = false)
    by (subst e1; cbn [expiresAt]; unfold isExpired; rewrite Fn; apply Z.ltb_irrefl).
  split; [|split; [|split]].
  - rewrite (has_entry k s1 e1 He1), Hl. subst e1. cbn [value].
    rewrite (deref_frame s s1 _ F). reflexivity.
  - rewrite (get_live k s1 e1 He1 Hl). subst e1. cbn [value].
    rewrite (deref_frame s s1 _ F). reflexivity.
  - intros t Ht.
    assert (He2 : fst (getEntry k (tick t s1)) = Some e1) by (rewrite getEntry_tick; exact He1).
    assert (Hexp : isExpired (tick t s1) (expiresAt e1) = true).
    { subst e1. cbn [expiresAt]. unfold isExpired. rewrite now_tick, Fn. apply Z.ltb_lt. lia. }
    split.
    + apply (get_expired k _ e1 He2); [|exact Hexp].
      subst e1. cbn. apply negb_true_iff, Z.eqb_neq. lia.
    + rewrite (has_entry k _ e1 He2), Hexp. reflexivity.
  - intros id' tm Hf Hk. pose proof (fire_deletes id' tm s1 Hf) as D. rewrite Hk in D.
    split; [apply get_absent | apply has_absent]; exact D.
Qed.

Lemma updateTtl_zero_expiry_witness :
  reachable (run_op (OSet (JStr "k") (JObj 1) None) fresh_plain) /\
  fst (getEntry (JStr "k") (run_op (OSet (JStr "k") (JObj 1) None) fresh_plain))
    = Some (mkEntry (JObj 1) None None 1000 None) /\
  snd (updateTtl (JStr "k") 0 (run_op (OSet (JStr "k") (JObj 1) None) fresh_plain)) = true.
Proof.
  assert (R : reachable (run_op (OSet (JStr "k") (JObj 1) None) fresh_plain)).
  { apply reach_op. apply (reach_new node_host 1000 None None). reflexivity. }
  split; [exact R|]. split; [reflexivity|].
  pose proof (updateTtl_zero_expiry _ (JStr "k") (mkEntry (JObj 1) None None 1000 None) R
                ltac:(simpl; lia) eq_refl) as U.
  destruct (updateTtl (JStr "k") 0 (run_op (OSet (JStr "k") (JObj 1) None) fresh_plain)) as [s1 b].
  exact (proj1 U).
Defined.

(** C10 (counterexample).  [set("k", obj)] then [updateTtl("k", 0)] at time
    1000: the call returns [true], yet [get("k")] and [has("k")] at the same
    instant still find the entry. *)
Lemma updateTtl_zero_same_instant_live :
  snd update_zero_run = true /\
  snd (get (JStr "k") (fst update_zero_run)) = JObj 1 /\
  has (JStr "k") (fst update_zero_run) = true.
Proof. repeat split. Qed.

(** ** C1: the [maxSize] bound *)

(** C1 (failing input).  [new SmartCache({maxSize: 2})], then [set("A", a)],
    [set("B", b)], [set("C", c)]: all three calls return, [size] is 3 and
    [has("A")] is still [true]; [set] never links a new key into the LRU
    ledger, so [#evictLRU] finds it empty. *)
Theorem maxSize_not_enforced :
  (exists s1 s2,
     set (JStr "A") (JObj 1) None fresh_max2 = Ok s1 tt /\
     set (JStr "B") (JObj 2) None s1 = Ok s2 tt /\
     set (JStr "C") (JObj 3) None s2 = Ok lru_run tt) /\
  snd (size lru_run) = 3 /\
  has (JStr "A") lru_run = true /\ has (JStr "B") lru_run = true /\ has (JStr "C") lru_run = true /\
  lru lru_run = [].
Proof.
  split; [do 2 eexists; split; [reflexivity | split; reflexivity]|].
  repeat split.
Qed.

(** ** C2: the LRU ledger and the maps *)

(** C2 (failing input).  After [set("a", obj)] on a new instance, a
    reachable state, the string map holds one entry and the LRU ledger
    none. *)
Theorem ledger_misses_set_entry :
  reachable (run_op (OSet (JStr "a") (JObj 1) None) fresh_plain) /\
  List.length (stringCache (run_op (OSet (JStr "a") (JObj 1) None) fresh_plain)) = 1%nat /\
  lru (run_op (OSet (JStr "a") (JObj 1) None) fresh_plain) = [].
Proof.
  split; [|split; reflexivity].
  apply reach_op. apply (reach_new node_host 1000 None None). reflexivity.
Qed.


(** * Further properties of the embedding *)

(** ** Counters and sweeps *)

(** [getStats().size], the counter [#currentSize], equals the number of
    entries of the three maps in every reachable instance. *)
Theorem getStats_size_counts_entries : forall s, reachable s ->
  let g := getStats s in
  statsSize g = Z.of_nat (stringItems g + objectItems g + symbolItems g).
Proof. intros s Hr. destruct (reachable_inv s Hr) as (_ & Hz & _). exact Hz. Qed.

Lemma getStats_size_counts_entries_witness :
  reachable ttl_run /\
  statsSize (getStats ttl_run)
  = Z.of_nat (stringItems (getStats ttl_run) + objectItems (getStats ttl_run)
              + symbolItems (getStats ttl_run)).
Proof.
  assert (R : reachable ttl_run)
    by exact (reach_op (OSet (JStr "k") (JObj 1) (Some 100)) fresh_plain reach_fresh_plain).
  split; [exact R | exact (getStats_size_counts_entries ttl_run R)].
Defined.

(** When [has(key)] is [true] in a reachable instance, [get(key)] returns
    the stored value, which is neither [null] nor [undefined]. *)
Theorem has_then_get : forall k s, reachable s -> has k s = true ->
  exists e, fst (getEntry k s) = Some e /\ snd (get k s) = value e /\ is_nullish (value e) = false.
Proof.
  intros k s Hr H. pose proof (reachable_inv s Hr) as I.
  destruct (fst (getEntry k s)) as [e|] eqn:G; [|rewrite has_absent in H by exact G; discriminate].
  destruct (inv_entry k s e I G) as [Nn Hw].
  rewrite (has_entry k s e G) in H.
  destruct (isExpired s (expiresAt e)) eqn:X; [discriminate|].
  exists e. split; [reflexivity|]. split; [|exact Nn].
  rewrite (get_live k s e G X).
  destruct (classify k) eqn:C; try reflexivity.
  unfold deref in *. destruct (existsb _ _); [cbn in H; discriminate|].
  rewrite holdable_truthy by (apply Hw; reflexivity). reflexivity.
Qed.

Lemma has_then_get_witness :
  reachable ttl_run /\ has (JStr "k") ttl_run = true /\
  exists e, fst (getEntry (JStr "k") ttl_run) = Some e /\ snd (get (JStr "k") ttl_run) = value e /\
            is_nullish (value e) = false.
Proof.
  assert (R : reachable ttl_run)
    by exact (reach_op (OSet (JStr "k") (JObj 1) (Some 100)) fresh_plain reach_fresh_plain).
  assert (H : has (JStr "k") ttl_run = true) by reflexivity.
  split; [exact R | split; [exact H | exact (has_then_get (JStr "k") ttl_run R H)]].
Defined.

(** In a reachable instance [keys()] lists each key at most once, and
    lists exactly the keys for which [has] is [true]. *)
Theorem keys_exact : forall s, reachable s ->
  NoDup (snd (keys s)) /\ (forall k, In k (snd (keys s)) <-> has k s = true).
Proof.
  intros s Hr. destruct (reachable_wf s Hr) as (W1 & W2 & W3).
  rewrite keys_live. split.
  - apply NoDup_app; [apply NoDup_map_filter; exact (proj1 W3)| |].
    + apply NoDup_app; [apply NoDup_map_filter; exact (proj1 W2)
                       | apply NoDup_map_filter; exact (proj1 W1)|].
      intros x H1 H2.
      apply (in_live_map KSymbol _ _ x W2) in H1 as [C1 _].
      apply (in_live_map KString _ _ x W1) in H2 as [C2 _]. congruence.
    + intros x H1 H2. apply (in_live_map KObject _ _ x W3) in H1 as [C1 _].
      apply in_app_iff in H2 as [H2|H2];
        [apply (in_live_map KSymbol _ _ x W2) in H2 as [C2 _]
        |apply (in_live_map KString _ _ x W1) in H2 as [C2 _]]; congruence.
  - intro k. rewrite !in_app_iff, (in_live_map KObject _ _ k W3), (in_live_map KSymbol _ _ k W2),
      (in_live_map KString _ _ k W1).
    unfold has. destruct (classify k) eqn:C; split.
    + intros [[H _]|[[H _]|[_ [e [G A]]]]]; try discriminate. rewrite G. exact A.
    + intro H. right; right. split; [reflexivity|].
      destruct (map_get k (stringCache s)) as [e|]; [|discriminate]. exists e. split; [reflexivity | exact H].
    + intros [[H _]|[[_ [e [G A]]]|[H _]]]; try discriminate. rewrite G. exact A.
    + intro H. right; left. split; [reflexivity|].
      destruct (map_get k (symbolCache s)) as [e|]; [|discriminate]. exists e. split; [reflexivity | exact H].
    + intros [[_ [e [G A]]]|[[H _]|[H _]]]; try discriminate. rewrite G. exact A.
    + intro H. left. split; [reflexivity|].
      destruct (map_get k (cache s)) as [e|]; [|discriminate]. exists e. split; [reflexivity | exact H].
Qed.

Lemma keys_exact_witness :
  reachable ttl_run /\ NoDup (snd (keys ttl_run)) /\
  (forall k, In k (snd (keys ttl_run)) <-> has k ttl_run = true).
Proof.
  assert (R : reachable ttl_run)
    by exact (reach_op (OSet (JStr "k") (JObj 1) (Some 100)) fresh_plain reach_fresh_plain).
  split; [exact R | exact (keys_exact ttl_run R)].
Defined.

(** After [size] in a reachable instance, [#currentSize] equals the size
    returned, and a second [size] returns the same number and changes
    nothing. *)
Theorem size_settles : forall s, reachable s ->
  currentSize (fst (size s)) = snd (size s) /\ size (fst (size s)) = (fst (size s), snd (size s)).
Proof.
  intros s Hr. pose proof (reachable_wf s Hr) as Hwf.
  pose proof (inv_size s (reachable_inv s Hr)) as (_ & Z1 & _).
  pose proof (size_all_alive s Hwf) as (A1 & A2 & A3).
  pose proof (size_swept s Hwf) as (_ & _ & _ & V & F1 & F2 & F3).
  set (s1 := fst (size s)) in *. clearbody s1.
  destruct (filter_all_true _ _ _ A1) as [B1 C1].
  destruct (filter_all_true _ _ _ A2) as [B2 C2].
  destruct (filter_all_true _ _ _ A3) as [B3 C3].
  cbv beta in B1, B2, B3, C1, C2, C3.
  assert (Hn : snd (size s) = Z.of_nat (count s1)).
  { rewrite size_parts. cbn [snd]. rewrite <- F1, <- F2, <- F3.
    rewrite (filter_ext (fun p => alive_object s (snd p)) (fun p => alive_object s1 (snd p)))
      by (intro; symmetry; apply alive_object_view; exact V).
    rewrite !(filter_ext (fun p => alive_plain s (snd p)) (fun p => alive_plain s1 (snd p)))
      by (intro; symmetry; apply alive_plain_view; exact V).
    rewrite B1, B2, B3. unfold count. f_equal. lia. }
  rewrite Hn. split; [exact Z1|].
  rewrite (size_parts s1), C1, C2, C3, B1, B2, B3. cbn. f_equal. unfold count. f_equal. lia.
Qed.

Lemma size_settles_witness :
  reachable (run_op (OTick 1101) ttl_run) /\
  currentSize (fst (size (run_op (OTick 1101) ttl_run))) = snd (size (run_op (OTick 1101) ttl_run)) /\
  size (fst (size (run_op (OTick 1101) ttl_run)))
  = (fst (size (run_op (OTick 1101) ttl_run)), snd (size (run_op (OTick 1101) ttl_run))).
Proof.
  assert (R : reachable (run_op (OTick 1101) ttl_run)).
  { apply reach_op.
    exact (reach_op (OSet (JStr "k") (JObj 1) (Some 100)) fresh_plain reach_fresh_plain). }
  split; [exact R | exact (size_settles _ R)].
Defined.

(** ** [set] followed by reads *)

(** After a [set] that returns, with an effective ttl that is absent or not
    negative, [get] at the same instant returns the value and [has] is
    [true] (an object value must not have been collected meanwhile, and an
    array under an object key is not stored). *)
Theorem set_then_get : forall k v ttl s s1,
  set k v ttl s = Ok s1 tt ->
  (classify k = KObject -> isArray v = false) ->
  existsb (jsval_eqb v) (collected (rt s)) = false ->
  match (match ttl with Some t => Some t | None => defaultTtl s end) with
  | Some t => 0 <= t | None => True end ->
  snd (get k s1) = v /\ has k s1 = true.
Proof.
  intros k v ttl s s1 Hset Harr Hc Ht.
  destruct (set_stores k v ttl s s1 Hset Harr) as ((Fn & Fc & _) & Hw & e & G & Ve & Ee & _).
  assert (X : isExpired s1 (expiresAt e) = false).
  { rewrite Ee. unfold isExpired, expiryOf.
    destruct (match ttl with Some t => Some t | None => defaultTtl s end) as [t|]; [|reflexivity].
    destruct (negb (t =? 0)); [|reflexivity]. rewrite Fn. apply Z.ltb_ge. lia. }
  assert (D : deref s1 (value e) = v).
  { unfold deref. rewrite Fc, Ve, Hc. reflexivity. }
  rewrite (get_live k s1 e G X), (has_entry k s1 e G), X, D, Ve.
  destruct (classify k) eqn:C; try (split; reflexivity).
  rewrite holdable_truthy by (apply Hw; reflexivity).
  split; [reflexivity|]. destruct v; try reflexivity. discriminate (Hw eq_refl).
Qed.

Lemma set_then_get_witness :
  set (JStr "k") (JObj 1) (Some 100) fresh_plain = Ok ttl_run tt /\
  snd (get (JStr "k") ttl_run) = JObj 1 /\ has (JStr "k") ttl_run = true.
Proof.
  assert (H : set (JStr "k") (JObj 1) (Some 100) fresh_plain = Ok ttl_run tt) by reflexivity.
  split; [exact H|].
  apply (set_then_get (JStr "k") (JObj 1) (Some 100) fresh_plain ttl_run H);
    first [reflexivity | intro C; discriminate C | cbn; lia].
Defined.

(** A negative effective ttl stores an entry that is already expired:
    [get] at the same instant returns [undefined] and [has] is [false]
    (unless [Date.now() + ttl] is [0], a falsy expiry). *)
Theorem set_negative_ttl : forall k v ttl t s s1,
  set k v ttl s = Ok s1 tt ->
  (classify k = KObject -> isArray v = false) ->
  match ttl with Some t => Some t | None => defaultTtl s end = Some t ->
  t < 0 -> now (rt s) + t <> 0 ->
  snd (get k s1) = JUndefined /\ has k s1 = false.
Proof.
  intros k v ttl t s s1 Hset Harr HT Ht Hz.
  destruct (set_stores k v ttl s s1 Hset Harr) as ((Fn & _) & _ & e & G & _ & Ee & _).
  rewrite HT in Ee. unfold expiryOf in Ee.
  assert (T0 : (t =? 0) = false) by (apply Z.eqb_neq; lia). rewrite T0 in Ee. cbn in Ee.
  assert (X : isExpired s1 (expiresAt e) = true)
    by (rewrite Ee; unfold isExpired; rewrite Fn; apply Z.ltb_lt; lia).
  split.
  - apply (get_expired k s1 e G); [|exact X].
    rewrite Ee. cbn. rewrite (proj2 (Z.eqb_neq _ 0) Hz). reflexivity.
  - rewrite (has_entry k s1 e G), X. reflexivity.
Qed.

Lemma set_negative_ttl_witness :
  (exists s1, set (JStr "k") (JObj 1) (Some (-5)) fresh_plain = Ok s1 tt /\
              snd (get (JStr "k") s1) = JUndefined /\ has (JStr "k") s1 = false).
Proof.
  eexists. split; [reflexivity|].
  apply (set_negative_ttl (JStr "k") (JObj 1) (Some (-5)) (-5) fresh_plain);
    first [reflexivity | intro C; discriminate C | cbn; lia].
Defined.





(** ** [delete] and missing keys *)

(** [delete(key)] returns whether the key had an entry; afterwards the key
    has no entry and no ledger node, [#currentSize] is one lower exactly
    when an entry was removed, and the entries of the other keys are
    untouched. *)
Theorem delete_effect : forall k s,
  let '(s1, b) := delete k s in
  b = match fst (getEntry k s) with Some _ => true | None => false end /\
  fst (getEntry k s1) = None /\ lru_has k s1 = false /\
  currentSize s1 = currentSize s - (if b then 1 else 0) /\
  (forall k', k' <> k -> fst (getEntry k' s1) = fst (getEntry k' s)).
Proof.
  intros k s. pose proof (delete_result k s) as Hb. pose proof (getEntry_delete k s) as Hg.
  pose proof (lru_has_delete k s) as Hl. pose proof (delete_size k s) as Hz.
  pose proof (fun k' H => getEntry_delete_other k k' s H) as Ho.
  destruct (delete k s) as [s1 b]. cbn [fst snd] in *.
  split; [exact Hb|]. split; [exact Hg|]. split; [exact Hl|]. split; [|exact Ho].
  rewrite Hz, Hb. destruct (fst (getEntry k s)); reflexivity.
Qed.

(** For a key with no entry, in a reachable instance: [get] returns
    [undefined] and leaves the instance as it is, [has] is [false],
    [getTtl] is [null], and [updateTtl] returns [false] and leaves the
    instance as it is. *)
Theorem missing_key_reads : forall k t s, reachable s -> fst (getEntry k s) = None ->
  get k s = (s, JUndefined) /\ has k s = false /\ getTtl k s = None /\ updateTtl k t s = (s, false).
Proof.
  intros k t s Hr H. pose proof (reachable_wf s Hr) as W.
  split; [unfold get; rewrite getEntry_eq, H; reflexivity|].
  split; [exact (has_absent k s H)|].
  split; [exact (getTtl_absent k s W H) | exact (updateTtl_absent k t s W H)].
Qed.

Lemma missing_key_reads_witness :
  reachable (run_op (ODelete (JStr "k")) ttl_run) /\
  fst (getEntry (JStr "k") (run_op (ODelete (JStr "k")) ttl_run)) = None /\
  get (JStr "k") (run_op (ODelete (JStr "k")) ttl_run)
    = (run_op (ODelete (JStr "k")) ttl_run, JUndefined) /\
  has (JStr "k") (run_op (ODelete (JStr "k")) ttl_run) = false /\
  getTtl (JStr "k") (run_op (ODelete (JStr "k")) ttl_run) = None /\
  updateTtl (JStr "k") 50 (run_op (ODelete (JStr "k")) ttl_run)
    = (run_op (ODelete (JStr "k")) ttl_run, false).
Proof.
  assert (R : reachable (run_op (ODelete (JStr "k")) ttl_run)).
  { apply reach_op.
    exact (reach_op (OSet (JStr "k") (JObj 1) (Some 100)) fresh_plain reach_fresh_plain). }
  assert (H : fst (getEntry (JStr "k") (run_op (ODelete (JStr "k")) ttl_run)) = None) by reflexivity.
  split; [exact R | split; [exact H | exact (missing_key_reads (JStr "k") 50 _ R H)]].
Defined.


(** ** [clear] *)

(** After [clear()] the instance is empty: [getStats()] reports zeros,
    [size] is [0], [keys()] is empty, no key has an entry, and the
    configured default ttl and maximum size are kept. *)
Theorem clear_empties : forall k s,
  let s1 := clear s in
  getStats s1 = mkStats 0 0 0 0 0 /\ size s1 = (s1, 0) /\ keys s1 = (s1, []) /\
  get k s1 = (s1, JUndefined) /\ has k s1 = false /\ getTtl k s1 = None /\
  defaultTtl s1 = defaultTtl s /\ maxSize s1 = maxSize s.
Proof.
  intros k s s1. destruct (frame_clear s) as (_ & _ & Hd & Hm & _).
  assert (E : fst (getEntry k s1) = None) by (unfold getEntry; destruct (classify k); reflexivity).
  split; [reflexivity|]. split; [reflexivity|]. split; [reflexivity|].
  split; [unfold get; rewrite getEntry_eq, E; reflexivity|].
  split; [exact (has_absent k s1 E)|].
  split; [exact (getTtl_absent k s1 (wf_clear s) E)|]. split; assumption.
Qed.

(** ** Arrays under object keys *)

(** [set] of an array value under a non-nullish object key returns without
    storing anything; an entry the key had before is gone. *)
Theorem set_array_object_key : forall k v ttl s,
  classify k = KObject -> is_nullish k = false -> isArray v = true ->
  exists s1, set k v ttl s = Ok s1 tt /\ fst (getEntry k s1) = None /\
             snd (get k s1) = JUndefined /\ has k s1 = false.
Proof.
  intros k v ttl s C Nk A.
  assert (Hv : validateInputs k v = None)
    by (unfold validateInputs; rewrite Nk; destruct v; try discriminate A; reflexivity).
  destruct (set_shape k v ttl s Hv) as (_ & G & E & _).
  exists (set_pre k s). split; [exact (E C A)|]. split; [exact G|].
  split; [exact (get_absent _ _ G) | exact (has_absent _ _ G)].
Qed.

Lemma set_array_object_key_witness :
  snd (get (JObj 5) object_run) = JObj 2 /\
  exists s1, set (JObj 5) (JArr 1) None object_run = Ok s1 tt /\ fst (getEntry (JObj 5) s1) = None /\
             snd (get (JObj 5) s1) = JUndefined /\ has (JObj 5) s1 = false.
Proof.
  split; [reflexivity|].
  apply (set_array_object_key (JObj 5) (JArr 1) None object_run); reflexivity.
Defined.

(** ** The LRU ledger *)

(** [get] of a key for which [has] is [true], in a reachable instance,
    moves the key to the tail of the LRU ledger (adding a node when it has
    none). *)
Theorem get_moves_to_tail : forall k s, reachable s -> has k s = true ->
  lru (fst (get k s)) = lru_remove k (lru s) ++ [k].
Proof.
  intros k s Hr H. pose proof (reachable_inv s Hr) as I.
  destruct (fst (getEntry k s)) as [e|] eqn:G; [|rewrite has_absent in H by exact G; discriminate].
  destruct (inv_entry k s e I G) as [_ Hw].
  rewrite (has_entry k s e G) in H.
  destruct (isExpired s (expiresAt e)) eqn:X; [discriminate|].
  unfold get. rewrite getEntry_eq, G, X, andb_false_r.
  destruct (classify k) eqn:C; try apply lru_updateLRU.
  rewrite (deref_frame s (updateLRU k s) _ (frame_updateLRU k s)).
  unfold deref in *. destruct (existsb _ _); [cbn in H; discriminate|].
  rewrite holdable_truthy by (apply Hw; reflexivity). apply lru_updateLRU.
Qed.

Lemma get_moves_to_tail_witness :
  reachable ledger_run /\ has (JStr "A") ledger_run = true /\
  lru (fst (get (JStr "A") ledger_run)) = lru_remove (JStr "A") (lru ledger_run) ++ [JStr "A"].
Proof.
  assert (R : reachable ledger_run).
  { repeat apply reach_op. exact reach_fresh_max2. }
  assert (H : has (JStr "A") ledger_run = true) by reflexivity.
  split; [exact R | split; [exact H | exact (get_moves_to_tail (JStr "A") ledger_run R H)]].
Defined.

(** [set] of a new key when [#currentSize] has reached a non-zero
    [maxSize] and the ledger is not empty evicts the key at the head of
    the ledger: it has no entry and no ledger node afterwards. *)
Theorem set_evicts_ledger_head : forall k v ttl s m h rest,
  validateInputs k v = None -> fst (getEntry k s) = None ->
  maxSize s = Some m -> m <> 0 -> m <= currentSize s ->
  lru s = h :: rest -> h <> k ->
  let s1 := outcome_state (set k v ttl s) in
  fst (getEntry h s1) = None /\ lru_has h s1 = false.
Proof.
  intros k v ttl s m h rest Hv G Hm Hm0 Hc L Hh. cbv zeta.
  assert (P : set_pre k s = fst (delete h s)).
  { unfold set_pre. rewrite G, Hm. cbn.
    rewrite (proj2 (Z.eqb_neq m 0) Hm0), (proj2 (Z.leb_le _ _) Hc). cbn.
    unfold evictLRU. rewrite L. reflexivity. }
  destruct (set_shape k v ttl s Hv) as (_ & _ & _ & [E | (e & _ & _ & M & _ & Ls & _ & _)]).
  - rewrite E, P. split; [apply getEntry_delete | apply lru_has_delete].
  - split.
    + rewrite (getEntry_same_maps h _ _ M), getEntry_store_other by exact Hh.
      rewrite P. apply getEntry_delete.
    + unfold lru_has. rewrite Ls, P. apply lru_has_delete.
Qed.

Lemma set_evicts_ledger_head_witness :
  lru ledger_run = [JStr "A"; JStr "B"] /\ currentSize ledger_run = 2 /\
  fst (getEntry (JStr "A") (outcome_state (set (JStr "C") (JObj 3) None ledger_run))) = None /\
  lru_has (JStr "A") (outcome_state (set (JStr "C") (JObj 3) None ledger_run)) = false.
Proof.
  split; [reflexivity|]. split; [reflexivity|].
  apply (set_evicts_ledger_head (JStr "C") (JObj 3) None ledger_run 2 (JStr "A") [JStr "B"]);
    first [reflexivity | discriminate | vm_compute; lia | lia].
Defined.

(** The ledger never holds two nodes for one key: in every reachable
    instance its key sequence has no duplicates. *)
Theorem ledger_nodup : forall s, reachable s -> NoDup (lru s).
Proof.
  intros s Hr. induction Hr as [h t0 d m s Hn|o s Hr IH].
  - unfold new_SmartCache in Hn.
    destruct (negb (hasFinalizationRegistry h)); [discriminate|]. injection Hn as <-. constructor.
  - apply NoDup_lru_run_op. exact IH.
Qed.

Lemma ledger_nodup_witness : reachable ledger_run /\ NoDup (lru ledger_run).
Proof.
  assert (R : reachable ledger_run).
  { repeat apply reach_op. exact reach_fresh_max2. }
  split; [exact R | exact (ledger_nodup ledger_run R)].
Defined.

(** ** Finalization *)

(** A [set] that returns and stores an object value (under an object key,
    or under a symbol key) registers the value with the shared registry
    under the key; once the collector reclaims the value, the registry's
    callback removes the key's entry. *)
Theorem set_registers_finalizer : forall k v ttl s s1,
  set k v ttl s = Ok s1 tt ->
  (classify k = KObject /\ isArray v = false) \/ (classify k = KSymbol /\ is_object_typed v = true) ->
  exists g, In g (registry (rt s1)) /\ regTarget g = v /\ regKey g = k /\ regShared g = true /\
            fst (getEntry k (finalize g (collect v s1))) = None.
Proof.
  intros k v ttl s s1 Hset Hk.
  assert (Harr : classify k = KObject -> isArray v = false)
    by (intro C; destruct Hk as [[_ A]|[C' _]]; [exact A | congruence]).
  destruct (set_stores k v ttl s s1 Hset Harr) as (_ & _ & e & G & _).
  assert (Hv : validateInputs k v = None).
  { destruct (validateInputs k v) eqn:V; [|reflexivity]. unfold set in Hset. rewrite V in Hset.
    discriminate. }
  destruct (set_shape k v ttl s Hv) as (_ & G2 & _ & [E | (e' & _ & _ & _ & _ & _ & _ & Reg)]).
  - rewrite Hset in E. cbn in E. rewrite E in G. congruence.
  - rewrite Hset in Reg. cbn [outcome_state] in Reg.
    destruct Reg as [tok Hin].
    { destruct Hk as [[C _]|[C O]]; [left; exact C | right; split; assumption]. }
    exists (mkReg v k (Some (CacheToken tok)) true).
    split; [exact Hin|]. split; [reflexivity|]. split; [reflexivity|]. split; [reflexivity|].
    unfold finalize.
    assert (R1 : existsb (registration_eqb (mkReg v k (Some (CacheToken tok)) true))
                   (registry (rt (collect v s1))) = true)
      by (apply (existsb_In _ _ (mkReg v k (Some (CacheToken tok)) true));
          [exact Hin | apply registration_eqb_refl]).
    assert (R2 : existsb (jsval_eqb v) (collected (rt (collect v s1))) = true)
      by (apply (existsb_In _ _ v); [cbn; apply in_or_app; right; left; reflexivity
                                    | apply jsval_eqb_refl]).
    cbn [regTarget] in *. rewrite R1, R2. cbn [andb regShared regKey]. apply getEntry_delete.
Qed.

Lemma set_registers_finalizer_witness :
  set (JObj 5) (JObj 2) None fresh_plain = Ok object_run tt /\
  exists g, In g (registry (rt object_run)) /\ regTarget g = JObj 2 /\ regKey g = JObj 5 /\
            regShared g = true /\ fst (getEntry (JObj 5) (finalize g (collect (JObj 2) object_run))) = None.
Proof.
  assert (H : set (JObj 5) (JObj 2) None fresh_plain = Ok object_run tt) by reflexivity.
  split; [exact H|].
  apply (set_registers_finalizer (JObj 5) (JObj 2) None fresh_plain object_run H).
  left. split; reflexivity.
Defined.

(** ** [updateTtl] *)

(** [updateTtl(key, t)] on a key with an entry in a reachable instance
    returns [true]; [getTtl] then reports [[max(0, t), now + t]] (unless
    [now + t] is [0], a falsy expiry). *)
Theorem updateTtl_then_getTtl : forall k t s e, reachable s -> fst (getEntry k s) = Some e ->
  now (rt s) + t <> 0 ->
  snd (updateTtl k t s) = true /\ getTtl k (fst (updateTtl k t s)) = Some (Z.max 0 t, now (rt s) + t).
Proof.
  intros k t s e Hr G Hz. pose proof (reachable_wf s Hr) as W.
  pose proof (wf_updateTtl k t s W) as W1.
  pose proof (updateTtl_entry k t s e W G) as U.
  destruct (updateTtl k t s) as [s1 b]. cbn [fst snd] in *.
  destruct U as (Hb & (Fn & _) & id & G1 & _). split; [exact Hb|].
  rewrite (getTtl_entry k s1 _ W1 G1). cbn [expiresAt].
  rewrite (proj2 (Z.eqb_neq _ 0) Hz), Fn.
  replace (now (rt s) + t - now (rt s)) with t by lia. reflexivity.
Qed.

Lemma updateTtl_then_getTtl_witness :
  snd (updateTtl (JStr "k") 500 ttl_run) = true /\
  getTtl (JStr "k") (fst (updateTtl (JStr "k") 500 ttl_run)) = Some (Z.max 0 500, 1000 + 500).
Proof.
  apply (updateTtl_then_getTtl (JStr "k") 500 ttl_run (mkEntry (JObj 1) (Some 0%nat) (Some 1100) 1000 None)).
  - exact (reach_op (OSet (JStr "k") (JObj 1) (Some 100)) fresh_plain reach_fresh_plain).
  - reflexivity.
  - cbn. lia.
Defined.

(** After [updateTtl(key, t)] on a key with an entry in a reachable
    instance, at any time after [now + t] the key reads as absent: [get]
    returns [undefined] and [has] is [false] (unless [now + t] is [0]). *)
Theorem updateTtl_deadline : forall k t s e tnow, reachable s -> fst (getEntry k s) = Some e ->
  now (rt s) + t <> 0 -> now (rt s) + t < tnow ->
  let s1 := tick tnow (fst (updateTtl k t s)) in
  snd (get k s1) = JUndefined /\ has k s1 = false.
Proof.
  intros k t s e tnow Hr G Hz Ht. cbv zeta. pose proof (reachable_wf s Hr) as W.
  pose proof (updateTtl_entry k t s e W G) as U.
  destruct (updateTtl k t s) as [s1 b]. cbn [fst snd] in *.
  destruct U as (_ & (Fn & _) & id & G1 & _).
  rewrite <- (getEntry_tick k tnow s1) in G1.
  assert (X : isExpired (tick tnow s1)
                (expiresAt (mkEntry (value e) (Some id) (Some (now (rt s) + t)) (accessTime e)
                   (unregisterToken e))) = true).
  { cbn [expiresAt]. unfold isExpired. rewrite now_tick, Fn. apply Z.ltb_lt. lia. }
  split.
  - apply (get_expired k _ _ G1); [|exact X].
    cbn. rewrite (proj2 (Z.eqb_neq _ 0) Hz). reflexivity.
  - rewrite (has_entry k _ _ G1), X. reflexivity.
Qed.

Lemma updateTtl_deadline_witness :
  snd (get (JStr "k") (tick 1051 (fst (updateTtl (JStr "k") 50 ttl_run)))) = JUndefined /\
  has (JStr "k") (tick 1051 (fst (updateTtl (JStr "k") 50 ttl_run))) = false.
Proof.
  apply (updateTtl_deadline (JStr "k") 50 ttl_run (mkEntry (JObj 1) (Some 0%nat) (Some 1100) 1000 None)).
  - exact (reach_op (OSet (JStr "k") (JObj 1) (Some 100)) fresh_plain reach_fresh_plain).
  - reflexivity.
  - cbn. lia.
  - cbn. lia.
Defined.

(** ** [get] purges dead entries *)

(** [get] of a key whose entry [has] reports dead (expired, or an object
    target that was collected) returns [undefined], removes the entry and
    its ledger node, and lowers [#currentSize] by one (for an expiry other
    than the falsy [0]). *)
Theorem get_purges_dead : forall k s e,
  fst (getEntry k s) = Some e -> expiresAt e <> Some 0 -> has k s = false ->
  let s1 := fst (get k s) in
  snd (get k s) = JUndefined /\ fst (getEntry k s1) = None /\ lru_has k s1 = false /\
  currentSize s1 = currentSize s - 1.
Proof.
  intros k s e G E0 H. cbv zeta. rewrite (has_entry k s e G) in H.
  unfold get. rewrite getEntry_eq, G.
  destruct (isExpired s (expiresAt e)) eqn:X.
  - assert (N : num_truthy (expiresAt e) = true).
    { unfold isExpired in X. destruct (expiresAt e) as [x|]; [|discriminate]. cbn.
      destruct (x =? 0) eqn:Z0; [apply Z.eqb_eq in Z0; subst; congruence | reflexivity]. }
    rewrite N. cbn [andb fst snd].
    split; [reflexivity|]. split; [apply getEntry_delete|]. split; [apply lru_has_delete|].
    rewrite delete_size, G. reflexivity.
  - rewrite andb_false_r. destruct (classify k) eqn:C; try (cbn in H; discriminate H).
    rewrite (deref_frame s (updateLRU k s) _ (frame_updateLRU k s)).
    apply negb_false_iff, jsval_eqb_eq in H. rewrite H. cbn [truthy negb fst snd].
    split; [reflexivity|]. split; [apply getEntry_delete|]. split; [apply lru_has_delete|].
    rewrite delete_size, updateLRU_getEntry, G, updateLRU_size. reflexivity.
Qed.

Lemma get_purges_dead_witness :
  exists e, fst (getEntry (JStr "k") (run_op (OTick 1101) ttl_run)) = Some e /\
    snd (get (JStr "k") (run_op (OTick 1101) ttl_run)) = JUndefined /\
    fst (getEntry (JStr "k") (fst (get (JStr "k") (run_op (OTick 1101) ttl_run)))) = None /\
    lru_has (JStr "k") (fst (get (JStr "k") (run_op (OTick 1101) ttl_run))) = false /\
    currentSize (fst (get (JStr "k") (run_op (OTick 1101) ttl_run)))
    = currentSize (run_op (OTick 1101) ttl_run) - 1.
Proof.
  eexists. split; [reflexivity|].
  eapply (get_purges_dead (JStr "k") (run_op (OTick 1101) ttl_run)); [reflexivity | discriminate | reflexivity].
Defined.

(** * Facts about the earlier classes of part_002 *)

(** ** Association lists of any entry type *)

Section JsMapFacts.
Import JsMap.

Lemma jm_get_set_same : forall (E : Type) k (e : E) m, map_get k (map_set k e m) = Some e.
Proof.
  intros E k e. induction m as [|[k' e'] m IH]; simpl.
  - rewrite jsval_eqb_refl. reflexivity.
  - destruct (jsval_eqb k k') eqn:H; simpl; rewrite H; auto.
Qed.

Lemma jm_get_set_other : forall (E : Type) k k' (e : E) m,
  k' <> k -> map_get k' (map_set k e m) = map_get k' m.
Proof.
  intros E k k' e. induction m as [|[k0 e0] m IH]; intro Hne; simpl.
  - rewrite (proj2 (jsval_eqb_neq k' k) Hne). reflexivity.
  - destruct (jsval_eqb k k0) eqn:H; simpl.
    + apply jsval_eqb_eq in H. subst k0. rewrite (proj2 (jsval_eqb_neq k' k) Hne). reflexivity.
    + destruct (jsval_eqb k' k0); [reflexivity | exact (IH Hne)].
Qed.

Lemma jm_get_delete_same : forall (E : Type) k (m : list (jsval * E)), map_get k (map_delete k m) = None.
Proof.
  intros E k. induction m as [|[k' e'] m IH]; simpl; [reflexivity|].
  destruct (jsval_eqb k k') eqn:H; simpl; [exact IH|]. rewrite H. exact IH.
Qed.

Lemma jm_get_delete_other : forall (E : Type) k k' (m : list (jsval * E)),
  k' <> k -> map_get k' (map_delete k m) = map_get k' m.
Proof.
  intros E k k'. induction m as [|[k0 e0] m IH]; intro Hne; simpl; [reflexivity|].
  destruct (jsval_eqb k k0) eqn:H; simpl.
  - apply jsval_eqb_eq in H. subst k0. rewrite (proj2 (jsval_eqb_neq k' k) Hne). exact (IH Hne).
  - destruct (jsval_eqb k' k0); [reflexivity | exact (IH Hne)].
Qed.

Lemma jm_get_delete_absent : forall (E : Type) k k' (m : list (jsval * E)),
  map_get k m = None -> map_get k' (map_delete k m) = map_get k' m.
Proof.
  intros E k k' m H. destruct (jsval_eq_dec k' k) as [->|Hne].
  - rewrite jm_get_delete_same. symmetry. exact H.
  - apply jm_get_delete_other. exact Hne.
Qed.

Lemma jm_get_Some_In : forall (E : Type) k (m : list (jsval * E)) e, map_get k m = Some e -> In (k, e) m.
Proof.
  intros E k. induction m as [|[k' e'] m IH]; simpl; intros e H; [discriminate|].
  destruct (jsval_eqb k k') eqn:Hk.
  - apply jsval_eqb_eq in Hk. subst. left. congruence.
  - right. auto.
Qed.

Lemma jm_get_None : forall (E : Type) k (m : list (jsval * E)), map_get k m = None <-> ~ In k (map fst m).
Proof.
  intros E k. induction m as [|[k' e'] m IH]; simpl; [tauto|].
  destruct (jsval_eqb k k') eqn:H.
  - apply jsval_eqb_eq in H. subst. split; [discriminate | intro C; exfalso; auto].
  - apply jsval_eqb_neq in H. rewrite IH. split; intros H1 H2; [destruct H2; [congruence|auto] | auto].
Qed.

Lemma jm_in_set : forall (E : Type) k k' (e : E) m,
  In k' (map fst (map_set k e m)) -> k' = k \/ In k' (map fst m).
Proof.
  intros E k k' e. induction m as [|[k0 e0] m IH]; simpl; intro H.
  - destruct H as [H|[]]. left. congruence.
  - destruct (jsval_eqb k k0); simpl in H; destruct H as [H|H]; auto.
    destruct (IH H); auto.
Qed.

Lemma jm_in_delete : forall (E : Type) k k' (m : list (jsval * E)),
  In k' (map fst (map_delete k m)) -> In k' (map fst m).
Proof.
  intros E k k' m H. apply in_map_iff in H as [[x y] [Hx Hin]]. cbn in Hx. subst x.
  unfold map_delete in Hin. apply filter_In in Hin as [Hin _]. apply in_map_iff. exists (k', y). auto.
Qed.

Lemma jm_NoDup_delete : forall (E : Type) k (m : list (jsval * E)),
  NoDup (map fst m) -> NoDup (map fst (map_delete k m)).
Proof.
  intros E k. induction m as [|[k0 e0] m IH]; simpl; intro H; [constructor|].
  inversion H as [|x l Hn Hd]; subst.
  destruct (jsval_eqb k k0); simpl; [exact (IH Hd)|].
  constructor; [|exact (IH Hd)]. intro C. apply Hn. exact (jm_in_delete E k k0 m C).
Qed.

Lemma jm_NoDup_set : forall (E : Type) k (e : E) m,
  NoDup (map fst m) -> NoDup (map fst (map_set k e m)).
Proof.
  intros E k e. induction m as [|[k0 e0] m IH]; simpl; intro H; [repeat constructor; intros []|].
  inversion H as [|x l Hn Hd]; subst.
  destruct (jsval_eqb k k0) eqn:Hk; simpl; [exact H|].
  constructor; [|exact (IH Hd)]. intro C. apply jm_in_set in C as [C|C]; [|exact (Hn C)].
  subst k0. rewrite jsval_eqb_refl in Hk. discriminate.
Qed.

End JsMapFacts.

(** ** The class with TTL timers *)

Section TtlFacts.
Import SmartCacheTtl JsMap.

Ltac unfold_ttl :=
  unfold with_cache, with_symbolCache, with_rt, with_now, with_collected, with_timers,
    with_registry, with_fresh in *;
  cbn [cache symbolCache defaultTtl rt now collected timers registry fresh env
       target registryId timeoutId expiresAt unregisterToken
       regRegistry regTarget regKey regToken regCleanup timerKey timerId] in *.

(** [this.#cache.get(key) || this.#symbolCache.get(key)], the lookup of
    [getTtl] and of the timer callback. *)
Definition entry_of (s : st) (k : jsval) : option entry :=
  match map_get k (cache s) with
  | Some e => Some e
  | None => map_get k (symbolCache s)
  end.

(** Neither map repeats a key, and no key is in both. *)
Definition ttl_wf (s : st) : Prop :=
  NoDup (map fst (cache s)) /\ NoDup (map fst (symbolCache s)) /\
  (forall k, map_get k (cache s) = None \/ map_get k (symbolCache s) = None).

(** Every pending timer is the [timeoutId] of the entry under its key. *)
Definition timers_owned (s : st) : Prop :=
  forall t, In t (timers (rt s)) ->
    exists e, entry_of s (timerKey t) = Some e /\ timeoutId e = Some (timerId t).

(** Every registration made with a cache token belongs to the entry under
    its key: same registry, same token. *)
Definition regs_owned (s : st) : Prop :=
  forall g n, In g (registry (rt s)) -> regToken g = Some (CacheToken n) ->
    exists e, entry_of s (regKey g) = Some e /\ registryId e = regRegistry g /\ unregisterToken e = n.

Definition ttl_inv (s : st) : Prop := ttl_wf s /\ timers_owned s /\ regs_owned s.

(** *** Primitive steps *)

Lemma clearTimeout_parts : forall o s,
  cache (clearTimeout o s) = cache s /\ symbolCache (clearTimeout o s) = symbolCache s /\
  registry (rt (clearTimeout o s)) = registry (rt s) /\ defaultTtl (clearTimeout o s) = defaultTtl s /\
  now (rt (clearTimeout o s)) = now (rt s) /\ collected (rt (clearTimeout o s)) = collected (rt s) /\
  env (rt (clearTimeout o s)) = env (rt s) /\
  (forall t, In t (timers (rt (clearTimeout o s))) <-> In t (timers (rt s)) /\ o <> Some (timerId t)).
Proof.
  intros [id|] s; unfold clearTimeout; unfold_ttl; repeat (split; [reflexivity|]); intro t.
  - rewrite filter_In. split.
    + intros [H1 H2]. split; [exact H1|]. intro E. injection E as E.
      rewrite E, Nat.eqb_refl in H2. discriminate.
    + intros [H1 H2]. split; [exact H1|].
      destruct (Nat.eqb (timerId t) id) eqn:E; [|reflexivity]. apply Nat.eqb_eq in E. subst. tauto.
  - split; [intro H; split; [exact H | discriminate] | tauto].
Qed.

Lemma is_token_iff : forall o n, is_token o n = true <-> o = Some (CacheToken n).
Proof.
  intros [[m|v]|] n; cbn; split; try discriminate; try (intro H; injection H; discriminate).
  - intro H. apply Nat.eqb_eq in H. subst. reflexivity.
  - intro H. injection H as ->. apply Nat.eqb_refl.
Qed.

Lemma unregister_parts : forall reg tok s,
  cache (unregisterRegistry reg tok s) = cache s /\
  symbolCache (unregisterRegistry reg tok s) = symbolCache s /\
  timers (rt (unregisterRegistry reg tok s)) = timers (rt s) /\
  defaultTtl (unregisterRegistry reg tok s) = defaultTtl s /\
  now (rt (unregisterRegistry reg tok s)) = now (rt s) /\
  collected (rt (unregisterRegistry reg tok s)) = collected (rt s) /\
  env (rt (unregisterRegistry reg tok s)) = env (rt s) /\
  (forall g, In g (registry (rt (unregisterRegistry reg tok s))) <->
             In g (registry (rt s)) /\ ~ (regRegistry g = reg /\ regToken g = Some (CacheToken tok))).
Proof.
  intros reg tok s. unfold unregisterRegistry. unfold_ttl. repeat (split; [reflexivity|]).
  intro g. rewrite filter_In. split.
  - intros [H1 H2]. split; [exact H1|]. intros [E1 E2]. apply is_token_iff in E2.
    rewrite E1, Nat.eqb_refl, E2 in H2. discriminate.
  - intros [H1 H2]. split; [exact H1|].
    destruct (Nat.eqb (regRegistry g) reg) eqn:E1; [|reflexivity].
    destruct (is_token (regToken g) tok) eqn:E2; [|reflexivity].
    apply Nat.eqb_eq in E1. apply is_token_iff in E2. tauto.
Qed.

Lemma entry_of_same : forall s s', cache s' = cache s -> symbolCache s' = symbolCache s ->
  forall k, entry_of s' k = entry_of s k.
Proof. intros s s' H1 H2 k. unfold entry_of. rewrite H1, H2. reflexivity. Qed.

(** *** Lemmas on the invariant *)

Lemma timers_owned_mono : forall c s,
  timers_owned c -> (forall k, entry_of s k = entry_of c k) ->
  (forall t, In t (timers (rt s)) -> In t (timers (rt c))) -> timers_owned s.
Proof. intros c s H E T t Ht. rewrite E. exact (H t (T t Ht)). Qed.

Lemma regs_owned_mono : forall c s,
  regs_owned c -> (forall k, entry_of s k = entry_of c k) ->
  (forall g, In g (registry (rt s)) -> In g (registry (rt c)) \/ forall n, regToken g <> Some (CacheToken n)) ->
  regs_owned s.
Proof.
  intros c s H E R g n Hg Ht. rewrite E. destruct (R g Hg) as [Hc|Hn].
  - exact (H g n Hc Ht).
  - exfalso. exact (Hn n Ht).
Qed.

Lemma timers_owned_remove : forall c s k e,
  timers_owned c -> entry_of c k = Some e ->
  (forall k', k' <> k -> entry_of s k' = entry_of c k') ->
  (forall t, In t (timers (rt s)) -> In t (timers (rt c)) /\ timeoutId e <> Some (timerId t)) ->
  timers_owned s.
Proof.
  intros c s k e H Ek E T t Ht. destruct (T t Ht) as [Hc Hn].
  destruct (H t Hc) as (e' & E' & Id).
  destruct (jsval_eq_dec (timerKey t) k) as [Hk|Hk].
  - rewrite Hk, Ek in E'. injection E' as <-. contradiction.
  - rewrite (E _ Hk). exists e'. auto.
Qed.

Lemma regs_owned_remove : forall c s k e,
  regs_owned c -> entry_of c k = Some e ->
  (forall k', k' <> k -> entry_of s k' = entry_of c k') ->
  (forall g, In g (registry (rt s)) -> In g (registry (rt c)) /\
     ~ (regRegistry g = registryId e /\ regToken g = Some (CacheToken (unregisterToken e)))) ->
  regs_owned s.
Proof.
  intros c s k e H Ek E R g n Hg Ht. destruct (R g Hg) as [Hc Hn].
  destruct (H g n Hc Ht) as (e' & E' & R1 & R2).
  destruct (jsval_eq_dec (regKey g) k) as [Hk|Hk].
  - rewrite Hk, Ek in E'. injection E' as <-. exfalso. apply Hn. rewrite R2. auto.
  - rewrite (E _ Hk). exists e'. auto.
Qed.

Lemma timers_owned_install : forall c s k e,
  timers_owned c -> (forall t, In t (timers (rt c)) -> timerKey t <> k) ->
  entry_of s k = Some e ->
  (forall k', k' <> k -> entry_of s k' = entry_of c k') ->
  (forall t, In t (timers (rt s)) -> In t (timers (rt c)) \/ (timerKey t = k /\ timeoutId e = Some (timerId t))) ->
  timers_owned s.
Proof.
  intros c s k e H Hk Ek E T t Ht. destruct (T t Ht) as [Hc|[K Id]].
  - rewrite (E _ (Hk t Hc)). exact (H t Hc).
  - rewrite K. exists e. auto.
Qed.

Lemma regs_owned_install : forall c s k e,
  regs_owned c ->
  (forall g n, In g (registry (rt c)) -> regKey g = k -> regToken g = Some (CacheToken n) ->
     regRegistry g = registryId e /\ n = unregisterToken e) ->
  entry_of s k = Some e ->
  (forall k', k' <> k -> entry_of s k' = entry_of c k') ->
  (forall g, In g (registry (rt s)) -> In g (registry (rt c)) \/
     (regKey g = k /\ regRegistry g = registryId e /\ regToken g = Some (CacheToken (unregisterToken e)))) ->
  regs_owned s.
Proof.
  intros c s k e H Hk Ek E R g n Hg Ht. destruct (R g Hg) as [Hc|(K & R1 & R2)].
  - destruct (jsval_eq_dec (regKey g) k) as [K|K].
    + destruct (Hk g n Hc K Ht) as [R1 R2]. rewrite K. exists e. auto.
    + rewrite (E _ K). exact (H g n Hc Ht).
  - rewrite K. exists e. rewrite Ht in R2. injection R2 as R2. auto.
Qed.

Lemma no_timer_of_absent : forall s k, timers_owned s -> entry_of s k = None ->
  forall t, In t (timers (rt s)) -> timerKey t <> k.
Proof.
  intros s k H E t Ht K. destruct (H t Ht) as (e & E' & _). rewrite K, E in E'. discriminate.
Qed.

Lemma entry_of_cache : forall s k e, map_get k (cache s) = Some e -> entry_of s k = Some e.
Proof. intros s k e H. unfold entry_of. rewrite H. reflexivity. Qed.

Lemma entry_of_symbol : forall s k e, ttl_wf s -> map_get k (symbolCache s) = Some e ->
  entry_of s k = Some e.
Proof.
  intros s k e (_ & _ & D) H. unfold entry_of.
  destruct (D k) as [C|C]; [rewrite C; exact H | congruence].
Qed.

Lemma deleteEntry_parts : forall k e s,
  cache (deleteEntry k e s) = map_delete k (cache s) /\
  symbolCache (deleteEntry k e s) = symbolCache s /\
  defaultTtl (deleteEntry k e s) = defaultTtl s /\
  now (rt (deleteEntry k e s)) = now (rt s) /\
  collected (rt (deleteEntry k e s)) = collected (rt s) /\
  env (rt (deleteEntry k e s)) = env (rt s) /\
  (forall t, In t (timers (rt (deleteEntry k e s))) <-> In t (timers (rt s)) /\ timeoutId e <> Some (timerId t)) /\
  (forall g, In g (registry (rt (deleteEntry k e s))) <->
     In g (registry (rt s)) /\ ~ (regRegistry g = registryId e /\ regToken g = Some (CacheToken (unregisterToken e)))).
Proof.
  intros k e s. unfold deleteEntry.
  set (s1 := clearTimeout (timeoutId e) s).
  set (s2 := unregisterRegistry (registryId e) (unregisterToken e) s1).
  destruct (clearTimeout_parts (timeoutId e) s) as (C1 & S1 & R1 & D1 & N1 & L1 & V1 & T1).
  destruct (unregister_parts (registryId e) (unregisterToken e) s1) as (C2 & S2 & T2 & D2 & N2 & L2 & V2 & R2).
  fold s1 s2 in C1, S1, R1, D1, N1, L1, V1, T1, C2, S2, T2, D2, N2, L2, V2, R2.
  unfold with_cache. cbn [cache symbolCache defaultTtl rt].
  rewrite C2, C1, S2, S1, D2, D1, N2, N1, L2, L1, V2, V1.
  repeat (split; [reflexivity|]). split.
  - intros t. rewrite T2. apply T1.
  - intros g. rewrite R2, R1. tauto.
Qed.

Lemma deleteSymbolEntry_parts : forall k e s,
  cache (deleteSymbolEntry k e s) = cache s /\
  symbolCache (deleteSymbolEntry k e s) = map_delete k (symbolCache s) /\
  defaultTtl (deleteSymbolEntry k e s) = defaultTtl s /\
  now (rt (deleteSymbolEntry k e s)) = now (rt s) /\
  collected (rt (deleteSymbolEntry k e s)) = collected (rt s) /\
  env (rt (deleteSymbolEntry k e s)) = env (rt s) /\
  (forall t, In t (timers (rt (deleteSymbolEntry k e s))) <-> In t (timers (rt s)) /\ timeoutId e <> Some (timerId t)) /\
  (forall g, In g (registry (rt (deleteSymbolEntry k e s))) <->
     In g (registry (rt s)) /\ ~ (regRegistry g = registryId e /\ regToken g = Some (CacheToken (unregisterToken e)))).
Proof.
  intros k e s. unfold deleteSymbolEntry.
  set (s1 := clearTimeout (timeoutId e) s).
  set (s2 := unregisterRegistry (registryId e) (unregisterToken e) s1).
  destruct (clearTimeout_parts (timeoutId e) s) as (C1 & S1 & R1 & D1 & N1 & L1 & V1 & T1).
  destruct (unregister_parts (registryId e) (unregisterToken e) s1) as (C2 & S2 & T2 & D2 & N2 & L2 & V2 & R2).
  fold s1 s2 in C1, S1, R1, D1, N1, L1, V1, T1, C2, S2, T2, D2, N2, L2, V2, R2.
  unfold with_symbolCache. cbn [cache symbolCache defaultTtl rt].
  rewrite C2, C1, S2, S1, D2, D1, N2, N1, L2, L1, V2, V1.
  repeat (split; [reflexivity|]). split.
  - intros t. rewrite T2. apply T1.
  - intros g. rewrite R2, R1. tauto.
Qed.

Lemma ttl_wf_delete_maps : forall s s' k,
  ttl_wf s ->
  (cache s' = map_delete k (cache s) /\ symbolCache s' = symbolCache s) \/
  (cache s' = cache s /\ symbolCache s' = map_delete k (symbolCache s)) ->
  ttl_wf s'.
Proof.
  intros s s' k (N1 & N2 & D) [[C S]|[C S]]; unfold ttl_wf; rewrite C, S; split; try split;
    try (apply jm_NoDup_delete; assumption); try assumption.
  - intro k'. destruct (jsval_eq_dec k' k) as [->|Hn].
    + left. apply jm_get_delete_same.
    + rewrite jm_get_delete_other by exact Hn. apply D.
  - intro k'. destruct (jsval_eq_dec k' k) as [->|Hn].
    + right. apply jm_get_delete_same.
    + rewrite jm_get_delete_other by exact Hn. apply D.
Qed.

Lemma entry_of_delete_other : forall s s' k,
  (cache s' = map_delete k (cache s) /\ symbolCache s' = symbolCache s) \/
  (cache s' = cache s /\ symbolCache s' = map_delete k (symbolCache s)) ->
  forall k', k' <> k -> entry_of s' k' = entry_of s k'.
Proof.
  intros s s' k [[C S]|[C S]] k' Hn; unfold entry_of; rewrite C, S;
    rewrite ?(jm_get_delete_other _ k k' _ Hn); reflexivity.
Qed.

Lemma inv_deleteEntry : forall k e s, ttl_inv s ->
  map_get k (cache s) = Some e \/ map_get k (cache s) = None -> ttl_inv (deleteEntry k e s).
Proof.
  intros k e s (W & T & R) Hk.
  destruct (deleteEntry_parts k e s) as (C & S & _ & _ & _ & _ & Ti & Ri).
  split; [apply (ttl_wf_delete_maps s _ k W); left; auto|].
  destruct Hk as [Hk|Hk].
  - apply entry_of_cache in Hk. split.
    + apply (timers_owned_remove s _ k e T Hk); [apply entry_of_delete_other; left; auto|].
      intros t Ht. apply Ti. exact Ht.
    + apply (regs_owned_remove s _ k e R Hk); [apply entry_of_delete_other; left; auto|].
      intros g Hg. apply Ri. exact Hg.
  - assert (E : forall k', entry_of (deleteEntry k e s) k' = entry_of s k').
    { intro k'. unfold entry_of. rewrite C, S, (jm_get_delete_absent _ k k' _ Hk). reflexivity. }
    split.
    + apply (timers_owned_mono s _ T E). intros t Ht. apply Ti. exact Ht.
    + apply (regs_owned_mono s _ R E). intros g Hg. left. apply Ri. exact Hg.
Qed.

Lemma inv_deleteSymbolEntry : forall k e s, ttl_inv s ->
  map_get k (symbolCache s) = Some e \/ map_get k (symbolCache s) = None ->
  ttl_inv (deleteSymbolEntry k e s).
Proof.
  intros k e s (W & T & R) Hk.
  destruct (deleteSymbolEntry_parts k e s) as (C & S & _ & _ & _ & _ & Ti & Ri).
  split; [apply (ttl_wf_delete_maps s _ k W); right; auto|].
  destruct Hk as [Hk|Hk].
  - apply (entry_of_symbol s k e W) in Hk. split.
    + apply (timers_owned_remove s _ k e T Hk); [apply entry_of_delete_other; right; auto|].
      intros t Ht. apply Ti. exact Ht.
    + apply (regs_owned_remove s _ k e R Hk); [apply entry_of_delete_other; right; auto|].
      intros g Hg. apply Ri. exact Hg.
  - assert (E : forall k', entry_of (deleteSymbolEntry k e s) k' = entry_of s k').
    { intro k'. unfold entry_of. rewrite C, S, (jm_get_delete_absent _ k k' _ Hk). reflexivity. }
    split.
    + apply (timers_owned_mono s _ T E). intros t Ht. apply Ti. exact Ht.
    + apply (regs_owned_mono s _ R E). intros g Hg. left. apply Ri. exact Hg.
Qed.

Lemma inv_unregister : forall reg tok s, ttl_inv s -> ttl_inv (unregisterRegistry reg tok s).
Proof.
  intros reg tok s (W & T & R).
  destruct (unregister_parts reg tok s) as (C & S & Ti & _ & _ & _ & _ & Ri).
  assert (E := entry_of_same s _ C S).
  split; [unfold ttl_wf; rewrite C, S; exact W|]. split.
  - apply (timers_owned_mono s _ T E). intros t Ht. rewrite Ti in Ht. exact Ht.
  - apply (regs_owned_mono s _ R E). intros g Hg. left. apply Ri. exact Hg.
Qed.


(** The parts of a state that [set] and the timer and registry helpers
    leave alone when they do not touch the maps. *)
Definition ttl_frame (c s : st) : Prop :=
  cache s = cache c /\ symbolCache s = symbolCache c /\ defaultTtl s = defaultTtl c /\
  now (rt s) = now (rt c) /\ collected (rt s) = collected (rt c) /\
  timers (rt s) = timers (rt c) /\ registry (rt s) = registry (rt c) /\ env (rt s) = env (rt c).

Lemma ttl_frame_refl : forall s, ttl_frame s s.
Proof. intro s. repeat split. Qed.

Lemma cleanup_parts : forall k s,
  let c := cleanupExistingEntry k s in
  map_get k (cache c) = None /\ map_get k (symbolCache c) = None /\
  (forall k', k' <> k -> map_get k' (cache c) = map_get k' (cache s) /\
                         map_get k' (symbolCache c) = map_get k' (symbolCache s)) /\
  defaultTtl c = defaultTtl s /\ now (rt c) = now (rt s) /\
  collected (rt c) = collected (rt s) /\ env (rt c) = env (rt s).
Proof.
  intros k s c. subst c. unfold cleanupExistingEntry.
  destruct (map_get k (cache s)) as [e1|] eqn:H1, (map_get k (symbolCache s)) as [e2|] eqn:H2.
  - destruct (deleteEntry_parts k e1 s) as (C1 & S1 & D1 & N1 & L1 & V1 & _).
    destruct (deleteSymbolEntry_parts k e2 (deleteEntry k e1 s)) as (C2 & S2 & D2 & N2 & L2 & V2 & _).
    rewrite C2, S2, D2, N2, L2, V2, C1, S1, D1, N1, L1, V1.
    split; [apply jm_get_delete_same|]. split; [apply jm_get_delete_same|].
    split; [intros k' Hk; rewrite !jm_get_delete_other by exact Hk; auto|]. auto.
  - destruct (deleteEntry_parts k e1 s) as (C1 & S1 & D1 & N1 & L1 & V1 & _).
    rewrite C1, S1, D1, N1, L1, V1.
    split; [apply jm_get_delete_same|]. split; [exact H2|].
    split; [intros k' Hk; rewrite !jm_get_delete_other by exact Hk; auto|]. auto.
  - destruct (deleteSymbolEntry_parts k e2 s) as (C2 & S2 & D2 & N2 & L2 & V2 & _).
    rewrite C2, S2, D2, N2, L2, V2.
    split; [exact H1|]. split; [apply jm_get_delete_same|].
    split; [intros k' Hk; rewrite !jm_get_delete_other by exact Hk; auto|]. auto.
  - split; [exact H1|]. split; [exact H2|]. auto.
Qed.

Lemma inv_cleanup : forall k s, ttl_inv s -> ttl_inv (cleanupExistingEntry k s).
Proof.
  intros k s I. unfold cleanupExistingEntry.
  destruct (map_get k (cache s)) as [e1|] eqn:H1; destruct (map_get k (symbolCache s)) as [e2|] eqn:H2;
    try exact I.
  - apply inv_deleteSymbolEntry; [apply inv_deleteEntry; auto|].
    left. destruct (deleteEntry_parts k e1 s) as (_ & S1 & _). rewrite S1. exact H2.
  - apply inv_deleteEntry; auto.
  - apply inv_deleteSymbolEntry; auto.
Qed.

Lemma valid_cases : forall k v, validateInputs k v = None ->
  (exists n, v = JSym n) \/ (exists n, v = JObj n) \/ (exists n, v = JArr n).
Proof.
  intros k v H. unfold validateInputs in H.
  destruct (is_nullish k); [discriminate|].
  destruct v; cbn in H; try discriminate; eauto.
Qed.

Lemma ttl_set_shape : forall k v ttl s, validateInputs k v = None ->
  let c := cleanupExistingEntry k s in
  let ttl' := match ttl with Some t => Some t | None => defaultTtl s end in
  (exists s', set k v ttl s = Throw ReferenceError s' /\
     cache s' = cache c /\ symbolCache s' = symbolCache c /\ timers (rt s') = timers (rt c) /\
     registry (rt s') = registry (rt c) /\ env (rt s') = env (rt c) /\
     (hasFinalizationRegistry (env (rt s)) = false \/
      (typeof v = TObject /\ hasWeakRef (env (rt s)) = false))) \/
  (exists s' e, set k v ttl s = Ok s' tt /\ target e = v /\ expiresAt e = expiryOf ttl' c /\
     (num_truthy ttl' = false -> timeoutId e = None) /\
     (typeof v = TSymbol -> cache s' = cache c /\ symbolCache s' = map_set k e (symbolCache c)) /\
     (typeof v = TObject -> cache s' = map_set k e (cache c) /\ symbolCache s' = symbolCache c) /\
     (forall t, In t (timers (rt s')) ->
                In t (timers (rt c)) \/ (timerKey t = k /\ timeoutId e = Some (timerId t))) /\
     registry (rt s') = registry (rt c) ++ [mkReg (registryId e) v k (Some (CacheToken (unregisterToken e))) false] /\
     defaultTtl s' = defaultTtl c /\ now (rt s') = now (rt c) /\ collected (rt s') = collected (rt c) /\
     env (rt s') = env (rt c) /\
     hasFinalizationRegistry (env (rt s)) = true /\ (typeof v = TObject -> hasWeakRef (env (rt s)) = true)).
Proof.
  intros k v ttl s Hv c ttl'.
  destruct (cleanup_parts k s) as (_ & _ & _ & Dc & _ & _ & Vc). fold c in Dc, Vc.
  assert (Ht : ttl' = match ttl with Some t => Some t | None => defaultTtl c end) by (rewrite Dc; reflexivity).
  clearbody ttl'. subst ttl'. rewrite <- Vc.
  unfold set. rewrite Hv. fold c.
  destruct (valid_cases k v Hv) as [[n ->]|[[n ->]|[n ->]]];
  unfold freshToken, createFinalizationRegistry, newWeakRef, register, armTimer, createTtlTimeout, expiryOf;
  unfold_ttl; cbn [typeof negb can_be_held_weakly];
  destruct (match ttl with Some t => Some t | None => defaultTtl c end) as [t|] eqn:Ht;
  try destruct (Z.eqb t 0) eqn:Hz;
  destruct (hasFinalizationRegistry (env (rt c))) eqn:HF; cbn [negb]; unfold_ttl;
  try (destruct (hasWeakRef (env (rt c))) eqn:HW; cbn [negb]); unfold_ttl;
  try (left; eexists; split; [reflexivity|]; unfold_ttl; repeat split;
       first [left; reflexivity | right; split; reflexivity]; fail);
  right; match goal with |- context [map_set _ (mkEntry ?a ?b ?c ?d ?f) _] =>
                          eexists; exists (mkEntry a b c d f) end;
  (split; [reflexivity|]); cbn; rewrite ?Hz; cbn;
  repeat split; try reflexivity; try discriminate; try (intro; discriminate); auto;
  intros t0 H0; rewrite ?in_app_iff in H0;
  (destruct H0 as [H0|[H0|[]]]; [left; exact H0 | right; subst t0; cbn; auto]) || (left; exact H0).
Qed.

Lemma ttl_inv_set : forall k v ttl s, ttl_inv s -> ttl_inv (outcome_state (set k v ttl s)).
Proof.
  intros k v ttl s I.
  destruct (validateInputs k v) eqn:Hv.
  { unfold set. rewrite Hv. exact I. }
  assert (Ic := inv_cleanup k s I).
  destruct (cleanup_parts k s) as (Cn & Sn & _).
  destruct (ttl_set_shape k v ttl s Hv) as [(s' & E & C & S & Ti & Ri & _)|
     (s' & e & E & _ & _ & _ & Hs & Ho & Ti & Ri & _)]; rewrite E; cbn [outcome_state];
  remember (cleanupExistingEntry k s) as c eqn:Hc;
  (assert (Ec : entry_of c k = None) by (unfold entry_of; rewrite Cn; exact Sn));
  destruct Ic as (W & T & R).
  - assert (Es := entry_of_same c s' C S).
    split; [unfold ttl_wf; rewrite C, S; exact W|]. split.
    + apply (timers_owned_mono c s' T Es). intros t; rewrite Ti; auto.
    + apply (regs_owned_mono c s' R Es). intros g; rewrite Ri; auto.
  - assert (Cases : (cache s' = cache c /\ symbolCache s' = map_set k e (symbolCache c)) \/
                    (cache s' = map_set k e (cache c) /\ symbolCache s' = symbolCache c)).
    { destruct (valid_cases k v Hv) as [[n ->]|[[n ->]|[n ->]]]; [left; apply Hs|right; apply Ho..];
      reflexivity. }
    assert (Ek : entry_of s' k = Some e /\ forall k', k' <> k -> entry_of s' k' = entry_of c k').
    { destruct Cases as [[C S]|[C S]]; unfold entry_of; rewrite C, S; split.
      - rewrite Cn. apply jm_get_set_same.
      - intros k' Hk. rewrite jm_get_set_other by exact Hk. reflexivity.
      - rewrite jm_get_set_same. reflexivity.
      - intros k' Hk. rewrite jm_get_set_other by exact Hk. reflexivity. }
    destruct Ek as [Ek Eo].
    split; [|split].
    + destruct W as (W1 & W2 & W3). unfold ttl_wf.
      destruct Cases as [[C S]|[C S]]; rewrite C, S;
        (split; [try apply jm_NoDup_set; assumption|]); (split; [try apply jm_NoDup_set; assumption|]);
        intro k'; destruct (jsval_eq_dec k' k) as [->|Hk].
      * left. exact Cn.
      * rewrite jm_get_set_other by exact Hk. apply W3.
      * right. exact Sn.
      * rewrite jm_get_set_other by exact Hk. apply W3.
    + apply (timers_owned_install c s' k e T (no_timer_of_absent c k T Ec) Ek Eo Ti).
    + apply (regs_owned_install c s' k e R); [| exact Ek | exact Eo |].
      * intros g n Hg K Ht. destruct (R g n Hg Ht) as (e' & E' & _). rewrite K, Ec in E'. discriminate.
      * intros g Hg. rewrite Ri, in_app_iff in Hg. destruct Hg as [Hg|[<-|[]]]; [left; exact Hg|].
        right. cbn. auto.
Qed.

Lemma inv_frame : forall s s', ttl_inv s ->
  cache s' = cache s -> symbolCache s' = symbolCache s ->
  (forall t, In t (timers (rt s')) -> In t (timers (rt s))) ->
  (forall g, In g (registry (rt s')) -> In g (registry (rt s)) \/ forall n, regToken g <> Some (CacheToken n)) ->
  ttl_inv s'.
Proof.
  intros s s' (W & T & R) C S Ti Ri. assert (E := entry_of_same s s' C S).
  split; [unfold ttl_wf; rewrite C, S; exact W|].
  split; [exact (timers_owned_mono s s' T E Ti) | exact (regs_owned_mono s s' R E Ri)].
Qed.

Lemma inv_clearTimeout : forall o s, ttl_inv s -> ttl_inv (clearTimeout o s).
Proof.
  intros o s I. destruct (clearTimeout_parts o s) as (C & S & R & _ & _ & _ & _ & T).
  apply (inv_frame s); auto.
  - intros t Ht. apply T in Ht. apply Ht.
  - intros g Hg. rewrite R in Hg. auto.
Qed.

Lemma deleteEntry_absent : forall k e s, map_get k (cache (deleteEntry k e s)) = None.
Proof.
  intros k e s. destruct (deleteEntry_parts k e s) as (C & _). rewrite C. apply jm_get_delete_same.
Qed.

Lemma ttl_inv_get : forall k s, ttl_inv s -> ttl_inv (fst (get k s)).
Proof.
  intros k s I. unfold get.
  destruct (map_get k (cache s)) as [e|] eqn:Hc.
  - assert (I1 : ttl_inv (if isExpired s (expiresAt e) then deleteEntry k e s else s)
              /\ (map_get k (cache (if isExpired s (expiresAt e) then deleteEntry k e s else s)) = Some e
                  \/ map_get k (cache (if isExpired s (expiresAt e) then deleteEntry k e s else s)) = None)).
    { destruct (isExpired s (expiresAt e)).
      - split; [apply inv_deleteEntry; auto|]. right. apply deleteEntry_absent.
      - auto. }
    destruct I1 as [I1 H1].
    destruct (jsval_eqb _ JUndefined); cbn [fst]; [apply inv_deleteEntry|]; auto.
  - destruct (map_get k (symbolCache s)) as [e|] eqn:Hs; [|exact I].
    destruct (isExpired s (expiresAt e)); cbn [fst]; [apply inv_deleteSymbolEntry|]; auto.
Qed.

Lemma inv_has : forall k s, ttl_inv s -> ttl_inv (fst (has k s)).
Proof.
  intros k s I. unfold has.
  destruct (map_get k (cache s)) as [e|] eqn:Hc.
  - destruct (isExpired s (expiresAt e)); [apply inv_deleteEntry; auto|].
    destruct (negb _); [exact I|apply inv_deleteEntry; auto].
  - destruct (map_get k (symbolCache s)) as [e|] eqn:Hs; [|exact I].
    destruct (isExpired s (expiresAt e)); [apply inv_deleteSymbolEntry; auto|exact I].
Qed.

Lemma ttl_inv_delete : forall k s, ttl_inv s -> ttl_inv (fst (delete k s)).
Proof.
  intros k s I. unfold delete.
  assert (I1 : ttl_inv (fst (match map_get k (cache s) with
                             | Some e => (deleteEntry k e s, true) | None => (s, false) end))).
  { destruct (map_get k (cache s)) as [e|] eqn:Hc; [apply inv_deleteEntry; auto|exact I]. }
  destruct (match map_get k (cache s) with
            | Some e => (deleteEntry k e s, true) | None => (s, false) end) as [s1 d].
  cbn [fst] in I1.
  destruct (map_get k (symbolCache s1)) as [e|] eqn:Hs; [apply inv_deleteSymbolEntry; auto|exact I1].
Qed.

Lemma ttl_inv_deleteAll : forall ks s, ttl_inv s -> ttl_inv (deleteAll ks s).
Proof.
  unfold deleteAll. induction ks as [|k ks IH]; intros s I; [exact I|].
  cbn [fold_left]. apply IH. apply ttl_inv_delete. exact I.
Qed.

Lemma ttl_inv_keys : forall s, ttl_inv s -> ttl_inv (fst (keys s)).
Proof.
  intros s I. unfold keys.
  destruct (sweep _ (cache s)) as [l1 d1]. destruct (sweep _ (symbolCache s)) as [l2 d2].
  apply ttl_inv_deleteAll. exact I.
Qed.

Lemma ttl_inv_size : forall s, ttl_inv s -> ttl_inv (fst (size s)).
Proof.
  intros s I. unfold size.
  destruct (sweep_count _ (cache s)) as [n1 d1]. destruct (sweep_count _ (symbolCache s)) as [n2 d2].
  apply ttl_inv_deleteAll. exact I.
Qed.

(** *** [clear] *)

Definition dropped (l : list (jsval * entry)) (g : registration) : Prop :=
  exists p, In p l /\ regRegistry g = registryId (snd p) /\
            regToken g = Some (CacheToken (unregisterToken (snd p))).

Lemma fold_dropEntry_parts : forall l s,
  let s' := fold_left dropEntry l s in
  cache s' = cache s /\ symbolCache s' = symbolCache s /\ defaultTtl s' = defaultTtl s /\
  now (rt s') = now (rt s) /\ collected (rt s') = collected (rt s) /\ env (rt s') = env (rt s) /\
  (forall t, In t (timers (rt s')) <->
             In t (timers (rt s)) /\ forall p, In p l -> timeoutId (snd p) <> Some (timerId t)) /\
  (forall g, In g (registry (rt s')) <-> In g (registry (rt s)) /\ ~ dropped l g).
Proof.
  induction l as [|[k e] l IH]; intro s; cbn [fold_left].
  - repeat (split; [reflexivity|]). split.
    + intro t. split; [intro H; split; [exact H|intros p []] | intros [H _]; exact H].
    + intro g. split; [intro H; split; [exact H|intros (p & [] & _)] | intros [H _]; exact H].
  - destruct (IH (dropEntry s (k, e))) as (C & S & D & N & L & V & T & R).
    unfold dropEntry in *. cbn [snd] in *.
    destruct (clearTimeout_parts (timeoutId e) s) as (C1 & S1 & R1 & D1 & N1 & L1 & V1 & T1).
    destruct (unregister_parts (registryId e) (unregisterToken e) (clearTimeout (timeoutId e) s))
      as (C2 & S2 & T2 & D2 & N2 & L2 & V2 & R2).
    rewrite C, S, D, N, L, V, C2, S2, D2, N2, L2, V2, C1, S1, D1, N1, L1, V1.
    repeat (split; [reflexivity|]). split.
    + intro t. rewrite T, T2, T1. split.
      * intros [[H1 H2] H3]. split; [exact H1|]. intros p [<-|Hp]; [exact H2|exact (H3 p Hp)].
      * intros [H1 H2]. split; [split; [exact H1|apply (H2 (k, e)); left; reflexivity]|].
        intros p Hp. apply H2. right. exact Hp.
    + intro g. rewrite R, R2, R1. split.
      * intros [[H1 H2] H3]. split; [exact H1|]. intros (p & [<-|Hp] & E1 & E2).
        -- apply H2. split; assumption.
        -- apply H3. exists p. auto.
      * intros [H1 H2]. split; [split; [exact H1|]|].
        -- intros [E1 E2]. apply H2. exists (k, e). cbn. auto.
        -- intros (p & Hp & E1 & E2). apply H2. exists p. cbn. auto.
Qed.

Lemma clear_parts : forall s,
  cache (clear s) = [] /\ symbolCache (clear s) = [] /\ defaultTtl (clear s) = defaultTtl s /\
  now (rt (clear s)) = now (rt s) /\ collected (rt (clear s)) = collected (rt s) /\
  env (rt (clear s)) = env (rt s) /\
  (forall t, In t (timers (rt (clear s))) <->
             In t (timers (rt s)) /\ forall p, In p (cache s ++ symbolCache s) -> timeoutId (snd p) <> Some (timerId t)) /\
  (forall g, In g (registry (rt (clear s))) <-> In g (registry (rt s)) /\ ~ dropped (cache s ++ symbolCache s) g).
Proof.
  intro s. unfold clear.
  destruct (fold_dropEntry_parts (cache s) s) as (C & S & D & N & L & V & T & R).
  set (s1 := fold_left dropEntry (cache s) s) in *.
  destruct (fold_dropEntry_parts (symbolCache s1) s1) as (C' & S' & D' & N' & L' & V' & T' & R').
  set (s2 := fold_left dropEntry (symbolCache s1) s1) in *.
  unfold with_cache, with_symbolCache. cbn [cache symbolCache defaultTtl rt].
  rewrite S in *. split; [reflexivity|]. split; [reflexivity|].
  rewrite D', N', L', V', D, N, L, V. repeat (split; [reflexivity|]). split.
  - intro t. rewrite T', T. split.
    + intros [[H1 H2] H3]. split; [exact H1|]. intros p Hp. apply in_app_iff in Hp as [Hp|Hp]; auto.
    + intros [H1 H2]. split; [split; [exact H1|]|]; intros p Hp; apply H2; apply in_app_iff; auto.
  - intro g. rewrite R', R. unfold dropped. split.
    + intros [[H1 H2] H3]. split; [exact H1|]. intros (p & Hp & E).
      apply in_app_iff in Hp as [Hp|Hp]; [apply H2|apply H3]; exists p; auto.
    + intros [H1 H2]. split; [split; [exact H1|]|]; intros (p & Hp & E); apply H2;
        exists p; rewrite in_app_iff; auto.
Qed.

Lemma entry_of_In : forall s k e, entry_of s k = Some e ->
  In (k, e) (cache s ++ symbolCache s).
Proof.
  intros s k e H. unfold entry_of in H. apply in_app_iff.
  destruct (map_get k (cache s)) eqn:Hc.
  - injection H as <-. left. apply jm_get_Some_In. exact Hc.
  - right. apply jm_get_Some_In. exact H.
Qed.

Lemma clear_timers : forall s, timers_owned s -> timers (rt (clear s)) = [].
Proof.
  intros s T. destruct (clear_parts s) as (_ & _ & _ & _ & _ & _ & Ti & _).
  destruct (timers (rt (clear s))) as [|t ts] eqn:E; [reflexivity|exfalso].
  assert (H : In t (t :: ts)) by (left; reflexivity).
  apply Ti in H as [H1 H2]. destruct (T t H1) as (e & Ee & Id).
  exact (H2 (timerKey t, e) (entry_of_In _ _ _ Ee) Id).
Qed.

Lemma clear_registry : forall s, regs_owned s ->
  forall g, In g (registry (rt (clear s))) <->
            In g (registry (rt s)) /\ forall n, regToken g <> Some (CacheToken n).
Proof.
  intros s R g. destruct (clear_parts s) as (_ & _ & _ & _ & _ & _ & _ & Ri).
  rewrite Ri. split.
  - intros [H1 H2]. split; [exact H1|]. intros n Ht. apply H2.
    destruct (R g n H1 Ht) as (e & Ee & E1 & E2). exists (regKey g, e).
    split; [exact (entry_of_In _ _ _ Ee)|]. cbn. rewrite E2. auto.
  - intros [H1 H2]. split; [exact H1|]. intros (p & _ & _ & E). exact (H2 _ E).
Qed.

Lemma ttl_inv_clear : forall s, ttl_inv s -> ttl_inv (clear s).
Proof.
  intros s (W & T & R). destruct (clear_parts s) as (C & S & _).
  split; [|split].
  - unfold ttl_wf. rewrite C, S. split; [constructor|]. split; [constructor|]. intro; left; reflexivity.
  - intros t Ht. rewrite (clear_timers s T) in Ht. destruct Ht.
  - intros g n Hg Ht. apply (clear_registry s R) in Hg as [_ Hg]. exfalso. exact (Hg n Ht).
Qed.

(** *** [updateTtl] *)

Lemma inv_renew : forall c s k e e' ttl,
  ttl_inv c -> entry_of c k = Some e ->
  let c1 := clearTimeout (timeoutId e) c in
  let '(c2, id) := createTtlTimeout k ttl c1 in
  e' = mkEntry (target e) (registryId e) (Some id) (Some (now (rt c2) + ttl)) (unregisterToken e) ->
  ttl_wf s -> entry_of s k = Some e' -> (forall k', k' <> k -> entry_of s k' = entry_of c k') ->
  timers (rt s) = timers (rt c2) -> registry (rt s) = registry (rt c) ->
  ttl_inv s.
Proof.
  intros c s k e e' ttl I Ek c1.
  pose proof (inv_clearTimeout (timeoutId e) c I) as (W1 & T1 & R1). fold c1 in W1, T1, R1.
  destruct (clearTimeout_parts (timeoutId e) c) as (C1 & S1 & Rg1 & _ & _ & _ & _ & Ti1).
  fold c1 in C1, S1, Rg1, Ti1.
  unfold createTtlTimeout. unfold_ttl. intros He W Es Eo Ts Rs.
  assert (E1 := entry_of_same c c1 C1 S1).
  split; [exact W|split].
  - apply (timers_owned_install c1 s k e' T1); [| exact Es | | ].
    + intros t Ht K. destruct I as (_ & T & _). apply Ti1 in Ht as [Ht Hn].
      destruct (T t Ht) as (e0 & E0 & Id). rewrite K, Ek in E0. injection E0 as <-. exact (Hn Id).
    + intros k' Hk. rewrite (Eo k' Hk). symmetry. apply E1.
    + intros t Ht. rewrite Ts, in_app_iff in Ht. destruct Ht as [Ht|[<-|[]]]; [left; exact Ht|].
      right. cbn. rewrite He. auto.
  - destruct I as (_ & _ & R). apply (regs_owned_install c s k e' R); [| exact Es | exact Eo |].
    + intros g n Hg K Ht. destruct (R g n Hg Ht) as (e0 & E0 & I1 & I2). rewrite K, Ek in E0.
      injection E0 as <-. rewrite He. cbn. auto.
    + intros g Hg. left. rewrite <- Rs. exact Hg.
Qed.

Lemma ttl_inv_updateTtl : forall k ttl s, ttl_inv s -> ttl_inv (fst (updateTtl k ttl s)).
Proof.
  intros k ttl s I. unfold updateTtl.
  destruct (map_get k (cache s)) as [e|] eqn:Hc.
  - assert (Ek : entry_of s k = Some e) by exact (entry_of_cache s k e Hc).
    pose proof (inv_renew s) as Hr.
    destruct (clearTimeout_parts (timeoutId e) s) as (C1 & S1 & Rg1 & _).
    set (c1 := clearTimeout (timeoutId e) s) in *.
    destruct (createTtlTimeout k ttl c1) as [c2 id] eqn:Hct.
    revert Hct. unfold createTtlTimeout. intro Hct. injection Hct as <- <-. unfold_ttl.
    apply (Hr _ k e _ ttl I Ek eq_refl); unfold_ttl; cbn [fst snd]; unfold_ttl.
    + destruct I as ((W1 & W2 & W3) & _). unfold ttl_wf; unfold_ttl. rewrite ?C1, ?S1.
      split; [apply jm_NoDup_set; exact W1|]. split; [exact W2|].
      intro k'. destruct (jsval_eq_dec k' k) as [->|Hk].
      * right. destruct (W3 k) as [H|H]; [congruence|exact H].
      * rewrite jm_get_set_other by exact Hk. apply W3.
    + unfold entry_of; unfold_ttl. rewrite jm_get_set_same. reflexivity.
    + intros k' Hk. unfold entry_of; unfold_ttl. rewrite jm_get_set_other by exact Hk. rewrite C1, S1. reflexivity.
    + reflexivity.
    + exact Rg1.
  - destruct (map_get k (symbolCache s)) as [e|] eqn:Hs; [|exact I].
    assert (Ek : entry_of s k = Some e) by (unfold entry_of; rewrite Hc; exact Hs).
    pose proof (inv_renew s) as Hr.
    destruct (clearTimeout_parts (timeoutId e) s) as (C1 & S1 & Rg1 & _).
    set (c1 := clearTimeout (timeoutId e) s) in *.
    destruct (createTtlTimeout k ttl c1) as [c2 id] eqn:Hct.
    revert Hct. unfold createTtlTimeout. intro Hct. injection Hct as <- <-. unfold_ttl.
    apply (Hr _ k e _ ttl I Ek eq_refl); unfold_ttl; cbn [fst snd]; unfold_ttl.
    + destruct I as ((W1 & W2 & W3) & _). unfold ttl_wf; unfold_ttl. rewrite ?C1, ?S1.
      split; [exact W1|]. split; [apply jm_NoDup_set; exact W2|].
      intro k'. destruct (jsval_eq_dec k' k) as [->|Hk].
      * left. exact Hc.
      * rewrite jm_get_set_other by exact Hk. apply W3.
    + unfold entry_of; unfold_ttl. rewrite C1, Hc, jm_get_set_same. reflexivity.
    + intros k' Hk. unfold entry_of; unfold_ttl. rewrite jm_get_set_other by exact Hk. rewrite C1, S1. reflexivity.
    + reflexivity.
    + exact Rg1.
Qed.

(** *** Events and reachable states *)

Lemma inv_register_user : forall reg c t k tok s s' (u : unit), ttl_inv s ->
  (forall n, tok <> Some (CacheToken n)) ->
  register reg c t k tok s = Ok s' u \/ register reg c t k tok s = Throw TypeError s' ->
  ttl_inv s'.
Proof.
  intros reg c t k tok s s' u I Ht E. unfold register in E.
  destruct (negb _).
  - destruct E as [E|E]; [discriminate|]. injection E as <-. exact I.
  - destruct E as [E|E]; [|discriminate]. injection E as <- _.
    apply (inv_frame s); unfold_ttl; auto.
  intros g Hg. apply in_app_iff in Hg as [Hg|[<-|[]]]; [left; exact Hg|right; exact Ht].
Qed.

Lemma ttl_inv_notify : forall k v tok c s, ttl_inv s -> ttl_inv (outcome_state (getNotificationOnGC k v tok c s)).
Proof.
  intros k v tok c s I. unfold getNotificationOnGC.
  destruct (validateInputs k v); [exact I|].
  unfold createFinalizationRegistry.
  destruct (negb _); [exact I|].
  set (s1 := with_rt _ s).
  assert (I1 : ttl_inv s1) by (apply (inv_frame s); unfold s1; unfold_ttl; auto).
  assert (Hr : forall tk, (forall n, tk <> Some (CacheToken n)) ->
             ttl_inv (outcome_state (register (fresh (rt s)) c v k tk s1))).
  { intros tk Htk. destruct (register (fresh (rt s)) c v k tk s1) as [s' u|e s'] eqn:E; cbn.
    - exact (inv_register_user _ _ _ _ _ _ _ u I1 Htk (or_introl E)).
    - revert E. unfold register. destruct (negb _); intro E; [injection E as _ <-; exact I1|discriminate]. }
  destruct tok; try (apply Hr; discriminate);
    destruct (can_be_held_weakly _); try (apply Hr; discriminate); exact I1.
Qed.

Lemma inv_fire : forall id s, ttl_inv s -> ttl_inv (fire id s).
Proof.
  intros id s I. unfold fire.
  destruct (find _ (timers (rt s))) as [t|]; [|exact I].
  set (s1 := with_rt _ s).
  assert (I1 : ttl_inv s1).
  { apply (inv_frame s); unfold s1; unfold_ttl; auto. intros t' Ht'. apply filter_In in Ht'. apply Ht'. }
  assert (W1 := proj1 I1).
  destruct (map_get (timerKey t) (cache s1)) as [e|] eqn:Hc.
  - apply inv_deleteEntry; [apply inv_unregister; exact I1|]. left.
    destruct (unregister_parts (registryId e) (unregisterToken e) s1) as (C & _). rewrite C. exact Hc.
  - destruct (map_get (timerKey t) (symbolCache s1)) as [e|] eqn:Hs; [|exact I1].
    apply inv_deleteSymbolEntry; [apply inv_unregister; exact I1|]. left.
    destruct (unregister_parts (registryId e) (unregisterToken e) s1) as (_ & S & _). rewrite S. exact Hs.
Qed.

Lemma inv_finalize : forall g s, ttl_inv s -> ttl_inv (finalize g s).
Proof.
  intros g s I. unfold finalize.
  destruct (_ && _); [|exact I].
  set (s1 := with_rt _ s).
  assert (I1 : ttl_inv s1).
  { apply (inv_frame s); unfold s1; unfold_ttl; auto. intros g' Hg'. apply filter_In in Hg'. left. apply Hg'. }
  destruct (typeof (regTarget g)).
  all: first
    [ destruct (map_get (regKey g) (symbolCache s1)) as [e|] eqn:Hs; [|exact I1];
      apply inv_deleteSymbolEntry; auto
    | destruct (map_get (regKey g) (cache s1)) as [e|] eqn:Hc; [|exact I1];
      destruct (jsval_eqb _ _); [apply inv_deleteEntry; auto|exact I1] ].
Qed.

Lemma inv_collect : forall v s, ttl_inv s -> ttl_inv (collect v s).
Proof. intros v s I. apply (inv_frame s); unfold collect; unfold_ttl; auto. Qed.

Lemma inv_tick : forall t s, ttl_inv s -> ttl_inv (tick t s).
Proof. intros t s I. apply (inv_frame s); unfold tick; unfold_ttl; auto. Qed.

Lemma inv_new : forall h t0 d s, new_SmartCache h t0 d = inr s -> ttl_inv s.
Proof.
  intros h t0 d s E. unfold new_SmartCache in E. destruct (negb _); [discriminate|].
  injection E as <-. split; [|split].
  - split; [constructor|]. split; [constructor|]. intro; left; reflexivity.
  - intros t [].
  - intros g n [].
Qed.

Lemma ttl_inv_run_op : forall o s, ttl_inv s -> ttl_inv (run_op o s).
Proof.
  intros o s I. destruct o; cbn [run_op].
  - apply ttl_inv_set; exact I.
  - apply ttl_inv_get; exact I.
  - apply inv_has; exact I.
  - apply ttl_inv_delete; exact I.
  - apply ttl_inv_clear; exact I.
  - apply ttl_inv_keys; exact I.
  - apply ttl_inv_size; exact I.
  - exact I.
  - apply ttl_inv_updateTtl; exact I.
  - apply ttl_inv_notify; exact I.
  - apply inv_fire; exact I.
  - apply inv_finalize; exact I.
  - apply inv_collect; exact I.
  - apply inv_tick; exact I.
Qed.

Lemma ttl_reachable_inv : forall s, reachable s -> ttl_inv s.
Proof.
  intros s R. induction R as [h t0 d s E|o s R IH].
  - exact (inv_new h t0 d s E).
  - exact (ttl_inv_run_op o s IH).
Qed.

(** *** Properties of the TTL class *)

Lemma entry_of_delete_self : forall k s, ttl_inv s -> entry_of (fst (delete k s)) k = None.
Proof.
  intros k s I. unfold delete.
  assert (H1 : map_get k (cache (fst (match map_get k (cache s) with
                                     | Some e => (deleteEntry k e s, true) | None => (s, false) end))) = None /\
               map_get k (symbolCache (fst (match map_get k (cache s) with
                                     | Some e => (deleteEntry k e s, true) | None => (s, false) end))) =
               map_get k (symbolCache s)).
  { destruct (map_get k (cache s)) as [e|] eqn:Hc; cbn [fst]; [|auto].
    split; [apply deleteEntry_absent|]. destruct (deleteEntry_parts k e s) as (_ & S & _). rewrite S. reflexivity. }
  destruct (match map_get k (cache s) with
            | Some e => (deleteEntry k e s, true) | None => (s, false) end) as [s1 d].
  cbn [fst] in H1. destruct H1 as [H1 H2].
  destruct (map_get k (symbolCache s1)) as [e|] eqn:Hs; cbn [fst]; unfold entry_of.
  - destruct (deleteSymbolEntry_parts k e s1) as (C & S & _). rewrite C, S, H1. apply jm_get_delete_same.
  - rewrite H1. exact Hs.
Qed.

Lemma set_Ok_valid : forall k v ttl s s1 u, set k v ttl s = Ok s1 u -> validateInputs k v = None.
Proof.
  intros k v ttl s s1 u E. unfold set in E. destruct (validateInputs k v); [discriminate|reflexivity].
Qed.

Lemma get_expired_object : forall k e s,
  map_get k (cache s) = Some e -> isExpired s (expiresAt e) = true ->
  ~ In (target e) (collected (rt s)) -> target e <> JUndefined ->
  get k s = (deleteEntry k e s, target e).
Proof.
  intros k e s Hc Hx Hn Hu. unfold get. rewrite Hc, Hx.
  unfold deref. destruct (deleteEntry_parts k e s) as (_ & _ & _ & _ & L & _). rewrite L.
  destruct (existsb (jsval_eqb (target e)) (collected (rt s))) eqn:Hex.
  - exfalso. apply existsb_exists in Hex as (x & Hx' & Ex). apply jsval_eqb_eq in Ex. subst x. exact (Hn Hx').
  - destruct (jsval_eqb (target e) JUndefined) eqn:Hu'; [apply jsval_eqb_eq in Hu'; contradiction|reflexivity].
Qed.

Lemma ttl_get_absent : forall k s, map_get k (cache s) = None -> map_get k (symbolCache s) = None ->
  get k s = (s, JNull).
Proof. intros k s Hc Hs. unfold get. rewrite Hc, Hs. reflexivity. Qed.

Lemma cache_tick : forall T s, cache (tick T s) = cache s /\ symbolCache (tick T s) = symbolCache s /\
  collected (rt (tick T s)) = collected (rt s) /\ now (rt (tick T s)) = Z.max (now (rt s)) T.
Proof. intros T s. unfold tick. unfold_ttl. auto. Qed.

(** The first states of an instance on a host with both [WeakRef] and
    [FinalizationRegistry]. *)
Definition ttl_host : host := mkHost true true.

Definition ttl_s0 : st := mkSt [] [] None (mkRuntime 0 [] [] [] 0 ttl_host).

Lemma ttl_s0_reachable : reachable ttl_s0.
Proof. apply (reach_new ttl_host 0 None). reflexivity. Qed.

(** X21: In every reachable instance of the TTL class, each of [#cache]
    and [#symbolCache] holds a key at most once, and no key is in both. *)
Lemma ttl_keys_disjoint : forall s, reachable s ->
  NoDup (map fst (cache s)) /\ NoDup (map fst (symbolCache s)) /\
  (forall k, map_get k (cache s) = None \/ map_get k (symbolCache s) = None).
Proof. intros s R. exact (proj1 (ttl_reachable_inv s R)). Qed.

Lemma ttl_keys_disjoint_witness :
  let s := run_op (OSet (JStr "a") (JSym 2) (Some 5)) (run_op (OSet (JStr "a") (JObj 1) None) ttl_s0) in
  NoDup (map fst (cache s)) /\ NoDup (map fst (symbolCache s)) /\
  (forall k, map_get k (cache s) = None \/ map_get k (symbolCache s) = None).
Proof.
  apply ttl_keys_disjoint. apply reach_op. apply reach_op. exact ttl_s0_reachable.
Defined.

(** X22: In every reachable instance of the TTL class, every pending timer
    is the [timeoutId] of the entry under its key; so after [delete(key)]
    no pending timer is left for [key]. *)
Lemma ttl_timers_owned : forall s, reachable s ->
  (forall t, In t (timers (rt s)) ->
     exists e, entry_of s (timerKey t) = Some e /\ timeoutId e = Some (timerId t)) /\
  (forall k t, In t (timers (rt (fst (delete k s)))) -> timerKey t <> k).
Proof.
  intros s R. pose proof (ttl_reachable_inv s R) as I. split; [apply I|].
  intros k t Ht. assert (I' := ttl_inv_delete k s I).
  exact (no_timer_of_absent _ k (proj1 (proj2 I')) (entry_of_delete_self k s I) t Ht).
Qed.

Lemma ttl_timers_owned_witness :
  let s := run_op (OSet (JStr "b") (JObj 3) (Some 7)) (run_op (OSet (JStr "a") (JSym 2) (Some 5)) ttl_s0) in
  (forall t, In t (timers (rt s)) ->
     exists e, entry_of s (timerKey t) = Some e /\ timeoutId e = Some (timerId t)) /\
  (forall k t, In t (timers (rt (fst (delete k s)))) -> timerKey t <> k).
Proof.
  apply ttl_timers_owned. apply reach_op. apply reach_op. exact ttl_s0_reachable.
Defined.

(** X23: In every reachable instance of the TTL class, every registration
    made with an unregister token of [set] is in the registry and carries
    the token of the entry under its key; so after [delete(key)] no such
    registration is left for [key]. *)
Lemma ttl_registrations_owned : forall s, reachable s ->
  (forall g n, In g (registry (rt s)) -> regToken g = Some (CacheToken n) ->
     exists e, entry_of s (regKey g) = Some e /\ registryId e = regRegistry g /\ unregisterToken e = n) /\
  (forall k g n, In g (registry (rt (fst (delete k s)))) -> regToken g = Some (CacheToken n) -> regKey g <> k).
Proof.
  intros s R. pose proof (ttl_reachable_inv s R) as I. split; [apply I|].
  intros k g n Hg Ht K. destruct (ttl_inv_delete k s I) as (_ & _ & R').
  destruct (R' g n Hg Ht) as (e & E & _). rewrite K, (entry_of_delete_self k s I) in E. discriminate.
Qed.

Lemma ttl_registrations_owned_witness :
  let s := run_op (OSet (JStr "a") (JObj 4) None) (run_op (OSet (JStr "a") (JSym 2) (Some 5)) ttl_s0) in
  (forall g n, In g (registry (rt s)) -> regToken g = Some (CacheToken n) ->
     exists e, entry_of s (regKey g) = Some e /\ registryId e = regRegistry g /\ unregisterToken e = n) /\
  (forall k g n, In g (registry (rt (fst (delete k s)))) -> regToken g = Some (CacheToken n) -> regKey g <> k).
Proof.
  apply ttl_registrations_owned. apply reach_op. apply reach_op. exact ttl_s0_reachable.
Defined.

(** X24: [clear()] on a reachable instance of the TTL class empties both
    maps, leaves no pending timer, and removes from the registries exactly
    the registrations made by [set]: those of [getNotificationOnGC] stay. *)
Lemma ttl_clear_effect : forall s, reachable s ->
  cache (clear s) = [] /\ symbolCache (clear s) = [] /\ timers (rt (clear s)) = [] /\
  (forall g, In g (registry (rt (clear s))) <->
             In g (registry (rt s)) /\ forall n, regToken g <> Some (CacheToken n)).
Proof.
  intros s R. destruct (ttl_reachable_inv s R) as (_ & T & Rg).
  destruct (clear_parts s) as (C & S & _).
  split; [exact C|]. split; [exact S|]. split; [exact (clear_timers s T)|exact (clear_registry s Rg)].
Qed.

Lemma ttl_clear_effect_witness :
  let s := run_op (ONotify (JStr "n") (JObj 9) JUndefined false)
             (run_op (OSet (JStr "a") (JObj 1) (Some 5)) ttl_s0) in
  cache (clear s) = [] /\ symbolCache (clear s) = [] /\ timers (rt (clear s)) = [] /\
  (forall g, In g (registry (rt (clear s))) <->
             In g (registry (rt s)) /\ forall n, regToken g <> Some (CacheToken n)).
Proof.
  apply ttl_clear_effect. apply reach_op. apply reach_op. exact ttl_s0_reachable.
Defined.

(** X25: Once [Date.now()] has passed the expiry of an entry stored by
    [set(key, value, {ttl: t})] (t not 0), before its timer has run: [get]
    of a symbol value returns [null], while [get] of an object value that
    is still alive returns the value; in both cases the key has no entry
    afterwards. *)
Lemma ttl_expired_before_timer : forall k v t s s1 T,
  set k v (Some t) s = Ok s1 tt -> t <> 0 -> now (rt s) + t < T ->
  (typeof v = TSymbol -> snd (get k (tick T s1)) = JNull /\ entry_of (fst (get k (tick T s1))) k = None) /\
  (typeof v = TObject -> ~ In v (collected (rt s)) ->
     snd (get k (tick T s1)) = v /\ entry_of (fst (get k (tick T s1))) k = None).
Proof.
  intros k v t s s1 T E Ht HT.
  pose proof (set_Ok_valid _ _ _ _ _ _ E) as Hv.
  destruct (cleanup_parts k s) as (Cn & Sn & _ & _ & Nc & Lc & _).
  destruct (ttl_set_shape k v (Some t) s Hv)
    as [(s' & E' & _)|(s' & e & E' & Tg & Ex & _ & Hs & Ho & _ & _ & _ & N & L & _)];
    rewrite E in E'; [discriminate|]. injection E' as <-.
  remember (cleanupExistingEntry k s) as c eqn:Hc.
  assert (Hx : expiresAt e = Some (now (rt s) + t)).
  { rewrite Ex. unfold expiryOf. rewrite Nc. apply Z.eqb_neq in Ht. rewrite Ht. reflexivity. }
  destruct (cache_tick T s1) as (Ct & St & Lt & Nt).
  assert (Hexp : isExpired (tick T s1) (expiresAt e) = true).
  { rewrite Hx. unfold isExpired. rewrite Nt, N, Nc. apply Z.ltb_lt. lia. }
  split.
  - intro Hty. destruct (Hs Hty) as [C1 S1].
    unfold get. rewrite Ct, C1, Cn, St, S1, jm_get_set_same. rewrite Hexp. cbn [fst snd].
    split; [reflexivity|]. unfold entry_of.
    destruct (deleteSymbolEntry_parts k e (tick T s1)) as (C2 & S2 & _).
    rewrite C2, S2, Ct, C1, Cn. apply jm_get_delete_same.
  - intros Hty Hn. destruct (Ho Hty) as [C1 S1].
    rewrite (get_expired_object k e (tick T s1)).
    + cbn [fst snd]. split; [exact Tg|]. unfold entry_of. rewrite deleteEntry_absent.
      destruct (deleteEntry_parts k e (tick T s1)) as (_ & S2 & _). rewrite S2, St, S1. exact Sn.
    + rewrite Ct, C1. apply jm_get_set_same.
    + exact Hexp.
    + rewrite Lt, L, Lc, Tg. exact Hn.
    + rewrite Tg. intro U. rewrite U in Hty. discriminate.
Qed.

Lemma ttl_expired_before_timer_witness :
  let s := ttl_s0 in
  let s1 := outcome_state (set (JStr "a") (JSym 2) (Some 5) s) in
  let s2 := outcome_state (set (JStr "b") (JObj 3) (Some 5) s1) in
  set (JStr "b") (JObj 3) (Some 5) s1 = Ok s2 tt /\
  (typeof (JObj 3) = TSymbol -> snd (get (JStr "b") (tick 10 s2)) = JNull /\
     entry_of (fst (get (JStr "b") (tick 10 s2))) (JStr "b") = None) /\
  (typeof (JObj 3) = TObject -> ~ In (JObj 3) (collected (rt s1)) ->
     snd (get (JStr "b") (tick 10 s2)) = JObj 3 /\ entry_of (fst (get (JStr "b") (tick 10 s2))) (JStr "b") = None).
Proof.
  cbv zeta. split; [reflexivity|].
  apply (ttl_expired_before_timer (JStr "b") (JObj 3) 5
           (outcome_state (set (JStr "a") (JSym 2) (Some 5) ttl_s0))
           (outcome_state (set (JStr "b") (JObj 3) (Some 5)
              (outcome_state (set (JStr "a") (JSym 2) (Some 5) ttl_s0)))) 10);
    [reflexivity|discriminate|vm_compute; reflexivity].
Defined.

(** X26: On a host without [WeakRef] (which the constructor does not check),
    [set] of a valid object value throws a [ReferenceError], after removing
    the entry the key had; the entries of the other keys are kept. *)
Lemma set_without_WeakRef : forall k v ttl s,
  is_nullish k = false -> is_nullish v = false -> typeof v = TObject ->
  hasWeakRef (env (rt s)) = false ->
  exists s', set k v ttl s = Throw ReferenceError s' /\ entry_of s' k = None /\
             (forall k', k' <> k -> entry_of s' k' = entry_of s k').
Proof.
  intros k v ttl s Nk Nv Ty Hw.
  assert (Hv : validateInputs k v = None) by (unfold validateInputs; rewrite Nk, Nv, Ty; reflexivity).
  destruct (cleanup_parts k s) as (Cn & Sn & O & _).
  destruct (ttl_set_shape k v ttl s Hv) as [(s' & E & C & S & _)|(s' & e & _ & _ & _ & _ & _ & _ & _ & _ & _ & _ & _ & _ & _ & W)].
  - exists s'. split; [exact E|]. split.
    + unfold entry_of. rewrite C, S, Cn. exact Sn.
    + intros k' Hk. unfold entry_of. rewrite C, S. destruct (O k' Hk) as [O1 O2]. rewrite O1, O2. reflexivity.
  - rewrite (W Ty) in Hw. discriminate.
Qed.

Lemma set_without_WeakRef_witness :
  let s := outcome_state (set (JStr "a") (JObj 1) None (mkSt [] [] None (mkRuntime 0 [] [] [] 0 (mkHost true true)))) in
  let s2 := mkSt (cache s) (symbolCache s) (defaultTtl s)
              (mkRuntime (now (rt s)) (collected (rt s)) (timers (rt s)) (registry (rt s)) (fresh (rt s))
                 (mkHost false true)) in
  exists s', set (JStr "a") (JObj 5) None s2 = Throw ReferenceError s' /\ entry_of s' (JStr "a") = None /\
             (forall k', k' <> JStr "a" -> entry_of s' k' = entry_of s2 k').
Proof.
  cbv zeta. apply set_without_WeakRef; reflexivity.
Defined.

(** X27: [updateTtl(key, t)] on a key with an entry (in either map) returns
    [true], and [getTtl(key)] then returns [{ttl: max(0, t), expiresAt:
    now + t}], unless [now + t] is [0]. *)
Lemma ttl_updateTtl_getTtl : forall k t s, entry_of s k <> None ->
  snd (updateTtl k t s) = true /\
  getTtl k (fst (updateTtl k t s)) =
    if Z.eqb (now (rt s) + t) 0 then None else Some (Z.max 0 t, now (rt s) + t).
Proof.
  intros k t s H. unfold entry_of in H. unfold updateTtl.
  assert (Nc : forall o, now (rt (clearTimeout o s)) = now (rt s)) by (intro o; apply clearTimeout_parts).
  assert (Cc : forall o, cache (clearTimeout o s) = cache s) by (intro o; apply clearTimeout_parts).
  destruct (map_get k (cache s)) as [e|] eqn:Hc;
    [|destruct (map_get k (symbolCache s)) as [e|] eqn:Hs; [|contradiction]];
    unfold createTtlTimeout; unfold_ttl; cbn [fst snd]; (split; [reflexivity|]);
    unfold getTtl; unfold_ttl.
  - rewrite jm_get_set_same. cbn. rewrite Nc.
    destruct (Z.eqb (now (rt s) + t) 0); [reflexivity|].
    replace (now (rt s) + t - now (rt s)) with t by lia. reflexivity.
  - rewrite Cc, Hc, jm_get_set_same. cbn. rewrite Nc.
    destruct (Z.eqb (now (rt s) + t) 0); [reflexivity|].
    replace (now (rt s) + t - now (rt s)) with t by lia. reflexivity.
Qed.

Lemma ttl_updateTtl_getTtl_witness :
  let s := outcome_state (set (JStr "a") (JSym 2) None ttl_s0) in
  snd (updateTtl (JStr "a") 30 s) = true /\
  getTtl (JStr "a") (fst (updateTtl (JStr "a") 30 s)) =
    if Z.eqb (now (rt s) + 30) 0 then None else Some (Z.max 0 30, now (rt s) + 30).
Proof.
  cbv zeta. apply ttl_updateTtl_getTtl. vm_compute. discriminate.
Defined.

End TtlFacts.

(** ** [size] and [keys] of the earlier classes *)

Lemma ttl_sweep_count : forall a m,
  SmartCacheTtl.sweep_count a m = (List.length (fst (SmartCacheTtl.sweep a m)), snd (SmartCacheTtl.sweep a m)).
Proof.
  intro a. induction m as [|[k e] m IH]; [reflexivity|]. cbn. rewrite IH.
  destruct (SmartCacheTtl.sweep a m) as [l d]. cbn. destruct (a e); reflexivity.
Qed.

Lemma basic_sweep_count : forall s m,
  SmartCacheBasic.sweep_count s m = (List.length (fst (SmartCacheBasic.sweep s m)), snd (SmartCacheBasic.sweep s m)).
Proof.
  intro s. induction m as [|[k e] m IH]; [reflexivity|]. cbn. rewrite IH.
  destruct (SmartCacheBasic.sweep s m) as [l d]. cbn. destruct (SmartCacheBasic.alive s e); reflexivity.
Qed.

(** X29: In both earlier classes, reading [size] has the same effect on the
    instance as [keys()], and returns the length of the array [keys()]
    returns. *)
Lemma size_keys_agree :
  (forall s, fst (SmartCacheTtl.size s) = fst (SmartCacheTtl.keys s) /\
             snd (SmartCacheTtl.size s) = Z.of_nat (List.length (snd (SmartCacheTtl.keys s)))) /\
  (forall s, fst (SmartCacheBasic.size s) = fst (SmartCacheBasic.keys s) /\
             snd (SmartCacheBasic.size s) = Z.of_nat (List.length (snd (SmartCacheBasic.keys s)))).
Proof.
  split; intro s.
  - unfold SmartCacheTtl.size, SmartCacheTtl.keys. rewrite !ttl_sweep_count.
    destruct (SmartCacheTtl.sweep _ (SmartCacheTtl.cache s)) as [l1 d1].
    destruct (SmartCacheTtl.sweep _ (SmartCacheTtl.symbolCache s)) as [l2 d2].
    cbn. rewrite length_app. split; reflexivity.
  - unfold SmartCacheBasic.size, SmartCacheBasic.keys. rewrite basic_sweep_count.
    destruct (SmartCacheBasic.sweep s (SmartCacheBasic.cache s)) as [l d].
    cbn. rewrite length_app, length_map. split; reflexivity.
Qed.
